(** * inline_poly: fixed-capacity polymorphic containers with inline storage

    A shallow embedding of [include/inline_poly.h]: the type-erased
    operation table ([type_operations]), the three relocation helpers
    ([safe_move_construct], [safe_copy_construct], [safe_destroy]), the
    slot-layout traits and the two containers [poly_array] and
    [poly_vector], followed by the properties of the specification that
    were checked against them and by further properties of the code:
    rejected calls, the structural invariant, round trips, destructor
    accounting and the iterator pointer cache.

    Modelling choices.
    - The inline buffer [storage_[N * SlotSize]] is only ever addressed
      through [get_storage_slot(index)], so it is kept slot by slot: a list
      of [N] cells, each cell the bytes of one slot.  A [void*] into the
      buffer is the index of its slot, a null pointer is [None].
    - A function pointer of the operation table is an optional function on
      the cells it reads and writes; a null function pointer is [None].
    - A member function is a computation in a state-and-exception monad
      [M]: it threads the container, and a [throw] leaves the container as
      it was at the throw, exactly what a C++ caller observes afterwards.
      Destructor calls are recorded in an event trace.
    - [size_t] indices are natural numbers (every index is bounded by the
      capacity, a template parameter). *)

From Stdlib Require Import Strings.Byte.
From stdpp Require Import base list strings pretty.

(** ** Exceptions and events *)

(** The standard exception classes the header throws, with their message. *)
Inductive std_exception : Type :=
  | out_of_range (what : string)
  | length_error (what : string)
  | logic_error (what : string)
  | runtime_error (what : string).

(** What a caller can observe when a call does not return normally:
    an exception thrown by the header itself, an exception thrown by a
    variant's own constructor and propagated verbatim, or the call of
    [std::terminate] made when an exception leaves a [noexcept] function. *)
Inductive exn : Type :=
  | raised (e : std_exception)
  | propagated (e : std_exception)
  | std_terminate.

(** Which container an address belongs to in an operation on two of them. *)
Inductive owner : Type := self | peer.

(** [ev_destroy w p]: the destructor stored in an operation table was
    invoked on the object living in slot [p] of container [w]. *)
Inductive event : Type :=
  | ev_destroy (w : owner) (p : nat).

Definition retag (e : event) : event :=
  match e with ev_destroy _ p => ev_destroy peer p end.

(** ** The state-and-exception monad *)

Definition M (S A : Type) : Type := S → S * list event * (exn + A).

Definition ret {S A} (a : A) : M S A := λ s, (s, [], inr a).

Definition bind {S A B} (m : M S A) (k : A → M S B) : M S B :=
  λ s, match m s with
       | (s1, t1, inl e) => (s1, t1, inl e)
       | (s1, t1, inr a) =>
           match k a s1 with (s2, t2, r) => (s2, t1 ++ t2, r) end
       end.

#[global] Instance M_ret S : MRet (M S) := λ A, @ret S A.
#[global] Instance M_bind S : MBind (M S) := λ A B k m, @bind S A B m k.

Definition throw {S A} (e : exn) : M S A := λ s, (s, [], inl e).
Definition get {S} : M S S := λ s, (s, [], inr s).
Definition modify {S} (f : S → S) : M S unit := λ s, (f s, [], inr tt).
Definition emit {S} (e : event) : M S unit := λ s, (s, [e], inr tt).

(** A function declared [noexcept]: an exception that would leave it
    calls [std::terminate]. *)
Definition noexcept {S A} (m : M S A) : M S A :=
  λ s, match m s with
       | (s1, t1, inl _) => (s1, t1, inl std_terminate)
       | r => r
       end.

(** [for (i : l) body(i)] *)
Fixpoint for_each {S} (l : list nat) (body : nat → M S unit) : M S unit :=
  match l with
  | [] => ret tt
  | i :: l' => body i;; for_each l' body
  end.

(** [while (cond) body], unrolled at most [fuel] times. *)
Fixpoint while_loop {S} (fuel : nat) (cond : S → bool) (body : M S unit)
  : M S unit :=
  match fuel with
  | 0 => ret tt
  | S fuel' =>
      s ← get;
      if cond s then body;; while_loop fuel' cond body else ret tt
  end.

(** Run a computation of the second container of a pair (the argument
    [other] of a copy or a move); its events are tagged [peer]. *)
Definition on_other {S A} (m : M S A) : M (S * S) A :=
  λ '(this, other),
    match m other with
    | (other', t, r) => ((this, other'), retag <$> t, r)
    end.

Definition on_this {S A} (m : M S A) : M (S * S) A :=
  λ '(this, other),
    match m this with
    | (this', t, r) => ((this', other), t, r)
    end.

(** ** Type operations *)

(** The bytes of one slot. *)
Definition cell : Type := list byte.

(** [struct type_operations].  The move entries are pointers to
    [noexcept] functions of a destination and a source: a call of
    [move_construct dst src] either returns, with the new contents of
    [dst] and of [src], or ends the program in [std::terminate] ([None]);
    no exception leaves it.  The copy entries are not [noexcept] and may
    throw. *)
Record type_operations : Type := {
  destroy : option (cell → cell);
  move_construct : option (cell → cell → option (cell * cell));
  move_assign : option (cell → cell → option (cell * cell));
  copy_construct : option (cell → cell → std_exception + cell);
  copy_assign : option (cell → cell → std_exception + cell);
  size : nat;
  alignment : nat;
  is_trivially_copyable : bool;
  is_copy_constructible : bool;
  is_move_constructible : bool
}.

(** [std::memcpy(dst, src, n)] on two slots: the first [n] bytes of [dst]
    become those of [src], the rest of [dst] is kept. *)
Definition memcpy (dst src : cell) (n : nat) : cell :=
  take n src ++ drop n dst.

(** [safe_move_construct(dst, src, ops)]: the new contents of [dst] and
    [src], or the exception. *)
Definition safe_move_construct (dst src : cell) (ops : type_operations)
  : exn + cell * cell :=
  if is_trivially_copyable ops then
    inr (memcpy dst src (size ops), src)
  else match move_construct ops with
  | Some f =>
      match f dst src with
      | Some r => inr r
      | None => inl std_terminate
      end
  | None =>
    match copy_construct ops with
    | Some g =>
        match g dst src with
        | inl e => inl (propagated e)
        | inr dst' => inr (dst', src)
        end
    | None =>
        inl (raised (runtime_error "No move or copy constructor available"%string))
    end
  end.

(** [safe_copy_construct(dst, src, ops)]: the new contents of [dst]. *)
Definition safe_copy_construct (dst src : cell) (ops : type_operations)
  : exn + cell :=
  match copy_construct ops with
  | Some g =>
      match g dst src with
      | inl e => inl (propagated e)
      | inr dst' => inr dst'
      end
  | None =>
    if is_trivially_copyable ops then inr (memcpy dst src (size ops))
    else inl (raised (runtime_error "Type is not copy constructible"%string))
  end.

(** [safe_destroy(obj, ops)]: the contents the destructor leaves behind. *)
Definition safe_destroy (obj : cell) (ops : type_operations) : cell :=
  match destroy ops with
  | Some d => d obj
  | None => obj
  end.

(** [struct slot_info], the same private struct in both containers. *)
Record slot_info : Type := {
  ptr : option nat;
  ops : option type_operations
}.

(** [slot_info{}] *)
Definition empty_slot : slot_info := {| ptr := None; ops := None |}.

(** The test [slot.ptr && slot.ops] guarding every use of a slot. *)
Definition occupied (s : slot_info) : option (nat * type_operations) :=
  match ptr s, ops s with
  | Some p, Some o => Some (p, o)
  | _, _ => None
  end.

(** [new (placement_ptr) Derived(args...)]: the constructor either throws
    or writes the object representation at the start of the slot. *)
Definition placement_new (c : cell) (ctor : std_exception + list byte)
  : exn + cell :=
  match ctor with
  | inl e => inl (propagated e)
  | inr obj => inr (obj ++ drop (length obj) c)
  end.

(** One pass of [update_capabilities] over a slot: the triple is
    [(all_copyable, all_movable, has_elements)]. *)
Definition capability_step (acc : bool * bool * bool) (s : slot_info)
  : bool * bool * bool :=
  match occupied s with
  | Some (_, o) =>
      let '(all_copyable, all_movable, _) := acc in
      (if is_copy_constructible o then all_copyable else false,
       if is_move_constructible o then all_movable else false,
       true)
  | None => acc
  end.

(** The flags computed by [update_capabilities] from the slots it visits:
    [(can_copy_, can_move_)]. *)
Definition capabilities (visited : list slot_info) : bool * bool :=
  let '(all_copyable, all_movable, has_elements) :=
    foldl capability_step (true, true, false) visited in
  (negb has_elements || all_copyable, negb has_elements || all_movable).

(** ** The dynamic-length container [poly_vector] *)

Module PolyVector.
Section poly_vector.
(** The template parameters [Capacity] and [SlotSize]. *)
Variables Capacity SlotSize : nat.

Record poly_vector : Type := {
  storage_ : list cell;
  slots_ : list slot_info;
  size_ : nat;
  can_copy_ : bool;
  can_move_ : bool;
  ptr_cache_ : list (option nat);
  cache_valid_ : bool
}.

(** The state built by the default member initialisers. *)
Definition default_constructed : poly_vector :=
  {| storage_ := replicate Capacity (replicate SlotSize "000"%byte);
     slots_ := replicate Capacity empty_slot;
     size_ := 0;
     can_copy_ := false;
     can_move_ := true;
     ptr_cache_ := replicate Capacity None;
     cache_valid_ := false |}.

Definition set_storage (f : list cell → list cell) (v : poly_vector) :=
  {| storage_ := f (storage_ v); slots_ := slots_ v; size_ := size_ v;
     can_copy_ := can_copy_ v; can_move_ := can_move_ v;
     ptr_cache_ := ptr_cache_ v; cache_valid_ := cache_valid_ v |}.
Definition set_slots (f : list slot_info → list slot_info) (v : poly_vector) :=
  {| storage_ := storage_ v; slots_ := f (slots_ v); size_ := size_ v;
     can_copy_ := can_copy_ v; can_move_ := can_move_ v;
     ptr_cache_ := ptr_cache_ v; cache_valid_ := cache_valid_ v |}.
Definition set_size (n : nat) (v : poly_vector) :=
  {| storage_ := storage_ v; slots_ := slots_ v; size_ := n;
     can_copy_ := can_copy_ v; can_move_ := can_move_ v;
     ptr_cache_ := ptr_cache_ v; cache_valid_ := cache_valid_ v |}.
Definition set_flags (c m : bool) (v : poly_vector) :=
  {| storage_ := storage_ v; slots_ := slots_ v; size_ := size_ v;
     can_copy_ := c; can_move_ := m;
     ptr_cache_ := ptr_cache_ v; cache_valid_ := cache_valid_ v |}.
Definition set_cache (c : list (option nat)) (b : bool) (v : poly_vector) :=
  {| storage_ := storage_ v; slots_ := slots_ v; size_ := size_ v;
     can_copy_ := can_copy_ v; can_move_ := can_move_ v;
     ptr_cache_ := c; cache_valid_ := b |}.

(** [slots_[i]] and the bytes behind a slot pointer. *)
Definition slot (v : poly_vector) (i : nat) : slot_info :=
  default empty_slot (slots_ v !! i).
Definition load (v : poly_vector) (p : nat) : cell :=
  default [] (storage_ v !! p).
Definition store (p : nat) (c : cell) : poly_vector → poly_vector :=
  set_storage (<[p := c]>).
Definition set_slot (i : nat) (s : slot_info) : poly_vector → poly_vector :=
  set_slots (<[i := s]>).

(** [&storage_[index * SlotSize]]: the pointer to slot [index]. *)
Definition get_storage_slot (index : nat) : nat := index.

(** The call [safe_destroy(p, o)] on a slot of this container. *)
Definition destroy_object (p : nat) (o : type_operations) : M poly_vector unit :=
  match destroy o with
| Some _ => emit (ev_destroy self p)
| None => ret tt
end;;
  modify (λ v, store p (safe_destroy (load v p) o) v).

(** The call [safe_move_construct(dst, src, o)] between two slots of this
    container. *)
Definition move_object (dst src : nat) (o : type_operations) : M poly_vector unit :=
  v ← get;
  match safe_move_construct (load v dst) (load v src) o with
  | inl e => throw e
  | inr (d, s) => modify (λ v, store dst d (store src s v))
  end.

Definition update_ptr_cache : M poly_vector unit :=
  modify (λ v,
    if cache_valid_ v then v
    else set_cache
           ((λ i, if i <? size_ v then ptr (slot v i) else None)
              <$> seq 0 Capacity) true v).

Definition update_capabilities : M poly_vector unit :=
  modify (λ v,
    let '(c, m) := capabilities (slot v <$> seq 0 (size_ v)) in
    set_flags c m v).

Definition destroy_at (index : nat) : M poly_vector unit :=
  v ← get;
  match occupied (slot v index) with
  | Some (p, o) =>
      destroy_object p o;;
      modify (set_slot index empty_slot)
  | None => ret tt
  end.

(** The body shared by the loops of [shift_right] and [shift_left]:
    relocate the occupant of slot [src] into slot [dst]. *)
Definition relocate (src dst : nat) : M poly_vector unit :=
  v ← get;
  match occupied (slot v src) with
  | Some (_, o) =>
      let dst_storage := get_storage_slot dst in
      let src_storage := get_storage_slot src in
      move_object dst_storage src_storage o;;
      modify (λ v, set_slot dst (slot v src) v);;
      modify (λ v, set_slot dst {| ptr := Some dst_storage;
                                   ops := ops (slot v dst) |} v);;
      destroy_object src_storage o;;
      modify (set_slot src empty_slot)
  | None => ret tt
  end.

(** [for (i = size_; i > start_index; --i)] with [src = i - 1]. *)
Definition shift_right (start_index count : nat) : M poly_vector unit :=
  v ← get;
  for_each (rev (seq start_index (size_ v - start_index)))
           (λ src, relocate src (src + count)).

(** [for (i = start_index; i < size_; ++i)] with [dst = i - count]
    (every caller has [count <= start_index]). *)
Definition shift_left (start_index count : nat) : M poly_vector unit :=
  v ← get;
  for_each (seq start_index (size_ v - start_index))
           (λ i, relocate i (i - count)).

(** The placement [new] of the two emplace functions at slot [index]. *)
Definition construct_at (index : nat) (ctor : std_exception + list byte)
  : M poly_vector nat :=
  v ← get;
  let placement_ptr := get_storage_slot index in
  match placement_new (load v placement_ptr) ctor with
  | inl e => throw e
  | inr c => modify (store placement_ptr c);; ret placement_ptr
  end.

(** [emplace_back<Derived>(args...)]: [derived] is [get_type_ops<Derived>()]
    and [ctor] the outcome of [Derived(args...)]. *)
Definition emplace_back (derived : type_operations)
    (ctor : std_exception + list byte) : M poly_vector nat :=
  v ← get;
  if Capacity <=? size_ v then
    throw (raised (out_of_range
      "poly_vector::emplace_back() - capacity exceeded"%string))
  else
    new_obj ← construct_at (size_ v) ctor;
    modify (set_slot (size_ v) {| ptr := Some new_obj; ops := Some derived |});;
    modify (λ v, set_size (S (size_ v)) v);;
    modify (λ v, set_cache (ptr_cache_ v) false v);;
    update_capabilities;;
    ret new_obj.

(** [emplace<Derived>(pos, args...)]; an iterator is its distance from
    [begin()]. *)
Definition emplace (pos : nat) (derived : type_operations)
    (ctor : std_exception + list byte) : M poly_vector nat :=
  update_ptr_cache;;
  let index := pos in
  v ← get;
  if size_ v <? index then
    throw (raised (out_of_range
      "poly_vector::emplace() - invalid position"%string))
  else if Capacity <=? size_ v then
    throw (raised (out_of_range
      "poly_vector::emplace() - capacity exceeded"%string))
  else
    (if index <? size_ v then shift_right index 1 else ret tt);;
    new_obj ← construct_at index ctor;
    modify (set_slot index {| ptr := Some new_obj; ops := Some derived |});;
    modify (λ v, set_size (S (size_ v)) v);;
    modify (λ v, set_cache (ptr_cache_ v) false v);;
    update_capabilities;;
    update_ptr_cache;;
    ret index.

Definition pop_back : M poly_vector unit :=
  v ← get;
  if size_ v =? 0 then
    throw (raised (out_of_range
      "poly_vector::pop_back() - vector is empty"%string))
  else
    modify (λ v, set_size (size_ v - 1) v);;
    v ← get;
    destroy_at (size_ v);;
    modify (λ v, set_cache (ptr_cache_ v) false v);;
    update_capabilities.

(** [erase(first, last)] *)
Definition erase (first last : nat) : M poly_vector nat :=
  update_ptr_cache;;
  let first_index := first in
  let last_index := last in
  v ← get;
  if (last_index <? first_index) || (size_ v <? last_index) then
    throw (raised (out_of_range
      "poly_vector::erase() - invalid range"%string))
  else
    let count := last_index - first_index in
    if count =? 0 then
      update_ptr_cache;; ret first_index
    else if (last_index <? size_ v) && negb (can_move_ v) then
      throw (raised (runtime_error
        "poly_vector::erase() - cannot shift elements: contained types are neither movable nor copyable. Use pop_back() to remove elements from the end."%string))
    else
      for_each (seq first_index count) destroy_at;;
      (if last_index <? size_ v then shift_left last_index count
       else ret tt);;
      modify (λ v, set_size (size_ v - count) v);;
      modify (λ v, set_cache (ptr_cache_ v) false v);;
      update_capabilities;;
      update_ptr_cache;;
      ret first_index.

(** [erase(pos)] *)
Definition erase_at (pos : nat) : M poly_vector nat :=
  update_ptr_cache;;
  v ← get;
  if size_ v <=? pos then
    throw (raised (out_of_range
      "poly_vector::erase() - invalid position"%string))
  else erase pos (pos + 1).

Definition clear : M poly_vector unit :=
  v ← get;
  for_each (seq 0 (size_ v)) destroy_at;;
  modify (set_size 0);;
  modify (set_flags false true);;
  modify (λ v, set_cache (ptr_cache_ v) false v).

(** The body of the growing loop of [resize]:
    [slots_[size_].ptr = nullptr; ++size_;] *)
Definition grow_step : M poly_vector unit :=
  modify (λ v, set_slot (size_ v)
                 {| ptr := None; ops := ops (slot v (size_ v)) |} v);;
  modify (λ v, set_size (S (size_ v)) v).

Definition resize (new_size : nat) : M poly_vector unit :=
  v ← get;
  if Capacity <? new_size then
    throw (raised (out_of_range
      "poly_vector::resize() - exceeds capacity"%string))
  else
    while_loop (size_ v) (λ v, new_size <? size_ v) pop_back;;
    while_loop new_size (λ v, size_ v <? new_size) grow_step;;
    modify (λ v, set_cache (ptr_cache_ v) false v).

(** [front()] and [back()] return the stored [Base*]. *)
Definition front : M poly_vector (option nat) :=
  v ← get;
  if size_ v =? 0 then
    throw (raised (out_of_range
      "poly_vector::front() - vector is empty"%string))
  else ret (ptr (slot v 0)).

Definition back : M poly_vector (option nat) :=
  v ← get;
  if size_ v =? 0 then
    throw (raised (out_of_range
      "poly_vector::back() - vector is empty"%string))
  else ret (ptr (slot v (size_ v - 1))).

(** The body of the loop of [copy_from]. *)
Definition copy_from_step (i : nat) : M (poly_vector * poly_vector) unit :=
  '(this, other) ← get;
  match occupied (slot other i) with
  | Some (_, o) =>
      let dst := get_storage_slot i in
      let src := get_storage_slot i in
      match safe_copy_construct (load this dst) (load other src) o with
      | inl e => throw e
      | inr c =>
          on_this (modify (store dst c));;
          on_this (modify (set_slot i {| ptr := Some dst;
                                         ops := ops (slot other i) |}))
      end
  | None => ret tt
  end.

(** [copy_from(other)], on the pair [(this, other)]. *)
Definition copy_from : M (poly_vector * poly_vector) unit :=
  '(_, other) ← get;
  on_this (modify (set_size (size_ other)));;
  '(this, _) ← get;
  for_each (seq 0 (size_ this)) copy_from_step;;
  '(_, other) ← get;
  on_this (modify (set_flags (can_copy_ other) (can_move_ other)));;
  on_this (modify (λ v, set_cache (ptr_cache_ v) false v)).

(** The body of the loop of [move_from]. *)
Definition move_from_step (i : nat) : M (poly_vector * poly_vector) unit :=
  '(this, other) ← get;
  match occupied (slot other i) with
  | Some (_, o) =>
      let dst := get_storage_slot i in
      let src := get_storage_slot i in
      match safe_move_construct (load this dst) (load other src) o with
      | inl e => throw e
      | inr (d, s) =>
          on_this (modify (store dst d));;
          on_other (modify (store src s));;
          on_this (modify (set_slot i {| ptr := Some dst;
                                         ops := ops (slot other i) |}));;
          on_other (destroy_at i)
      end
  | None => ret tt
  end.

(** [move_from(std::move(other))], on the pair [(this, other)]. *)
Definition move_from : M (poly_vector * poly_vector) unit :=
  noexcept (
    '(_, other) ← get;
    on_this (modify (set_size (size_ other)));;
    '(this, _) ← get;
    for_each (seq 0 (size_ this)) move_from_step;;
    '(_, other) ← get;
    on_this (modify (set_flags (can_copy_ other) (can_move_ other)));;
    on_other (modify (set_size 0));;
    on_this (modify (λ v, set_cache (ptr_cache_ v) false v))).

Definition NotCopyable : exn :=
  raised (logic_error
    "Cannot copy poly_vector: contains non-copyable types"%string).

(** [poly_vector(const poly_vector& other)]: the pair starts with
    [this] default-initialised. *)
Definition copy_constructor : M (poly_vector * poly_vector) unit :=
  '(_, other) ← get;
  if negb (can_copy_ other) then throw NotCopyable
  else copy_from.

(** [poly_vector(poly_vector&& other) noexcept] *)
Definition move_constructor : M (poly_vector * poly_vector) unit :=
  noexcept move_from.

(** [operator=(const poly_vector& other)] with [this != &other]. *)
Definition copy_assignment : M (poly_vector * poly_vector) unit :=
  '(_, other) ← get;
  if negb (can_copy_ other) then throw NotCopyable
  else on_this clear;; copy_from.

(** [operator=(const poly_vector& other)] with [this == &other]. *)
Definition copy_assignment_self : M poly_vector unit :=
  v ← get;
  if negb (can_copy_ v) then throw NotCopyable
  else ret tt.

(** [operator=(poly_vector&& other) noexcept] with [this != &other]. *)
Definition move_assignment : M (poly_vector * poly_vector) unit :=
  noexcept (on_this clear;; move_from).

(** [operator=(poly_vector&& other) noexcept] with [this == &other]. *)
Definition move_assignment_self : M poly_vector unit := ret tt.

Definition is_copyable (v : poly_vector) : bool := can_copy_ v.
Definition is_movable (v : poly_vector) : bool := can_move_ v.

(** [push_back(value)], by copy or by move: [value] stands for the
    outcome of the copy or move constructor of [Derived]. *)
Definition push_back (derived : type_operations)
    (value : std_exception + list byte) : M poly_vector unit :=
  emplace_back derived value;; ret tt.

(** [at(index)] returns the stored [Base*]. *)
Definition at_ (index : nat) : M poly_vector (option nat) :=
  v ← get;
  if size_ v <=? index then
    throw (raised (out_of_range
      "poly_vector::at() - index out of bounds"%string))
  else ret (ptr (slot v index)).

(** [data()]: the call refreshes the pointer cache and returns
    [ptr_cache_.data()]; the result is the array behind that pointer. *)
Definition data : M poly_vector (list (option nat)) :=
  update_ptr_cache;;
  v ← get;
  ret (ptr_cache_ v).

(** [begin()] and [end()], as distances from [ptr_cache_.data()]. *)
Definition begin_ : M poly_vector nat :=
  update_ptr_cache;; ret 0.

Definition end_ : M poly_vector nat :=
  update_ptr_cache;;
  v ← get;
  ret (0 + size_ v).

(** [reserve(new_cap)] and [shrink_to_fit()] *)
Definition reserve (new_cap : nat) : M poly_vector unit :=
  if Capacity <? new_cap then
    throw (raised (length_error
      "poly_vector::reserve() - exceeds fixed capacity"%string))
  else ret tt.

Definition shrink_to_fit : M poly_vector unit := ret tt.
End poly_vector.
End PolyVector.

(** ** The fixed-slot container [poly_array] *)

Module PolyArray.
Section poly_array.
(** The template parameters [N] and [SlotSize]. *)
Variables N SlotSize : nat.

Record poly_array : Type := {
  storage_ : list cell;
  slots_ : list slot_info;
  can_copy_ : bool;
  can_move_ : bool;
  ptr_cache_ : list (option nat);
  cache_valid_ : bool
}.

(** The state built by the default member initialisers. *)
Definition default_constructed : poly_array :=
  {| storage_ := replicate N (replicate SlotSize "000"%byte);
     slots_ := replicate N empty_slot;
     can_copy_ := false;
     can_move_ := true;
     ptr_cache_ := replicate N None;
     cache_valid_ := false |}.

Definition set_storage (f : list cell → list cell) (a : poly_array) :=
  {| storage_ := f (storage_ a); slots_ := slots_ a;
     can_copy_ := can_copy_ a; can_move_ := can_move_ a;
     ptr_cache_ := ptr_cache_ a; cache_valid_ := cache_valid_ a |}.
Definition set_slots (f : list slot_info → list slot_info) (a : poly_array) :=
  {| storage_ := storage_ a; slots_ := f (slots_ a);
     can_copy_ := can_copy_ a; can_move_ := can_move_ a;
     ptr_cache_ := ptr_cache_ a; cache_valid_ := cache_valid_ a |}.
Definition set_flags (c m : bool) (a : poly_array) :=
  {| storage_ := storage_ a; slots_ := slots_ a;
     can_copy_ := c; can_move_ := m;
     ptr_cache_ := ptr_cache_ a; cache_valid_ := cache_valid_ a |}.
Definition set_cache (c : list (option nat)) (b : bool) (a : poly_array) :=
  {| storage_ := storage_ a; slots_ := slots_ a;
     can_copy_ := can_copy_ a; can_move_ := can_move_ a;
     ptr_cache_ := c; cache_valid_ := b |}.

Definition slot (a : poly_array) (i : nat) : slot_info :=
  default empty_slot (slots_ a !! i).
Definition load (a : poly_array) (p : nat) : cell :=
  default [] (storage_ a !! p).
Definition store (p : nat) (c : cell) : poly_array → poly_array :=
  set_storage (<[p := c]>).
Definition set_slot (i : nat) (s : slot_info) : poly_array → poly_array :=
  set_slots (<[i := s]>).

Definition get_storage_slot (index : nat) : nat := index.

Definition invalidate_cache : M poly_array unit :=
  modify (λ a, set_cache (ptr_cache_ a) false a).

(** The call [safe_destroy(p, o)] on a slot of this container. *)
Definition destroy_object (p : nat) (o : type_operations) : M poly_array unit :=
  match destroy o with
  | Some _ => emit (ev_destroy self p)
  | None => ret tt
  end;;
  modify (λ a, store p (safe_destroy (load a p) o) a).

Definition destroy_at (index : nat) : M poly_array unit :=
  a ← get;
  match occupied (slot a index) with
  | Some (p, o) =>
      destroy_object p o;;
      modify (set_slot index empty_slot)
  | None => ret tt
  end.

(** [for (const auto& slot : slots_)] *)
Definition update_capabilities : M poly_array unit :=
  modify (λ a,
    let '(c, m) := capabilities (slots_ a) in
    set_flags c m a).

(** [emplace<Derived>(index, args...)] *)
Definition emplace (index : nat) (derived : type_operations)
    (ctor : std_exception + list byte) : M poly_array nat :=
  if N <=? index then
    throw (raised (out_of_range
      ("poly_array::emplace(" +:+ pretty index +:+ ") out of bounds")%string))
  else
    a ← get;
    match ptr (slot a index) with
    | Some _ => destroy_at index
    | None => ret tt
    end;;
    a ← get;
    let placement_ptr := get_storage_slot index in
    match placement_new (load a placement_ptr) ctor with
    | inl e => throw e
    | inr c =>
        modify (store placement_ptr c);;
        let new_obj := placement_ptr in
        modify (set_slot index {| ptr := Some new_obj; ops := Some derived |});;
        update_capabilities;;
        invalidate_cache;;
        ret new_obj
    end.

(** The body of the loop of [clear]:
    [if (slots_[i].ptr != nullptr) destroy_at(i);] *)
Definition clear_step (i : nat) : M poly_array unit :=
  a ← get;
  match ptr (slot a i) with
  | Some _ => destroy_at i
  | None => ret tt
  end.

Definition clear : M poly_array unit :=
  for_each (seq 0 N) clear_step;;
  modify (set_flags false true);;
  invalidate_cache.

(** [at(index)] returns the stored [Base*]. *)
Definition at_ (index : nat) : M poly_array (option nat) :=
  if N <=? index then
    throw (raised (out_of_range
      ("poly_array::at(" +:+ pretty index +:+ ") out of bounds")%string))
  else a ← get; ret (ptr (slot a index)).

(** The body of the loop of [copy_from]. *)
Definition copy_from_step (i : nat) : M (poly_array * poly_array) unit :=
  '(this, other) ← get;
  match occupied (slot other i) with
  | Some (_, o) =>
      let dst := get_storage_slot i in
      let src := get_storage_slot i in
      match safe_copy_construct (load this dst) (load other src) o with
      | inl e => throw e
      | inr c =>
          on_this (modify (store dst c));;
          on_this (modify (set_slot i {| ptr := Some dst;
                                         ops := ops (slot other i) |}))
      end
  | None => ret tt
  end.

(** [copy_from(other)], on the pair [(this, other)]. *)
Definition copy_from : M (poly_array * poly_array) unit :=
  for_each (seq 0 N) copy_from_step;;
  '(_, other) ← get;
  on_this (modify (set_flags (can_copy_ other) (can_move_ other))).

(** The body of the loop of [move_from]. *)
Definition move_from_step (i : nat) : M (poly_array * poly_array) unit :=
  '(this, other) ← get;
  match occupied (slot other i) with
  | Some (_, o) =>
      let dst := get_storage_slot i in
      let src := get_storage_slot i in
      match safe_move_construct (load this dst) (load other src) o with
      | inl e => throw e
      | inr (d, s) =>
          on_this (modify (store dst d));;
          on_other (modify (store src s));;
          on_this (modify (set_slot i {| ptr := Some dst;
                                         ops := ops (slot other i) |}));;
          on_other (destroy_at i)
      end
  | None => ret tt
  end.

(** [move_from(std::move(other))], on the pair [(this, other)]. *)
Definition move_from : M (poly_array * poly_array) unit :=
  noexcept (
    for_each (seq 0 N) move_from_step;;
    '(_, other) ← get;
    on_this (modify (set_flags (can_copy_ other) (can_move_ other)))).

Definition NotCopyable : exn :=
  raised (logic_error
    "Cannot copy poly_array: contains non-copyable types"%string).

(** [poly_array(const poly_array& other)]: the pair starts with [this]
    default-initialised. *)
Definition copy_constructor : M (poly_array * poly_array) unit :=
  '(_, other) ← get;
  if negb (can_copy_ other) then throw NotCopyable
  else copy_from.

(** [poly_array(poly_array&& other) noexcept] *)
Definition move_constructor : M (poly_array * poly_array) unit :=
  noexcept move_from.

(** [operator=(const poly_array& other)] with [this != &other]. *)
Definition copy_assignment : M (poly_array * poly_array) unit :=
  '(_, other) ← get;
  if negb (can_copy_ other) then throw NotCopyable
  else on_this clear;; copy_from.

(** [operator=(const poly_array& other)] with [this == &other]. *)
Definition copy_assignment_self : M poly_array unit :=
  a ← get;
  if negb (can_copy_ a) then throw NotCopyable
  else ret tt.

(** [operator=(poly_array&& other) noexcept] with [this != &other]. *)
Definition move_assignment : M (poly_array * poly_array) unit :=
  noexcept (on_this clear;; move_from).

(** [operator=(poly_array&& other) noexcept] with [this == &other]. *)
Definition move_assignment_self : M poly_array unit := ret tt.

Definition is_copyable (a : poly_array) : bool := can_copy_ a.
Definition is_movable (a : poly_array) : bool := can_move_ a.

(** [update_ptr_cache()]: [ptr_cache_[i] = slots_[i].ptr] for every
    [i < N], unless the cache is valid. *)
Definition update_ptr_cache : M poly_array unit :=
  modify (λ a,
    if cache_valid_ a then a
    else set_cache ((λ i, ptr (slot a i)) <$> seq 0 N) true a).

(** [data()]: the array behind the returned [ptr_cache_.data()]. *)
Definition data : M poly_array (list (option nat)) :=
  update_ptr_cache;;
  a ← get;
  ret (ptr_cache_ a).
End poly_array.
End PolyArray.

(** ** The operation-table factory *)

(** What [type_operations_factory<T>::create()] reads off a concrete type
    [T]: its layout, its destructor and the four expressions the factory
    tests with the standard traits.  [move_ctor] is what
    [T(std::move(x))] does where [std::is_move_constructible_v<T>] holds,
    and [None] where it does not; so is [move_assignment_op] for
    [std::is_move_assignable_v<T>], and [copy_ctor] and
    [copy_assignment_op] for the copy traits.  A type that declares no
    move constructor of its own and has a copy constructor is
    move-constructible, [T(std::move(x))] being a call of the copy
    constructor; [None] is a move constructor that is deleted or
    inaccessible.  Each of the four may throw; the destructor does not
    (a destructor is [noexcept] unless declared otherwise). *)
Record cpp_type : Type := {
  sizeof : nat;
  alignof : nat;
  trivially_copyable : bool;
  dtor : cell → cell;
  move_ctor : option (cell → cell → std_exception + cell * cell);
  move_assignment_op : option (cell → cell → std_exception + cell * cell);
  copy_ctor : option (cell → cell → std_exception + cell);
  copy_assignment_op : option (cell → cell → std_exception + cell)
}.

(** A lambda declared [noexcept] around a body that may throw, as the
    factory's lambdas for the move operations are: an exception
    that reaches the end of the lambda calls [std::terminate]. *)
Definition noexcept_call (f : cell → cell → std_exception + cell * cell)
  : cell → cell → option (cell * cell) :=
  λ dst src,
    match f dst src with
    | inl _ => None
    | inr r => Some r
    end.

(** [type_operations_factory<T>::create()] *)
Definition create (T : cpp_type) : type_operations :=
  {| size := sizeof T;
     alignment := alignof T;
     is_trivially_copyable := trivially_copyable T;
     is_copy_constructible := bool_decide (is_Some (copy_ctor T));
     is_move_constructible := bool_decide (is_Some (move_ctor T));
     destroy := Some (dtor T);
     move_construct := noexcept_call <$> move_ctor T;
     move_assign := noexcept_call <$> move_assignment_op T;
     copy_construct := copy_ctor T;
     copy_assign := copy_assignment_op T |}.

(** [get_type_ops<T>()] *)
Definition get_type_ops (T : cpp_type) : type_operations := create T.

(** ** Slot layout *)

(** [std::max({x...})] over the values of a parameter pack (the pack of a
    [type_list] in use is not empty). *)
Definition std_max (l : list nat) : nat :=
  match l with
  | [] => 0
  | x :: l' => foldl Nat.max x l'
  end.

(** [max_size_v<type_list<Types...>>] and
    [max_alignment_v<type_list<Types...>>] *)
Definition max_size (Types : list cpp_type) : nat :=
  std_max (sizeof <$> Types).

Definition max_alignment (Types : list cpp_type) : nat :=
  std_max (alignof <$> Types).

(** [slot_config<TypeList>]: the pair [(size, alignment)]. *)
Definition slot_config (Types : list cpp_type) : nat * nat :=
  (max_size Types, max_alignment Types).

(** The concept [FitsInSlot<Derived, Base, SlotSize, Alignment>];
    [derived_from] is the answer of [std::derived_from<Derived, Base>]. *)
Definition FitsInSlot (derived_from : bool) (Derived : cpp_type)
    (SlotSize Alignment : nat) : bool :=
  derived_from && (sizeof Derived <=? SlotSize)
  && (alignof Derived <=? Alignment).

(** ** Observations used by the properties *)

(** The object representation of an occupant: the first [size] bytes of
    its slot. *)
Definition repr (o : type_operations) (c : cell) : list byte :=
  take (size o) c.

(** An occupant's relocation is faithful when [safe_move_construct]
    succeeds on it and the relocated object has the representation of the
    original. *)
Definition faithful_move (o : type_operations) : Prop :=
  ∀ dst src, size o ≤ length src →
    ∃ dst' src', safe_move_construct dst src o = inr (dst', src')
                 ∧ size o ≤ length dst'
                 ∧ repr o dst' = repr o src.

(** Some relocation strategy of [safe_move_construct] applies. *)
Definition relocatable (o : type_operations) : bool :=
  is_trivially_copyable o
  || bool_decide (is_Some (move_construct o))
  || bool_decide (is_Some (copy_construct o)).

(** The variant stored in a slot has copy support. *)
Definition slot_copyable (s : slot_info) : Prop :=
  ∀ p o, occupied s = Some (p, o) → is_copy_constructible o = true.

Definition slot_movable (s : slot_info) : Prop :=
  ∀ p o, occupied s = Some (p, o) → is_move_constructible o = true.

(** Sample variants, after the types of the test suite: a two-byte
    copyable and movable widget ([Label]), a move-only one ([Canvas]),
    one with every copy and move operation deleted ([ImmovableDerived1]),
    one whose move operations alone are deleted ([CopyOnly]), and a
    trivially copyable plain struct.  Their move operations copy the bytes
    and do not throw. *)
Definition bitwise_move (n : nat) (dst src : cell) : cell * cell :=
  (memcpy dst src n, src).
Definition bitwise_copy (n : nat) (dst src : cell) : std_exception + cell :=
  inr (memcpy dst src n).
Definition nothrow (f : cell → cell → cell * cell)
  : cell → cell → std_exception + cell * cell :=
  λ dst src, inr (f dst src).

Definition Label : cpp_type :=
  {| sizeof := 2; alignof := 1; trivially_copyable := false;
     dtor := λ c, c;
     move_ctor := Some (nothrow (bitwise_move 2));
     move_assignment_op := Some (nothrow (bitwise_move 2));
     copy_ctor := Some (bitwise_copy 2);
     copy_assignment_op := Some (bitwise_copy 2) |}.

Definition Canvas : cpp_type :=
  {| sizeof := 2; alignof := 1; trivially_copyable := false;
     dtor := λ c, c;
     move_ctor := Some (nothrow (bitwise_move 2));
     move_assignment_op := Some (nothrow (bitwise_move 2));
     copy_ctor := None;
     copy_assignment_op := None |}.

Definition ImmovableDerived1 : cpp_type :=
  {| sizeof := 2; alignof := 1; trivially_copyable := false;
     dtor := λ c, c;
     move_ctor := None; move_assignment_op := None;
     copy_ctor := None; copy_assignment_op := None |}.

Definition CopyOnly : cpp_type :=
  {| sizeof := 2; alignof := 1; trivially_copyable := false;
     dtor := λ c, c;
     move_ctor := None; move_assignment_op := None;
     copy_ctor := Some (bitwise_copy 2);
     copy_assignment_op := Some (bitwise_copy 2) |}.

Definition PlainStruct : cpp_type :=
  {| sizeof := 2; alignof := 1; trivially_copyable := true;
     dtor := λ c, c;
     move_ctor := Some (nothrow (λ dst src, ([], [])));
     move_assignment_op := None;
     copy_ctor := Some (bitwise_copy 2);
     copy_assignment_op := None |}.

(** The final state of a computation, dropping trace and result. *)
Definition final {S A} (r : S * list event * (exn + A)) : S := r.1.1.
Definition trace {S A} (r : S * list event * (exn + A)) : list event := r.1.2.
Definition outcome {S A} (r : S * list event * (exn + A)) : exn + A := r.2.

(** ** Vocabulary of the properties *)

(** The error names of the specification, as the header throws them. *)
Definition NoRelocationAvailable : exn :=
  raised (runtime_error "No move or copy constructor available"%string).

Definition ShiftUnsupported : exn :=
  raised (runtime_error
    "poly_vector::erase() - cannot shift elements: contained types are neither movable nor copyable. Use pop_back() to remove elements from the end."%string).

Definition CapacityExceeded_resize : exn :=
  raised (out_of_range "poly_vector::resize() - exceeds capacity"%string).

(** The occupant seen through logical index [i] of a vector: its operation
    table and its object representation, [None] for a null element. *)
Definition vec_occupant (v : PolyVector.poly_vector) (i : nat)
  : option (type_operations * list byte) :=
  match occupied (PolyVector.slot v i) with
  | Some (p, o) => Some (o, repr o (PolyVector.load v p))
  | None => None
  end.

Definition vec_occupants (v : PolyVector.poly_vector)
  : list (option (type_operations * list byte)) :=
  vec_occupant v <$> seq 0 (PolyVector.size_ v).

(** A slot is either empty or holds an object that lives in the slot's
    own storage and fits it. *)
Definition vec_slot_ok (v : PolyVector.poly_vector) (i : nat) : Prop :=
  PolyVector.slot v i = empty_slot
  ∨ ∃ o, PolyVector.slot v i = {| ptr := Some i; ops := Some o |}
         ∧ size o ≤ length (PolyVector.load v i).

(** The structural invariant of a vector of capacity [Capacity]: every
    slot is well formed and the slots from [size] on are empty. *)
Definition vec_inv (Capacity : nat) (v : PolyVector.poly_vector) : Prop :=
  length (PolyVector.slots_ v) = Capacity
  ∧ length (PolyVector.storage_ v) = Capacity
  ∧ PolyVector.size_ v ≤ Capacity
  ∧ (∀ i, vec_slot_ok v i)
  ∧ (∀ i, PolyVector.size_ v ≤ i → PolyVector.slot v i = empty_slot).

(** The occupant of slot [i] of [v], if any, is found relocated in slot
    [j] of [v']. *)
Definition vec_moved (v : PolyVector.poly_vector) (i : nat)
    (v' : PolyVector.poly_vector) (j : nat) : Prop :=
  match occupied (PolyVector.slot v i) with
  | Some (_, o) =>
      PolyVector.slot v' j = {| ptr := Some j; ops := Some o |}
      ∧ size o ≤ length (PolyVector.load v' j)
      ∧ repr o (PolyVector.load v' j) = repr o (PolyVector.load v i)
  | None => PolyVector.slot v' j = empty_slot
  end.

(** The invariant of the data model: slots [[0, size)] are all occupied
    and logical index [i] maps to slot [i]. *)
Definition vec_dense (v : PolyVector.poly_vector) : Prop :=
  ∀ i, i < PolyVector.size_ v →
    ∃ o, occupied (PolyVector.slot v i) = Some (i, o).

(** Every occupant of the logical range lives in the storage of its own
    slot, as [emplace_back], [emplace] and the shifts place it. *)
Definition vec_own_slots (v : PolyVector.poly_vector) : Prop :=
  ∀ i p o, i < PolyVector.size_ v →
    occupied (PolyVector.slot v i) = Some (p, o) → p = i.

(** Every occupant of the logical range [[from, size)] relocates
    faithfully. *)
Definition vec_faithful_from (from : nat) (v : PolyVector.poly_vector) : Prop :=
  ∀ i p o, from ≤ i → occupied (PolyVector.slot v i) = Some (p, o) →
    faithful_move o.

(** The destructor calls owed to a list of slots, in order. *)
Definition destroy_calls (sl : list slot_info) : list event :=
  sl ≫= λ s,
    match occupied s with
    | Some (p, o) =>
        match destroy o with
        | Some _ => [ev_destroy self p]
        | None => []
        end
    | None => []
    end.

(** [k] calls of [pop_back()] in a row. *)
Fixpoint pop_back_n (k : nat) : M PolyVector.poly_vector unit :=
  match k with
  | 0 => ret tt
  | S k' => PolyVector.pop_back;; pop_back_n k'
  end.

(** The occupant of position [i] of an array. *)
Definition arr_occupant (a : PolyArray.poly_array) (i : nat)
  : option (type_operations * list byte) :=
  match occupied (PolyArray.slot a i) with
  | Some (p, o) => Some (o, repr o (PolyArray.load a p))
  | None => None
  end.

Definition arr_slot_ok (a : PolyArray.poly_array) (i : nat) : Prop :=
  PolyArray.slot a i = empty_slot
  ∨ ∃ o, PolyArray.slot a i = {| ptr := Some i; ops := Some o |}
         ∧ size o ≤ length (PolyArray.load a i).

(** The structural invariant of an array of [N] slots. *)
Definition arr_inv (N : nat) (a : PolyArray.poly_array) : Prop :=
  length (PolyArray.slots_ a) = N
  ∧ length (PolyArray.storage_ a) = N
  ∧ ∀ i, arr_slot_ok a i.

Definition arr_faithful (a : PolyArray.poly_array) : Prop :=
  ∀ i p o, occupied (PolyArray.slot a i) = Some (p, o) → faithful_move o.

(** Sample containers of the test suite, built through the public
    operations: capacity 3, slots of 2 bytes. *)
Definition obj (n : nat) : list byte := [default "000"%byte (Byte.of_nat n); "000"%byte].

Definition vec_of (l : list (cpp_type * nat)) : PolyVector.poly_vector :=
  foldl (λ v '(T, n),
           final (PolyVector.emplace_back 3 (get_type_ops T) (inr (obj n)) v))
        (PolyVector.default_constructed 3 2) l.

Definition arr_of (l : list (nat * cpp_type * nat)) : PolyArray.poly_array :=
  foldl (λ a '(i, T, n),
           final (PolyArray.emplace 3 i (get_type_ops T) (inr (obj n)) a))
        (PolyArray.default_constructed 3 2) l.

(** The copy flag says exactly whether every occupied slot has copy
    support. *)
Definition vec_copy_exact (v : PolyVector.poly_vector) : Prop :=
  PolyVector.is_copyable v = true
  ↔ ∀ i, i < PolyVector.size_ v → slot_copyable (PolyVector.slot v i).

Definition arr_copy_exact (a : PolyArray.poly_array) : Prop :=
  PolyArray.is_copyable a = true
  ↔ ∀ i, slot_copyable (PolyArray.slot a i).

(** Some occupied slot holds a variant without copy support. *)
Definition vec_has_noncopyable (v : PolyVector.poly_vector) : Prop :=
  ∃ i p o, i < PolyVector.size_ v
           ∧ occupied (PolyVector.slot v i) = Some (p, o)
           ∧ is_copy_constructible o = false.

Definition arr_has_noncopyable (a : PolyArray.poly_array) : Prop :=
  ∃ i p o, occupied (PolyArray.slot a i) = Some (p, o)
           ∧ is_copy_constructible o = false.

(** What no step of a shift changes: the extent of the two arrays, the
    size, the flags and the pointer cache. *)
Definition vec_frame (v v' : PolyVector.poly_vector) : Prop :=
  length (PolyVector.slots_ v') = length (PolyVector.slots_ v)
  ∧ length (PolyVector.storage_ v') = length (PolyVector.storage_ v)
  ∧ PolyVector.size_ v' = PolyVector.size_ v
  ∧ PolyVector.can_copy_ v' = PolyVector.can_copy_ v
  ∧ PolyVector.can_move_ v' = PolyVector.can_move_ v
  ∧ PolyVector.ptr_cache_ v' = PolyVector.ptr_cache_ v
  ∧ PolyVector.cache_valid_ v' = PolyVector.cache_valid_ v.

(** The array counterparts of [vec_moved] and [vec_frame]. *)
Definition arr_moved (a : PolyArray.poly_array) (i : nat)
    (a' : PolyArray.poly_array) (j : nat) : Prop :=
  match occupied (PolyArray.slot a i) with
  | Some (_, o) =>
      PolyArray.slot a' j = {| ptr := Some j; ops := Some o |}
      ∧ size o ≤ length (PolyArray.load a' j)
      ∧ repr o (PolyArray.load a' j) = repr o (PolyArray.load a i)
  | None => PolyArray.slot a' j = empty_slot
  end.

Definition arr_frame (a a' : PolyArray.poly_array) : Prop :=
  length (PolyArray.slots_ a') = length (PolyArray.slots_ a)
  ∧ length (PolyArray.storage_ a') = length (PolyArray.storage_ a)
  ∧ PolyArray.can_copy_ a' = PolyArray.can_copy_ a
  ∧ PolyArray.can_move_ a' = PolyArray.can_move_ a.

(** An occupant's copy is faithful when [safe_copy_construct] succeeds
    on it and the copy has the representation of the original. *)
Definition faithful_copy (o : type_operations) : Prop :=
  ∀ dst src, size o ≤ length src →
    ∃ dst', safe_copy_construct dst src o = inr dst'
            ∧ size o ≤ length dst'
            ∧ repr o dst' = repr o src.

Definition vec_copy_faithful (v : PolyVector.poly_vector) : Prop :=
  ∀ i p o, occupied (PolyVector.slot v i) = Some (p, o) → faithful_copy o.

Definition arr_copy_faithful (a : PolyArray.poly_array) : Prop :=
  ∀ i p o, occupied (PolyArray.slot a i) = Some (p, o) → faithful_copy o.

(** Every operation table stored in the container was built by
    [get_type_ops], the only way the public interface stores one. *)
Definition vec_factory_built (v : PolyVector.poly_vector) : Prop :=
  ∀ i p o, occupied (PolyVector.slot v i) = Some (p, o) →
    ∃ T, o = get_type_ops T.

(** The move flag is not stale: when set, every occupant of the logical
    range is move-constructible. *)
Definition vec_move_sound (v : PolyVector.poly_vector) : Prop :=
  PolyVector.is_movable v = true →
  ∀ i, i < PolyVector.size_ v → slot_movable (PolyVector.slot v i).

(** The move flag says exactly whether every occupied slot is
    move-constructible. *)
Definition vec_move_exact (v : PolyVector.poly_vector) : Prop :=
  PolyVector.is_movable v = true
  ↔ ∀ i, i < PolyVector.size_ v → slot_movable (PolyVector.slot v i).

Definition arr_move_exact (a : PolyArray.poly_array) : Prop :=
  PolyArray.is_movable a = true
  ↔ ∀ i, slot_movable (PolyArray.slot a i).

(** What an iteration from [begin()] to [end()] must see: the pointer
    array [l] holds, at every logical index, the pointer of the slot, and
    a null pointer from [size] on. *)
Definition vec_cache_fresh (Capacity : nat) (v : PolyVector.poly_vector)
    (l : list (option nat)) : Prop :=
  length l = Capacity
  ∧ ∀ i, i < Capacity →
      l !! i = Some (if decide (i < PolyVector.size_ v)
                     then ptr (PolyVector.slot v i) else None).

Definition arr_cache_fresh (N : nat) (a : PolyArray.poly_array)
    (l : list (option nat)) : Prop :=
  length l = N ∧ ∀ i, i < N → l !! i = Some (ptr (PolyArray.slot a i)).

(** The cache is either marked invalid or agrees with the slots. *)
Definition vec_cache_ok (Capacity : nat) (v : PolyVector.poly_vector) : Prop :=
  PolyVector.cache_valid_ v = true →
  vec_cache_fresh Capacity v (PolyVector.ptr_cache_ v).

Definition arr_cache_ok (N : nat) (a : PolyArray.poly_array) : Prop :=
  PolyArray.cache_valid_ a = true →
  arr_cache_fresh N a (PolyArray.ptr_cache_ a).

(** The occupants of all positions of an array, in order. *)
Definition arr_occupants (N : nat) (a : PolyArray.poly_array)
  : list (option (type_operations * list byte)) :=
  arr_occupant a <$> seq 0 N.

(** Two vectors agree on everything but the iterator pointer cache. *)
Definition vec_same_contents (v w : PolyVector.poly_vector) : Prop :=
  PolyVector.storage_ v = PolyVector.storage_ w
  ∧ PolyVector.slots_ v = PolyVector.slots_ w
  ∧ PolyVector.size_ v = PolyVector.size_ w
  ∧ PolyVector.can_copy_ v = PolyVector.can_copy_ w
  ∧ PolyVector.can_move_ v = PolyVector.can_move_ w.

(** A variant whose copy constructor throws, for the exception paths of
    a whole-container copy. *)
Definition ThrowingCopy : cpp_type :=
  {| sizeof := 2; alignof := 1; trivially_copyable := false;
     dtor := λ c, c;
     move_ctor := Some (nothrow (bitwise_move 2));
     move_assignment_op := Some (nothrow (bitwise_move 2));
     copy_ctor := Some (λ _ _, inl (runtime_error "Copy failed"%string));
     copy_assignment_op := None |}.

(** A variant whose move constructor throws. *)
Definition ThrowingMove : cpp_type :=
  {| sizeof := 2; alignof := 1; trivially_copyable := false;
     dtor := λ c, c;
     move_ctor := Some (λ _ _, inl (runtime_error "Move failed"%string));
     move_assignment_op := None;
     copy_ctor := Some (bitwise_copy 2);
     copy_assignment_op := None |}.

(** * Properties *)

(** ** The monad *)

Lemma run_bind {S A B} (m : M S A) (k : A → M S B) (s : S) :
  (m ≫= k) s =
    match m s with
    | (s1, t1, inl e) => (s1, t1, inl e)
    | (s1, t1, inr a) =>
        match k a s1 with (s2, t2, r) => (s2, t1 ++ t2, r) end
    end.
Proof. reflexivity. Qed.

Ltac munfold :=
  unfold mbind, M_bind, bind, get, modify, ret, throw, emit, noexcept,
    on_this, on_other in *.

(** ** Relocation helpers *)

(** C7. [safe_move_construct] picks its strategy in a fixed order: a
    trivially copyable variant is copied byte by byte, [size] bytes exactly
    (also when a move constructor exists); otherwise the move constructor
    is called if there is one, and the helper returns what that call
    returns (the table entry being [noexcept], a call that does not return
    has ended the program in [std::terminate]); otherwise the copy
    constructor if there is one; otherwise the call throws "No move or
    copy constructor available". *)
Theorem safe_move_construct_priority (dst src : cell) (o : type_operations) :
  (is_trivially_copyable o = true →
     safe_move_construct dst src o = inr (memcpy dst src (size o), src)
     ∧ (size o ≤ length src → size o ≤ length dst →
          take (size o) (memcpy dst src (size o)) = take (size o) src
          ∧ drop (size o) (memcpy dst src (size o)) = drop (size o) dst
          ∧ length (memcpy dst src (size o)) = length dst))
  ∧ (is_trivially_copyable o = false →
     ∀ f, move_construct o = Some f →
       safe_move_construct dst src o =
         match f dst src with
         | Some r => inr r
         | None => inl std_terminate
         end)
  ∧ (is_trivially_copyable o = false → move_construct o = None →
     ∀ g, copy_construct o = Some g →
       safe_move_construct dst src o =
         match g dst src with
         | inl e => inl (propagated e)
         | inr dst' => inr (dst', src)
         end)
  ∧ (is_trivially_copyable o = false → move_construct o = None →
     copy_construct o = None →
       safe_move_construct dst src o = inl NoRelocationAvailable).
Proof.
  unfold safe_move_construct, memcpy.
  split; [|split; [|split]].
  - intros ->. split; [done|]. intros Hs Hd. split; [|split].
    + rewrite take_app_le by (rewrite length_take; lia).
      rewrite take_take. f_equal. lia.
    + rewrite drop_app_ge by (rewrite length_take; lia).
      rewrite length_take, drop_drop. f_equal. lia.
    + rewrite length_app, length_take, length_drop. lia.
  - by intros -> f ->.
  - by intros -> -> g ->.
  - by intros -> -> ->.
Qed.

Lemma safe_move_construct_priority_witness :
  safe_move_construct (obj 1) (obj 2) (get_type_ops PlainStruct)
    = inr (obj 2, obj 2)
  ∧ safe_move_construct (obj 1) (obj 2) (get_type_ops Label)
    = inr (bitwise_move 2 (obj 1) (obj 2))
  ∧ safe_move_construct (obj 1) (obj 2) (get_type_ops CopyOnly)
    = inr (obj 2, obj 2)
  ∧ safe_move_construct (obj 1) (obj 2) (get_type_ops ImmovableDerived1)
    = inl NoRelocationAvailable.
Proof.
  pose proof (safe_move_construct_priority (obj 1) (obj 2)
                (get_type_ops PlainStruct)) as (H1 & _).
  pose proof (safe_move_construct_priority (obj 1) (obj 2)
                (get_type_ops Label)) as (_ & H2 & _).
  pose proof (safe_move_construct_priority (obj 1) (obj 2)
                (get_type_ops CopyOnly)) as (_ & _ & H3 & _).
  pose proof (safe_move_construct_priority (obj 1) (obj 2)
                (get_type_ops ImmovableDerived1)) as (_ & _ & _ & H4).
  split; [exact (proj1 (H1 eq_refl))|].
  split; [exact (H2 eq_refl _ eq_refl)|].
  split; [exact (H3 eq_refl eq_refl _ eq_refl)|].
  exact (H4 eq_refl eq_refl eq_refl).
Defined.

Lemma for_each_app {S} (l1 l2 : list nat) (body : nat → M S unit) (s : S) :
  for_each (l1 ++ l2) body s = (for_each l1 body;; for_each l2 body) s.
Proof.
  revert s. induction l1 as [|i l1 IH]; intros s; simpl.
  - rewrite run_bind. simpl. by destruct (for_each l2 body s) as [[? ?] ?].
  - rewrite !run_bind. destruct (body i s) as [[s1 t1] [e|[]]]; [done|].
    rewrite IH, run_bind.
    destruct (for_each l1 body s1) as [[s2 t2] [e|[]]]; [done|].
    destruct (for_each l2 body s2) as [[s3 t3] r].
    by rewrite app_assoc.
Qed.

(** ** Runs of the primitive steps of [poly_vector] *)

Section vector_steps.
Import PolyVector.

Lemma update_capabilities_run (v : poly_vector) :
  update_capabilities v =
    (set_flags (capabilities (slot v <$> seq 0 (size_ v))).1
               (capabilities (slot v <$> seq 0 (size_ v))).2 v, [], inr tt).
Proof.
  unfold update_capabilities, modify.
  by destruct (capabilities _) as [c m].
Qed.

Lemma destroy_at_run (v : poly_vector) (i : nat) :
  destroy_at i v =
    match occupied (slot v i) with
    | Some (p, o) =>
        (set_slot i empty_slot (store p (safe_destroy (load v p) o) v),
         match destroy o with Some _ => [ev_destroy self p] | None => [] end,
         inr tt)
    | None => (v, [], inr tt)
    end.
Proof.
  unfold destroy_at, destroy_object. munfold.
  destruct (occupied (slot v i)) as [[p o]|]; [|done].
  by destruct (destroy o).
Qed.

Lemma slot_set_slot (v : poly_vector) (i j : nat) (s : slot_info) :
  slot (set_slot i s v) j =
    if decide (i = j ∧ i < length (slots_ v)) then s else slot v j.
Proof.
  unfold slot, set_slot, set_slots; simpl.
  destruct (decide (i = j ∧ i < length (slots_ v))) as [[-> Hlt]|Hn].
  - by rewrite list_lookup_insert_eq.
  - destruct (decide (i = j)) as [->|Hne].
    + rewrite list_insert_ge by lia. done.
    + by rewrite list_lookup_insert_ne.
Qed.

Lemma load_store (v : poly_vector) (p q : nat) (c : cell) :
  load (store p c v) q =
    if decide (p = q ∧ p < length (storage_ v)) then c else load v q.
Proof.
  unfold load, store, set_storage; simpl.
  destruct (decide (p = q ∧ p < length (storage_ v))) as [[-> Hlt]|Hn].
  - by rewrite list_lookup_insert_eq.
  - destruct (decide (p = q)) as [->|Hne].
    + rewrite list_insert_ge by lia. done.
    + by rewrite list_lookup_insert_ne.
Qed.

Lemma slot_ge (v : poly_vector) (i : nat) :
  length (slots_ v) ≤ i → slot v i = empty_slot.
Proof. intros H. unfold slot. by rewrite lookup_ge_None_2. Qed.

Lemma length_slots_set_slot (v : poly_vector) (i : nat) (s : slot_info) :
  length (slots_ (set_slot i s v)) = length (slots_ v).
Proof. apply length_insert. Qed.

Lemma length_storage_store (v : poly_vector) (p : nat) (c : cell) :
  length (storage_ (store p c v)) = length (storage_ v).
Proof. apply length_insert. Qed.

Lemma pop_back_run (v : poly_vector) :
  size_ v ≠ 0 →
  ∃ v' t, pop_back v = (v', t, inr tt) ∧ size_ v' = size_ v - 1.
Proof.
  intros Hne. unfold pop_back.
  rewrite run_bind. unfold get at 1.
  destruct (Nat.eqb_spec (size_ v) 0) as [|_]; [done|].
  rewrite run_bind. unfold modify at 1.
  rewrite run_bind. unfold get at 1.
  rewrite run_bind, destroy_at_run.
  set (v1 := set_size (size_ v - 1) v).
  assert (∃ v2 t2, match occupied (slot v1 (size_ v1)) with
            | Some (p, o) =>
                (set_slot (size_ v1) empty_slot
                   (store p (safe_destroy (load v1 p) o) v1),
                 match destroy o with
                 | Some _ => [ev_destroy self p] | None => [] end, inr tt)
            | None => (v1, [], inr tt)
            end = (v2, t2, inr tt) ∧ size_ v2 = size_ v - 1) as (v2 & t2 & -> & Hs).
  { destruct (occupied _) as [[p o]|]; eauto. }
  rewrite run_bind. unfold modify at 1.
  rewrite update_capabilities_run. simpl.
  eexists _, _. split; [reflexivity|]. done.
Qed.

(** ** Empty-container edge cases *)

(** C10. On a vector with [size() == 0], each of [pop_back()], [front()]
    and [back()] throws [std::out_of_range] and leaves every member of the
    container as it was; no destructor runs. *)
Theorem empty_vector_access_checked (v : poly_vector) :
  size_ v = 0 →
  pop_back v =
    (v, [], inl (raised (out_of_range
                   "poly_vector::pop_back() - vector is empty"%string)))
  ∧ front v =
    (v, [], inl (raised (out_of_range
                   "poly_vector::front() - vector is empty"%string)))
  ∧ back v =
    (v, [], inl (raised (out_of_range
                   "poly_vector::back() - vector is empty"%string))).
Proof.
  intros H. unfold pop_back, front, back. munfold. by rewrite H.
Qed.

End vector_steps.

Lemma empty_vector_access_checked_witness :
  outcome (PolyVector.pop_back (PolyVector.default_constructed 3 2))
    = inl (raised (out_of_range
             "poly_vector::pop_back() - vector is empty"%string))
  ∧ final (PolyVector.front (vec_of []))
    = PolyVector.default_constructed 3 2.
Proof.
  pose proof (empty_vector_access_checked
                (PolyVector.default_constructed 3 2) eq_refl)
    as (H1 & H2 & _).
  split.
  - by rewrite H1.
  - unfold vec_of; simpl. by rewrite H2.
Defined.

(** ** [resize] *)

Section vector_resize.
Import PolyVector.

Lemma pop_back_n_run (k : nat) (v : poly_vector) :
  k ≤ size_ v →
  ∃ v' t, pop_back_n k v = (v', t, inr tt) ∧ size_ v' = size_ v - k.
Proof.
  revert v. induction k as [|k IH]; intros v Hk; simpl.
  - exists v, []. split; [done|lia].
  - rewrite run_bind.
    destruct (pop_back_run v) as (v1 & t1 & -> & Hs1); [lia|].
    destruct (IH v1) as (v2 & t2 & -> & Hs2); [lia|].
    eexists _, _. split; [reflexivity|lia].
Qed.

Lemma shrink_loop (n fuel : nat) (v : poly_vector) :
  size_ v - n ≤ fuel →
  while_loop fuel (λ v, n <? size_ v) pop_back v
  = pop_back_n (size_ v - n) v.
Proof.
  revert v. induction fuel as [|fuel IH]; intros v Hf.
  - replace (size_ v - n) with 0 by lia. done.
  - cbn [while_loop]. rewrite run_bind. unfold get at 1.
    destruct (Nat.ltb_spec n (size_ v)) as [Hlt|Hge].
    + replace (size_ v - n) with (S (size_ v - 1 - n)) by lia.
      cbn [pop_back_n]. rewrite !run_bind.
      destruct (pop_back_run v) as (v1 & t1 & -> & Hs1); [lia|].
      cbv beta iota. rewrite IH by lia. rewrite Hs1.
      by destruct (pop_back_n _ v1) as [[? ?] ?].
    + replace (size_ v - n) with 0 by lia. done.
Qed.

Lemma grow_loop (n fuel : nat) (v : poly_vector) :
  n - size_ v ≤ fuel → size_ v ≤ n →
  ∃ v', while_loop fuel (λ v, size_ v <? n) grow_step v = (v', [], inr tt)
    ∧ size_ v' = n
    ∧ storage_ v' = storage_ v
    ∧ can_copy_ v' = can_copy_ v ∧ can_move_ v' = can_move_ v
    ∧ ptr_cache_ v' = ptr_cache_ v ∧ cache_valid_ v' = cache_valid_ v
    ∧ (∀ i, size_ v ≤ i < n → ptr (slot v' i) = None)
    ∧ (∀ i, i < size_ v ∨ n ≤ i → slot v' i = slot v i).
Proof.
  revert v. induction fuel as [|fuel IH]; intros v Hf Hle.
  - exists v. simpl. assert (size_ v = n) by lia.
    repeat split; try done; intros; lia.
  - cbn [while_loop]. rewrite run_bind. unfold get at 1.
    destruct (Nat.ltb_spec (size_ v) n) as [Hlt|Hge].
    + rewrite run_bind. unfold grow_step at 1. munfold. simpl.
      set (v1 := set_size _ _).
      destruct (IH v1) as (v' & -> & Hs & Hst & Hc & Hm & Hpc & Hcv & Hnew & Hold);
        [simpl; lia|simpl; lia|].
      exists v'. simpl in *.
      repeat split; try done.
      * intros i Hi. destruct (decide (i = size_ v)) as [->|Hne].
        -- rewrite Hold by lia. unfold v1.
           change (slot (set_size ?k ?w) ?j) with (slot w j).
           rewrite slot_set_slot. case_decide; [done|].
           rewrite slot_ge by lia. done.
        -- apply Hnew. lia.
      * intros i Hi. rewrite Hold by lia. unfold v1.
        change (slot (set_size ?k ?w) ?j) with (slot w j).
        rewrite slot_set_slot. case_decide; [lia|done].
    + assert (size_ v = n) by lia.
      exists v. repeat split; try done; intros; lia.
Qed.

End vector_resize.

(** ** Capability flags *)

Lemma bind_inr {S A B} (m : M S A) (k : A → M S B) (s s' : S)
    (t : list event) (b : B) :
  (m ≫= k) s = (s', t, inr b) →
  ∃ s1 t1 a t2, m s = (s1, t1, inr a) ∧ k a s1 = (s', t2, inr b)
                ∧ t = t1 ++ t2.
Proof.
  rewrite run_bind.
  destruct (m s) as [[s1 t1] [e|a]]; [done|].
  destruct (k a s1) as [[s2 t2] r] eqn:Hk.
  intros Heq. injection Heq as -> <- ->. by exists s1, t1, a, t2.
Qed.

Lemma capability_fold (l : list slot_info) (c m h : bool) :
  (c = false → h = true) → (m = false → h = true) →
  ∃ c' m' h', foldl capability_step (c, m, h) l = (c', m', h')
    ∧ (c' = false → h' = true) ∧ (m' = false → h' = true)
    ∧ (c' = true ↔ c = true ∧ Forall slot_copyable l)
    ∧ (m' = true ↔ m = true ∧ Forall slot_movable l).
Proof.
  revert c m h. induction l as [|s l IH]; intros c m h Hc Hm.
  - exists c, m, h. simpl.
    do 3 (split; [done|]).
    split; (split; [intros; split; [done|constructor] | by intros [? _]]).
  - simpl. unfold capability_step at 2.
    destruct (occupied s) as [[p o]|] eqn:Hocc.
    + destruct (IH (if is_copy_constructible o then c else false)
                   (if is_move_constructible o then m else false) true)
        as (c' & m' & h' & -> & Hc' & Hm' & Hci & Hmi); [done|done|].
      exists c', m', h'. split; [done|]. split; [done|]. split; [done|].
      split.
      * rewrite Hci. split.
        -- intros [Hco Hl]. destruct (is_copy_constructible o) eqn:Hcc; [|done].
           split; [done|]. constructor; [|done].
           intros p' o' Hs. congruence.
        -- intros [-> Hl]. inversion Hl as [|? ? Hs Hl']; subst.
           rewrite (Hs p o Hocc). done.
      * rewrite Hmi. split.
        -- intros [Hmo Hl]. destruct (is_move_constructible o) eqn:Hmc; [|done].
           split; [done|]. constructor; [|done].
           intros p' o' Hs. congruence.
        -- intros [-> Hl]. inversion Hl as [|? ? Hs Hl']; subst.
           rewrite (Hs p o Hocc). done.
    + destruct (IH c m h) as (c' & m' & h' & -> & Hc' & Hm' & Hci & Hmi);
        [done|done|].
      exists c', m', h'. split; [done|]. split; [done|]. split; [done|].
      assert (slot_copyable s ∧ slot_movable s) as [Hsc Hsm].
      { split; intros p o Hs; congruence. }
      rewrite Hci, Hmi. split; split; intros [? Hl]; split; try done;
        try (by constructor); by inversion Hl.
Qed.

Lemma capabilities_spec (l : list slot_info) :
  ((capabilities l).1 = true ↔ Forall slot_copyable l)
  ∧ ((capabilities l).2 = true ↔ Forall slot_movable l).
Proof.
  unfold capabilities.
  destruct (capability_fold l true true false)
    as (c & m & h & -> & Hc & Hm & Hci & Hmi); [done|done|].
  simpl. split.
  - destruct c, h; simpl; try tauto; naive_solver.
  - destruct m, h; simpl; try tauto; naive_solver.
Qed.

Ltac peel H :=
  let s := fresh "s" in
  let t := fresh "t" in
  let a := fresh "a" in
  let t' := fresh "t" in
  let Hstep := fresh "Hstep" in
  apply bind_inr in H as (s & t & a & t' & Hstep & H & ->).

Section vector_flags.
Import PolyVector.
Variable Capacity : nat.

Lemma vec_copy_exact_update (v v' : poly_vector) (t : list event) :
  update_capabilities v = (v', t, inr tt) → vec_copy_exact v'.
Proof.
  rewrite update_capabilities_run. intros [= <- _].
  unfold vec_copy_exact, is_copyable. simpl.
  rewrite (proj1 (capabilities_spec _)), Forall_fmap, Forall_seq.
  change (slot (set_flags ?c ?m ?w)) with (slot w).
  split; intros H i; [intros Hi|intros [_ Hi]]; apply H; simpl in *; lia.
Qed.

Lemma vec_copy_exact_tail {A} (v v' : poly_vector) (t : list event) (x r : A) :
  (update_capabilities;; update_ptr_cache Capacity;; ret x) v = (v', t, inr r) →
  vec_copy_exact v'.
Proof.
  intros H. peel H. peel H. destruct a.
  apply vec_copy_exact_update in Hstep.
  unfold ret in H. injection H as <- _ _.
  unfold update_ptr_cache, modify in Hstep0.
  injection Hstep0 as <- _. by destruct (cache_valid_ s).
Qed.

Lemma emplace_back_copy_exact derived ctor (v v' : poly_vector) t r :
  emplace_back Capacity derived ctor v = (v', t, inr r) → vec_copy_exact v'.
Proof.
  unfold emplace_back. intros H. peel H.
  destruct (Capacity <=? size_ a); [done|].
  do 5 peel H. unfold ret in H. injection H as <- _ _.
  destruct a4. by apply vec_copy_exact_update in Hstep4.
Qed.

Lemma emplace_copy_exact pos derived ctor (v v' : poly_vector) t r :
  emplace Capacity pos derived ctor v = (v', t, inr r) → vec_copy_exact v'.
Proof.
  unfold emplace. intros H. do 2 peel H.
  destruct (size_ a0 <? pos); [done|].
  destruct (Capacity <=? size_ a0); [done|].
  do 5 peel H. by apply vec_copy_exact_tail in H.
Qed.

Lemma pop_back_copy_exact (v v' : poly_vector) t r :
  pop_back v = (v', t, inr r) → vec_copy_exact v'.
Proof.
  unfold pop_back. intros H. peel H.
  destruct (size_ a =? 0); [done|].
  do 4 peel H. destruct r. by apply vec_copy_exact_update in H.
Qed.

Lemma erase_copy_exact first last (v v' : poly_vector) t r :
  first < last →
  erase Capacity first last v = (v', t, inr r) → vec_copy_exact v'.
Proof.
  unfold erase. intros Hlt H. do 2 peel H.
  destruct (_ || _); [done|].
  destruct (Nat.eqb_spec (last - first) 0); [lia|].
  destruct (_ && _); [done|].
  do 4 peel H. by apply vec_copy_exact_tail in H.
Qed.

Lemma destroy_loop_run (l : list nat) (w : poly_vector) :
  ∃ w' t', for_each l destroy_at w = (w', t', inr tt).
Proof.
  revert w. induction l as [|i l IH]; intros w; simpl; [by eexists _, _|].
  rewrite run_bind, destroy_at_run.
  destruct (occupied (slot w i)) as [[p o]|].
  - destruct (IH (set_slot i empty_slot
                    (store p (safe_destroy (load w p) o) w)))
      as (w' & t' & ->).
    by eexists _, _.
  - destruct (IH w) as (w' & t' & ->). by eexists _, _.
Qed.

Lemma clear_run (v : poly_vector) :
  ∃ w t, for_each (seq 0 (size_ v)) destroy_at v = (w, t, inr tt)
    ∧ clear v = (set_cache (ptr_cache_ w) false
                   (set_flags false true (set_size 0 w)), t, inr tt).
Proof.
  destruct (destroy_loop_run (seq 0 (size_ v)) v) as (w & t & Hloop).
  exists w, t. split; [done|].
  unfold clear. munfold. rewrite Hloop. simpl. by rewrite !app_nil_r.
Qed.

End vector_flags.

Lemma vec_move_exact_update (v v' : PolyVector.poly_vector) (t : list event) :
  PolyVector.update_capabilities v = (v', t, inr tt) → vec_move_exact v'.
Proof.
  rewrite update_capabilities_run. intros [= <- _].
  unfold vec_move_exact, PolyVector.is_movable. simpl.
  rewrite (proj2 (capabilities_spec _)), Forall_fmap, Forall_seq.
  change (PolyVector.slot (PolyVector.set_flags ?c ?m ?w))
    with (PolyVector.slot w).
  split; intros H i; [intros Hi|intros [_ Hi]]; apply H; simpl in *; lia.
Qed.

Lemma pop_back_move_exact (v v' : PolyVector.poly_vector) t r :
  PolyVector.pop_back v = (v', t, inr r) → vec_move_exact v'.
Proof.
  unfold PolyVector.pop_back. intros H. peel H.
  destruct (PolyVector.size_ a =? 0); [done|].
  do 4 peel H. destruct r. by apply vec_move_exact_update in H.
Qed.

(** ** Runs of the primitive steps of [poly_array] *)

Section array_steps.
Import PolyArray.
Variable N : nat.

Lemma arr_update_capabilities_run (a : poly_array) :
  update_capabilities a =
    (set_flags (capabilities (slots_ a)).1 (capabilities (slots_ a)).2 a,
     [], inr tt).
Proof.
  unfold update_capabilities, modify.
  by destruct (capabilities _) as [c m].
Qed.

Lemma arr_destroy_at_run (a : poly_array) (i : nat) :
  destroy_at i a =
    match occupied (slot a i) with
    | Some (p, o) =>
        (set_slot i empty_slot (store p (safe_destroy (load a p) o) a),
         match destroy o with Some _ => [ev_destroy self p] | None => [] end,
         inr tt)
    | None => (a, [], inr tt)
    end.
Proof.
  unfold destroy_at, destroy_object. munfold.
  destruct (occupied (slot a i)) as [[p o]|]; [|done].
  by destruct (destroy o).
Qed.

Lemma arr_slot_set_slot (a : poly_array) (i j : nat) (s : slot_info) :
  slot (set_slot i s a) j =
    if decide (i = j ∧ i < length (slots_ a)) then s else slot a j.
Proof.
  unfold slot, set_slot, set_slots; simpl.
  destruct (decide (i = j ∧ i < length (slots_ a))) as [[-> Hlt]|Hn].
  - by rewrite list_lookup_insert_eq.
  - destruct (decide (i = j)) as [->|Hne].
    + rewrite list_insert_ge by lia. done.
    + by rewrite list_lookup_insert_ne.
Qed.

Lemma arr_load_store (a : poly_array) (p q : nat) (c : cell) :
  load (store p c a) q =
    if decide (p = q ∧ p < length (storage_ a)) then c else load a q.
Proof.
  unfold load, store, set_storage; simpl.
  destruct (decide (p = q ∧ p < length (storage_ a))) as [[-> Hlt]|Hn].
  - by rewrite list_lookup_insert_eq.
  - destruct (decide (p = q)) as [->|Hne].
    + rewrite list_insert_ge by lia. done.
    + by rewrite list_lookup_insert_ne.
Qed.

Lemma arr_slot_ge (a : poly_array) (i : nat) :
  length (slots_ a) ≤ i → slot a i = empty_slot.
Proof. intros H. unfold slot. by rewrite lookup_ge_None_2. Qed.

Lemma arr_copy_exact_update (a a' : poly_array) (t : list event) :
  update_capabilities a = (a', t, inr tt) → arr_copy_exact a'.
Proof.
  rewrite arr_update_capabilities_run. intros [= <- _].
  unfold arr_copy_exact, is_copyable. simpl.
  rewrite (proj1 (capabilities_spec _)), Forall_lookup.
  change (slot (set_flags ?c ?m ?w)) with (slot w).
  split.
  - intros H i. unfold slot. destruct (slots_ a !! i) as [s|] eqn:Hs.
    + by apply (H i).
    + intros p o Ho. done.
  - intros H i s Hs. specialize (H i). unfold slot in H. by rewrite Hs in H.
Qed.

Lemma arr_emplace_copy_exact index derived ctor (a a' : poly_array) t r :
  emplace N index derived ctor a = (a', t, inr r) → arr_copy_exact a'.
Proof.
  unfold emplace. intros H.
  destruct (N <=? index); [done|].
  do 3 peel H.
  destruct (placement_new _ _); [done|].
  do 4 peel H. unfold ret in H. injection H as <- _ _.
  destruct a5. apply arr_copy_exact_update in Hstep4.
  unfold invalidate_cache, modify in Hstep5. by injection Hstep5 as <- _.
Qed.

Lemma arr_clear_step_run (a : poly_array) (i : nat) :
  clear_step i a =
    match occupied (slot a i) with
    | Some (p, o) =>
        (set_slot i empty_slot (store p (safe_destroy (load a p) o) a),
         match destroy o with Some _ => [ev_destroy self p] | None => [] end,
         inr tt)
    | None => (a, [], inr tt)
    end.
Proof.
  unfold clear_step. rewrite run_bind. unfold get at 1.
  destruct (ptr (slot a i)) eqn:Hp.
  - rewrite arr_destroy_at_run.
    by destruct (occupied (slot a i)) as [[p o]|].
  - unfold occupied. by rewrite Hp.
Qed.

Lemma arr_clear_run (a : poly_array) :
  ∃ w t,
    for_each (seq 0 N) clear_step a = (w, t, inr tt)
    ∧ clear N a = (set_cache (ptr_cache_ w) false (set_flags false true w),
                   t, inr tt).
Proof.
  assert (∀ l w, ∃ w' t', for_each l clear_step w = (w', t', inr tt))
    as Hloop.
  { induction l as [|i l IH]; intros w; simpl; [by eexists _, _|].
    rewrite !run_bind, arr_clear_step_run.
    destruct (occupied (slot w i)) as [[p o]|].
    - destruct (IH (set_slot i empty_slot
                      (store p (safe_destroy (load w p) o) w)))
        as (w' & t' & ->).
      by eexists _, _.
    - destruct (IH w) as (w' & t' & ->). by eexists _, _. }
  destruct (Hloop (seq 0 N) a) as (w & t & Hl).
  exists w, t. split; [done|].
  unfold clear, invalidate_cache. munfold. rewrite Hl. simpl.
  by rewrite !app_nil_r.
Qed.

End array_steps.

(** ** Shifting *)

Lemma for_each_preserves {S} (R : S → S → Prop) (body : nat → M S unit)
    (l : list nat) :
  (∀ s, R s s) → (∀ s1 s2 s3, R s1 s2 → R s2 s3 → R s1 s3) →
  (∀ i s s' t r, body i s = (s', t, r) → R s s') →
  ∀ s s' t r, for_each l body s = (s', t, r) → R s s'.
Proof.
  intros Hrefl Htrans Hbody.
  induction l as [|i l IH]; intros s s' t r; simpl.
  - unfold ret. intros [= <- _ _]. apply Hrefl.
  - rewrite run_bind. destruct (body i s) as [[s1 t1] [e|[]]] eqn:Hb.
    + intros [= <- _ _]. by eapply Hbody.
    + destruct (for_each l body s1) as [[s2 t2] r2] eqn:Hl.
      intros [= <- _ _]. eapply Htrans; [by eapply Hbody|by eapply IH].
Qed.

Section vector_shift.
Import PolyVector.

Lemma vec_frame_refl (v : poly_vector) : vec_frame v v.
Proof. by repeat split. Qed.

Lemma vec_frame_trans (v1 v2 v3 : poly_vector) :
  vec_frame v1 v2 → vec_frame v2 v3 → vec_frame v1 v3.
Proof.
  unfold vec_frame. intros (?&?&?&?&?&?&?) (?&?&?&?&?&?&?).
  repeat split; congruence.
Qed.

Lemma set_slot_twice (dst src : nat) (o : type_operations) (v : poly_vector) :
  ops (slot v src) = Some o →
  set_slot dst {| ptr := Some dst;
                  ops := ops (slot (set_slot dst (slot v src) v) dst) |}
    (set_slot dst (slot v src) v)
  = set_slot dst {| ptr := Some dst; ops := Some o |} v.
Proof.
  intros Ho. unfold set_slot at 1 3 4, set_slots. simpl. f_equal.
  rewrite list_insert_insert_eq.
  destruct (decide (dst < length (slots_ v))) as [Hlt|Hge].
  - rewrite slot_set_slot. case_decide; [|lia]. by rewrite Ho.
  - rewrite !list_insert_ge by lia. done.
Qed.

Lemma relocate_run (src dst : nat) (v : poly_vector) :
  relocate src dst v =
    match occupied (slot v src) with
    | None => (v, [], inr tt)
    | Some (_, o) =>
        match safe_move_construct (load v dst) (load v src) o with
        | inl e => (v, [], inl e)
        | inr (d, s) =>
            let v1 := store dst d (store src s v) in
            let v2 := set_slot dst {| ptr := Some dst; ops := Some o |} v1 in
            let v3 := store src (safe_destroy (load v2 src) o) v2 in
            (set_slot src empty_slot v3,
             match destroy o with
             | Some _ => [ev_destroy self src] | None => [] end,
             inr tt)
        end
    end.
Proof.
  unfold relocate, move_object, destroy_object, get_storage_slot. munfold.
  destruct (occupied (slot v src)) as [[p o]|] eqn:Ho; [|done].
  destruct (safe_move_construct _ _ o) as [e|[d s]]; [done|].
  simpl.
  rewrite (set_slot_twice dst src o).
  - destruct (destroy o); simpl; by rewrite ?app_nil_r.
  - repeat change (slot (store ?a ?b ?w)) with (slot w).
    unfold occupied in Ho. destruct (ptr (slot v src)); [|done].
    destruct (ops (slot v src)); [|done]. by injection Ho as _ ->.
Qed.

Lemma relocate_frame (src dst : nat) (v v' : poly_vector) t r :
  relocate src dst v = (v', t, r) → vec_frame v v'.
Proof.
  rewrite relocate_run.
  destruct (occupied (slot v src)) as [[p o]|].
  - destruct (safe_move_construct _ _ o) as [e|[d s]].
    + intros [= <- _ _]. apply vec_frame_refl.
    + intros [= <- _ _]. unfold vec_frame; simpl.
      rewrite !length_insert. done.
  - intros [= <- _ _]. apply vec_frame_refl.
Qed.

Lemma shift_right_frame (start count : nat) (v v' : poly_vector) t r :
  shift_right start count v = (v', t, r) → vec_frame v v'.
Proof.
  unfold shift_right. rewrite run_bind. unfold get at 1.
  destruct (for_each _ _ v) as [[v1 t1] r1] eqn:Hl.
  assert (vec_frame v v1) as Hf.
  { eapply (for_each_preserves vec_frame); [apply vec_frame_refl
      |apply vec_frame_trans| |exact Hl].
    intros i s s' t' r'. apply relocate_frame. }
  destruct r1; intros [= <- _ _]; exact Hf.
Qed.

Lemma shift_left_frame (start count : nat) (v v' : poly_vector) t r :
  shift_left start count v = (v', t, r) → vec_frame v v'.
Proof.
  unfold shift_left. rewrite run_bind. unfold get at 1.
  destruct (for_each _ _ v) as [[v1 t1] r1] eqn:Hl.
  assert (vec_frame v v1) as Hf.
  { eapply (for_each_preserves vec_frame); [apply vec_frame_refl
      |apply vec_frame_trans| |exact Hl].
    intros i s s' t' r'. apply relocate_frame. }
  destruct r1; intros [= <- _ _]; exact Hf.
Qed.

End vector_shift.

Ltac vec_simpl :=
  repeat first
    [ progress change (PolyVector.slot (PolyVector.store ?a ?b ?w))
        with (PolyVector.slot w)
    | progress change (PolyVector.load (PolyVector.set_slot ?a ?b ?w))
        with (PolyVector.load w)
    | progress change (PolyVector.slots_ (PolyVector.store ?a ?b ?w))
        with (PolyVector.slots_ w)
    | progress change (PolyVector.storage_ (PolyVector.set_slot ?a ?b ?w))
        with (PolyVector.storage_ w)
    | rewrite length_slots_set_slot
    | rewrite length_storage_store
    | rewrite slot_set_slot
    | rewrite load_store ].

Section vector_shift_loops.
Import PolyVector.

Lemma vec_moved_ext (v w : poly_vector) (i : nat) (v' w' : poly_vector) (j : nat) :
  slot w i = slot v i → load w i = load v i →
  slot w' j = slot v' j → load w' j = load v' j →
  vec_moved v i v' j → vec_moved w i w' j.
Proof.
  unfold vec_moved. intros -> -> -> ->. done.
Qed.

Lemma vec_slot_ok_ext (v w : poly_vector) (i : nat) :
  slot w i = slot v i → load w i = load v i →
  vec_slot_ok v i → vec_slot_ok w i.
Proof. unfold vec_slot_ok. intros -> ->. done. Qed.

Lemma vec_occupant_moved (v v' : poly_vector) (i j : nat) :
  vec_slot_ok v i → vec_moved v i v' j →
  vec_occupant v' j = vec_occupant v i.
Proof.
  unfold vec_moved, vec_occupant.
  intros [He|(o & Ho & Hfit)].
  - rewrite He. simpl. by intros ->.
  - rewrite Ho. simpl. intros (-> & _ & Hr). simpl. by rewrite Hr.
Qed.

(** One relocation step between two distinct slots. *)
Lemma relocate_step (src dst : nat) (v : poly_vector) :
  src ≠ dst →
  src < length (slots_ v) → dst < length (slots_ v) →
  src < length (storage_ v) → dst < length (storage_ v) →
  vec_slot_ok v src →
  slot v dst = empty_slot →
  (∀ p o, occupied (slot v src) = Some (p, o) → faithful_move o) →
  ∃ v' t, relocate src dst v = (v', t, inr tt)
    ∧ vec_frame v v'
    ∧ (∀ i, i ≠ src → i ≠ dst → slot v' i = slot v i ∧ load v' i = load v i)
    ∧ slot v' src = empty_slot
    ∧ vec_moved v src v' dst.
Proof.
  intros Hne Hs Hd Hs' Hd' Hok Hempty Hfaith.
  rewrite relocate_run. unfold vec_moved.
  destruct Hok as [He|(o & Ho & Hfit)].
  - rewrite He. simpl. exists v, []. split; [done|].
    split; [apply vec_frame_refl|]. done.
  - rewrite Ho. simpl.
    assert (occupied (slot v src) = Some (src, o)) as Hocc by (by rewrite Ho).
    destruct (Hfaith src o Hocc (load v dst) (load v src) Hfit)
      as (d & s & -> & Hfd & Hrepr).
    eexists _, _. split; [reflexivity|].
    split; [|split; [|split; [|split; [|split]]]].
    + unfold vec_frame; simpl. by rewrite !length_insert.
    + intros i Hi1 Hi2. vec_simpl. repeat (case_decide; [lia|]). done.
    + vec_simpl. case_decide; [done|lia].
    + vec_simpl. case_decide; [lia|]. case_decide; [done|lia].
    + vec_simpl. case_decide; [lia|]. case_decide; [done|lia].
    + vec_simpl. case_decide; [lia|]. case_decide; [done|lia].
Qed.

(** The loop of [shift_right(a, 1)] over the [k] slots from [a] on. *)
Lemma shift_right_loop (a k : nat) (v : poly_vector) :
  a + k < length (slots_ v) → a + k < length (storage_ v) →
  (∀ i, vec_slot_ok v i) →
  slot v (a + k) = empty_slot →
  (∀ i p o, a ≤ i < a + k → occupied (slot v i) = Some (p, o) →
     faithful_move o) →
  ∃ v' t,
    for_each (rev (seq a k)) (λ src, relocate src (src + 1)) v
      = (v', t, inr tt)
    ∧ vec_frame v v'
    ∧ (∀ i, vec_slot_ok v' i)
    ∧ (∀ i, i < a ∨ a + k < i → slot v' i = slot v i ∧ load v' i = load v i)
    ∧ (∀ i, a ≤ i < a + k → vec_moved v i v' (i + 1))
    ∧ slot v' a = empty_slot.
Proof.
  revert v. induction k as [|k IH]; intros v Hls Hlc Hok Hlast Hfaith.
  - exists v, []. simpl. split; [done|]. split; [apply vec_frame_refl|].
    split; [done|]. split; [done|]. split; [intros; lia|].
    by rewrite Nat.add_0_r in Hlast.
  - rewrite seq_S, rev_unit. cbn [for_each]. rewrite run_bind.
    destruct (relocate_step (a + k) (a + k + 1) v)
      as (v1 & t1 & -> & Hfr1 & Hun1 & Hsrc1 & Hmv1); try lia; try done.
    { by replace (a + k + 1) with (a + S k) by lia. }
    { intros p o. apply Hfaith. lia. }
    assert (∀ i, vec_slot_ok v1 i) as Hok1.
    { intros i. destruct (decide (i = a + k)) as [->|Hn1].
      - by left.
      - destruct (decide (i = a + k + 1)) as [->|Hn2].
        + unfold vec_moved in Hmv1.
          destruct (occupied (slot v (a + k))) as [[p o]|].
          * destruct Hmv1 as (Hs & Hfit & _). right. by exists o.
          * by left.
        + destruct (Hun1 i) as [Hs Hl]; [done|done|].
          by apply (vec_slot_ok_ext v). }
    destruct Hfr1 as (Hl1 & Hl1' & Hrest1).
    destruct (IH v1) as (v' & t' & -> & Hfr & Hok' & Hun & Hmv & Hsrc);
      [lia|lia|done|done| |].
    { intros i p o Hi. destruct (Hun1 i) as [-> _]; [lia|lia|].
      apply Hfaith. lia. }
    eexists _, _. split; [reflexivity|].
    split; [by apply (vec_frame_trans v v1 v')|].
    split; [done|]. split; [|split; [|done]].
    + intros i Hi. destruct (Hun i) as [-> ->]; [lia|]. apply Hun1; lia.
    + intros i Hi. destruct (decide (i = a + k)) as [->|Hn].
      * destruct (Hun (a + k + 1)) as [Hs Hl]; [lia|].
        by apply (vec_moved_ext v v (a + k) v1 v' (a + k + 1)).
      * destruct (Hun1 i) as [Hs Hl]; [lia|lia|].
        apply (vec_moved_ext v1 v i v' v' (i + 1)); try done.
        apply Hmv. lia.
Qed.

(** The loop of [shift_left(s, c)] over the [k] slots from [s] on. *)
Lemma shift_left_loop (c k s : nat) (v : poly_vector) :
  1 ≤ c → c ≤ s →
  s + k ≤ length (slots_ v) → s + k ≤ length (storage_ v) →
  (∀ i, vec_slot_ok v i) →
  (∀ i, s - c ≤ i < s → slot v i = empty_slot) →
  (∀ i p o, s ≤ i < s + k → occupied (slot v i) = Some (p, o) →
     faithful_move o) →
  ∃ v' t,
    for_each (seq s k) (λ i, relocate i (i - c)) v = (v', t, inr tt)
    ∧ vec_frame v v'
    ∧ (∀ i, vec_slot_ok v' i)
    ∧ (∀ i, i < s - c ∨ s + k ≤ i → slot v' i = slot v i ∧ load v' i = load v i)
    ∧ (∀ i, s ≤ i < s + k → vec_moved v i v' (i - c))
    ∧ (∀ i, s + k - c ≤ i < s + k → slot v' i = empty_slot).
Proof.
  revert s v. induction k as [|k IH]; intros s v Hc Hcs Hls Hlc Hok Hgap Hfaith.
  - exists v, []. simpl. split; [done|]. split; [apply vec_frame_refl|].
    split; [done|]. split; [done|]. split; [intros; lia|].
    intros i Hi. apply Hgap. lia.
  - cbn [seq for_each]. rewrite run_bind.
    destruct (relocate_step s (s - c) v)
      as (v1 & t1 & -> & Hfr1 & Hun1 & Hsrc1 & Hmv1); try lia; try done.
    { apply Hgap. lia. }
    { intros p o. apply Hfaith. lia. }
    assert (∀ i, vec_slot_ok v1 i) as Hok1.
    { intros i. destruct (decide (i = s)) as [->|Hn1].
      - by left.
      - destruct (decide (i = s - c)) as [->|Hn2].
        + unfold vec_moved in Hmv1.
          destruct (occupied (slot v s)) as [[p o]|].
          * destruct Hmv1 as (Hs & Hfit & _). right. by exists o.
          * by left.
        + destruct (Hun1 i) as [Hs Hl]; [done|done|].
          by apply (vec_slot_ok_ext v). }
    destruct Hfr1 as (Hl1 & Hl1' & Hrest1).
    destruct (IH (S s) v1) as (v' & t' & -> & Hfr & Hok' & Hun & Hmv & Hgap');
      [lia|lia|lia|lia|done| | |].
    { intros i Hi. destruct (decide (i = s)) as [->|Hn]; [done|].
      destruct (Hun1 i) as [-> _]; [lia|lia|]. apply Hgap. lia. }
    { intros i p o Hi. destruct (Hun1 i) as [-> _]; [lia|lia|].
      apply Hfaith. lia. }
    eexists _, _. split; [reflexivity|].
    split; [by apply (vec_frame_trans v v1 v')|].
    split; [done|]. split; [|split].
    + intros i Hi. destruct (Hun i) as [-> ->]; [lia|]. apply Hun1; lia.
    + intros i Hi. destruct (decide (i = s)) as [->|Hn].
      * destruct (Hun (s - c)) as [Hs Hl]; [lia|].
        by apply (vec_moved_ext v v s v1 v' (s - c)).
      * destruct (Hun1 i) as [Hs Hl]; [lia|lia|].
        apply (vec_moved_ext v1 v i v' v' (i - c)); try done.
        apply Hmv. lia.
    + intros i Hi. apply Hgap'. lia.
Qed.

End vector_shift_loops.

Section vector_insert_erase.
Import PolyVector.
Variable Capacity : nat.

Lemma update_ptr_cache_run (v : poly_vector) :
  ∃ c b, update_ptr_cache Capacity v = (set_cache c b v, [], inr tt).
Proof.
  unfold update_ptr_cache, modify. destruct (cache_valid_ v) eqn:Hc.
  - exists (ptr_cache_ v), true. rewrite <- Hc. by destruct v.
  - by eexists _, _.
Qed.

Lemma vec_occupant_ext (v w : poly_vector) (i : nat) :
  slot w i = slot v i → load w i = load v i → vec_slot_ok v i →
  vec_occupant w i = vec_occupant v i.
Proof.
  unfold vec_occupant. intros -> Hl [He|(o & Ho & _)].
  - by rewrite He.
  - rewrite Ho. simpl. by rewrite Hl.
Qed.

Lemma destroy_calls_cons (s : slot_info) (l : list slot_info) :
  destroy_calls (s :: l) = destroy_calls [s] ++ destroy_calls l.
Proof. unfold destroy_calls. simpl. by rewrite app_nil_r. Qed.

Lemma fmap_seq_ext {A} (f g : nat → A) (a k : nat) :
  (∀ i, a ≤ i < a + k → f i = g i) → f <$> seq a k = g <$> seq a k.
Proof.
  intros H. apply list_fmap_ext. intros i x Hx.
  apply lookup_seq in Hx as [-> Hi]. apply H. lia.
Qed.

(** The loop [for (i = a; i < a + k; ++i) destroy_at(i)]. *)
Lemma destroy_range (a k : nat) (v : poly_vector) :
  (∀ i, vec_slot_ok v i) →
  ∃ v' t,
    for_each (seq a k) destroy_at v = (v', t, inr tt)
    ∧ vec_frame v v'
    ∧ (∀ i, vec_slot_ok v' i)
    ∧ (∀ i, a ≤ i < a + k → slot v' i = empty_slot)
    ∧ (∀ i, ¬ (a ≤ i < a + k) → slot v' i = slot v i ∧ load v' i = load v i)
    ∧ t = destroy_calls (slot v <$> seq a k).
Proof.
  revert a v. induction k as [|k IH]; intros a v Hok.
  - exists v, []. simpl. split; [done|]. split; [apply vec_frame_refl|].
    split; [done|]. split; [intros; lia|]. done.
  - cbn [seq for_each]. rewrite run_bind, destroy_at_run.
    set (v1 := match occupied (slot v a) with
               | Some (p, o) =>
                   set_slot a empty_slot (store p (safe_destroy (load v p) o) v)
               | None => v
               end).
    assert (vec_frame v v1 ∧ slot v1 a = empty_slot
            ∧ ∀ i, i ≠ a → slot v1 i = slot v i ∧ load v1 i = load v i)
      as (Hfr1 & Ha1 & Hun1).
    { unfold v1. destruct (Hok a) as [He|(o & Ho & Hfit)].
      - rewrite He. simpl. split; [apply vec_frame_refl|]. done.
      - rewrite Ho. simpl. split; [|split].
        + unfold vec_frame; simpl. by rewrite !length_insert.
        + vec_simpl. case_decide; [done|].
          rewrite slot_ge in Ho by lia. done.
        + intros i Hi. vec_simpl. repeat (case_decide; [lia|]). done. }
    assert (∀ i, vec_slot_ok v1 i) as Hok1.
    { intros i. destruct (decide (i = a)) as [->|Hn]; [by left|].
      destruct (Hun1 i Hn) as [Hs Hl]. by apply (vec_slot_ok_ext v). }
    destruct (IH (S a) v1 Hok1) as (v' & t' & Hrun & Hfr & Hok' & Hin & Hout & Ht).
    exists v', (destroy_calls [slot v a] ++ t').
    split.
    { unfold destroy_calls at 1. simpl. rewrite app_nil_r.
      clear -Hrun. subst v1.
      destruct (occupied (slot v a)) as [[p o]|]; simpl; by rewrite Hrun. }
    split; [by apply (vec_frame_trans v v1 v')|].
    split; [done|]. split; [|split].
    + intros i Hi. destruct (decide (i = a)) as [->|Hn].
      * destruct (Hout a) as [-> _]; [lia|done].
      * apply Hin. lia.
    + intros i Hi. destruct (Hout i) as [-> ->]; [lia|]. apply Hun1. lia.
    + rewrite fmap_cons.
      rewrite (destroy_calls_cons (slot v a) (slot v <$> seq (S a) k)).
      f_equal. rewrite Ht. f_equal. apply fmap_seq_ext. intros i Hi. apply Hun1. lia.
Qed.

(** The same loop without any assumption on the slots. *)
Lemma destroy_range_any (a k : nat) (v : poly_vector) :
  ∃ v' t,
    for_each (seq a k) destroy_at v = (v', t, inr tt)
    ∧ (∀ i, a ≤ i < a + k → occupied (slot v' i) = None)
    ∧ (∀ i, ¬ (a ≤ i < a + k) → slot v' i = slot v i)
    ∧ t = destroy_calls (slot v <$> seq a k).
Proof.
  revert a v. induction k as [|k IH]; intros a v.
  - exists v, []. simpl. split; [done|]. split; [intros; lia|]. done.
  - cbn [seq for_each]. rewrite run_bind, destroy_at_run.
    set (v1 := match occupied (slot v a) with
               | Some (p, o) =>
                   set_slot a empty_slot (store p (safe_destroy (load v p) o) v)
               | None => v
               end).
    assert (occupied (slot v1 a) = None
            ∧ ∀ i, i ≠ a → slot v1 i = slot v i) as (Ha1 & Hun1).
    { unfold v1. destruct (occupied (slot v a)) as [[p o]|] eqn:Ho.
      - split.
        + vec_simpl. case_decide; [done|].
          rewrite slot_ge in Ho by lia. done.
        + intros i Hi. vec_simpl. case_decide; [lia|done].
      - done. }
    destruct (IH (S a) v1) as (v' & t' & Hrun & Hin & Hout & Ht).
    exists v', (destroy_calls [slot v a] ++ t').
    split.
    { unfold destroy_calls at 1. simpl. rewrite app_nil_r.
      clear -Hrun. subst v1.
      destruct (occupied (slot v a)) as [[p o]|]; simpl; by rewrite Hrun. }
    split; [|split].
    + intros i Hi. destruct (decide (i = a)) as [->|Hn].
      * rewrite Hout by lia. done.
      * apply Hin. lia.
    + intros i Hi. rewrite Hout by lia. apply Hun1. lia.
    + rewrite fmap_cons.
      rewrite (destroy_calls_cons (slot v a) (slot v <$> seq (S a) k)).
      f_equal. rewrite Ht. f_equal. apply fmap_seq_ext.
      intros i Hi. apply Hun1. lia.
Qed.

Lemma shift_right_if (pos : nat) (w : poly_vector) :
  pos ≤ size_ w →
  (if pos <? size_ w then shift_right pos 1 else ret tt) w
  = for_each (rev (seq pos (size_ w - pos))) (λ src, relocate src (src + 1)) w.
Proof.
  intros Hle. destruct (Nat.ltb_spec pos (size_ w)).
  - unfold shift_right. rewrite run_bind. unfold get at 1.
    by destruct (for_each _ _ w) as [[? ?] ?].
  - by replace (size_ w - pos) with 0 by lia.
Qed.

Lemma shift_left_if (last count : nat) (w : poly_vector) :
  last ≤ size_ w →
  (if last <? size_ w then shift_left last count else ret tt) w
  = for_each (seq last (size_ w - last)) (λ i, relocate i (i - count)) w.
Proof.
  intros Hle. destruct (Nat.ltb_spec last (size_ w)).
  - unfold shift_left. rewrite run_bind. unfold get at 1.
    by destruct (for_each _ _ w) as [[? ?] ?].
  - by replace (size_ w - last) with 0 by lia.
Qed.

Lemma construct_at_run (index : nat) (obj : list byte) (w : poly_vector) :
  construct_at index (inr obj) w
  = (store index (obj ++ drop (length obj) (load w index)) w, [], inr index).
Proof. done. Qed.

(** A successful [emplace] at [pos]. *)
Lemma emplace_run (pos : nat) (derived : type_operations) (obj : list byte)
    (v : poly_vector) :
  vec_inv Capacity v → size_ v < Capacity → pos ≤ size_ v →
  vec_faithful_from pos v → length obj = size derived →
  ∃ v' t,
    emplace Capacity pos derived (inr obj) v = (v', t, inr pos)
    ∧ size_ v' = S (size_ v)
    ∧ vec_inv Capacity v'
    ∧ (∀ i, i < pos → vec_occupant v' i = vec_occupant v i)
    ∧ vec_occupant v' pos = Some (derived, obj)
    ∧ (∀ i, pos ≤ i < size_ v → vec_occupant v' (S i) = vec_occupant v i).
Proof.
  intros (Hls & Hlc & Hsz & Hok & Hbeyond) Hcap Hpos Hfaith Hobj.
  unfold emplace. rewrite run_bind.
  destruct (update_ptr_cache_run v) as (c0 & b0 & ->).
  rewrite run_bind. unfold get at 1. cbv beta iota.
  change (size_ (set_cache c0 b0 v)) with (size_ v).
  destruct (Nat.ltb_spec (size_ v) pos) as [|_]; [lia|].
  destruct (Nat.leb_spec Capacity (size_ v)) as [|_]; [lia|].
  rewrite run_bind.
  assert (Hif := shift_right_if pos (set_cache c0 b0 v) Hpos).
  change (size_ (set_cache c0 b0 v)) with (size_ v) in Hif. rewrite Hif.
  destruct (shift_right_loop pos (size_ v - pos) (set_cache c0 b0 v))
    as (v1 & t1 & Hrun & Hfr & Hok1 & Hun & Hmv & Hhole).
  { simpl. lia. } { simpl. lia. } { exact Hok. }
  { apply Hbeyond. lia. }
  { intros i p o Hi. apply Hfaith. lia. }
  change (size_ (set_cache c0 b0 v)) with (size_ v) in Hrun. rewrite Hrun.
  destruct Hfr as (Hl1 & Hl1' & Hs1 & _). simpl in Hl1, Hl1', Hs1.
  rewrite run_bind, construct_at_run.
  set (cell' := obj ++ drop (length obj) (load v1 pos)).
  munfold. rewrite update_capabilities_run.
  set (v2 := set_slot pos {| ptr := Some pos; ops := Some derived |}
               (store pos cell' v1)).
  destruct (update_ptr_cache_run
              (set_flags
                 (capabilities
                    (slot (set_cache (ptr_cache_ (set_size (S (size_ v2)) v2))
                             false (set_size (S (size_ v2)) v2))
                       <$> seq 0 (S (size_ v2)))).1
                 (capabilities
                    (slot (set_cache (ptr_cache_ (set_size (S (size_ v2)) v2))
                             false (set_size (S (size_ v2)) v2))
                       <$> seq 0 (S (size_ v2)))).2
                 (set_cache (ptr_cache_ (set_size (S (size_ v2)) v2))
                    false (set_size (S (size_ v2)) v2))))
    as (c3 & b3 & Hupc).
  unfold update_ptr_cache, modify in Hupc. simpl in Hupc |- *.
  injection Hupc as ->.
  eexists _, _. split; [reflexivity|].
  assert (∀ i, slot v2 i = if decide (i = pos) then
                 {| ptr := Some pos; ops := Some derived |} else slot v1 i)
    as Hslot2.
  { intros i. unfold v2. vec_simpl.
    destruct (decide (i = pos)) as [->|]; case_decide; try done; lia. }
  assert (∀ i, load v2 i = if decide (i = pos) then cell' else load v1 i)
    as Hload2.
  { intros i. unfold v2. vec_simpl.
    destruct (decide (i = pos)) as [->|]; case_decide; try done; lia. }
  assert (size derived ≤ length cell') as Hfit.
  { unfold cell'. rewrite length_app. lia. }
  split; [simpl; lia|].
  split; [|split; [|split]].
  - unfold vec_inv. simpl. rewrite !length_insert.
    split; [lia|]. split; [lia|]. split; [lia|]. split.
    + intros i. unfold vec_slot_ok.
      change (slot (set_cache ?c ?b (set_flags ?x ?y (set_cache ?c' ?b' (set_size ?n v2)))) i)
        with (slot v2 i).
      change (load (set_cache ?c ?b (set_flags ?x ?y (set_cache ?c' ?b' (set_size ?n v2)))) i)
        with (load v2 i).
      rewrite Hslot2, Hload2. destruct (decide (i = pos)) as [->|Hn].
      * right. by exists derived.
      * apply Hok1.
    + intros i Hi.
      change (slot (set_cache ?c ?b (set_flags ?x ?y (set_cache ?c' ?b' (set_size ?n v2)))) i)
        with (slot v2 i).
      rewrite Hslot2. case_decide; [lia|].
      destruct (Hun i) as [-> _]; [lia|]. apply Hbeyond. lia.
  - intros i Hi.
    apply (vec_occupant_ext v); [| |apply Hok].
    + change (slot v2 i = slot v i). rewrite Hslot2. case_decide; [lia|].
      apply Hun. lia.
    + change (load v2 i = load v i). rewrite Hload2. case_decide; [lia|].
      apply Hun. lia.
  - unfold vec_occupant.
    change (slot (set_cache ?c ?b (set_flags ?x ?y (set_cache ?c' ?b' (set_size ?n v2)))) pos)
      with (slot v2 pos).
    rewrite Hslot2. case_decide; [|done]. simpl.
    change (load (set_cache ?c ?b (set_flags ?x ?y (set_cache ?c' ?b' (set_size ?n v2)))) pos)
      with (load v2 pos).
    rewrite Hload2. case_decide; [|done].
    unfold repr, cell'. rewrite <- Hobj. by rewrite take_app_length.
  - intros i Hi.
    transitivity (vec_occupant v1 (i + 1)).
    + replace (S i) with (i + 1) by lia.
      apply (vec_occupant_ext v1); [| |apply Hok1].
      * change (slot v2 (i + 1) = slot v1 (i + 1)). rewrite Hslot2.
        case_decide; [lia|done].
      * change (load v2 (i + 1) = load v1 (i + 1)). rewrite Hload2.
        case_decide; [lia|done].
    + apply vec_occupant_moved; [apply Hok|]. apply Hmv. lia.
Qed.

(** A successful [erase] of the range [[first, last)]. *)
Lemma erase_run (first last : nat) (v : poly_vector) :
  vec_inv Capacity v → first ≤ last → last ≤ size_ v →
  (first < last → last < size_ v →
     can_move_ v = true ∧ vec_faithful_from last v) →
  ∃ v' t,
    erase Capacity first last v = (v', t, inr first)
    ∧ size_ v' = size_ v - (last - first)
    ∧ vec_inv Capacity v'
    ∧ (∀ i, i < first → vec_occupant v' i = vec_occupant v i)
    ∧ (∀ i, first ≤ i < size_ v - (last - first) →
         vec_occupant v' i = vec_occupant v (i + (last - first))).
Proof.
  intros (Hls & Hlc & Hsz & Hok & Hbeyond) Hfl Hlast Hmov.
  unfold erase. rewrite run_bind.
  destruct (update_ptr_cache_run v) as (c0 & b0 & ->).
  rewrite run_bind. unfold get at 1. cbv beta iota.
  change (size_ (set_cache c0 b0 v)) with (size_ v).
  change (can_move_ (set_cache c0 b0 v)) with (can_move_ v).
  destruct (Nat.ltb_spec last first) as [|_]; [lia|].
  destruct (Nat.ltb_spec (size_ v) last) as [|_]; [lia|].
  cbn [orb].
  destruct (Nat.eqb_spec (last - first) 0) as [Hz|Hnz].
  - rewrite run_bind.
    destruct (update_ptr_cache_run (set_cache c0 b0 v)) as (c1 & b1 & ->).
    unfold ret. simpl.
    eexists _, _. split; [reflexivity|].
    split; [simpl; lia|]. split; [done|]. split; [done|].
    intros i Hi. replace (i + (last - first)) with i by lia. done.
  - assert ((last <? size_ v) && negb (can_move_ v) = false) as ->.
    { destruct (Nat.ltb_spec last (size_ v)); [|done].
      destruct Hmov as [-> _]; [lia|lia|done]. }
    rewrite run_bind.
    destruct (destroy_range first (last - first) (set_cache c0 b0 v))
      as (v1 & t1 & -> & Hfr1 & Hok1 & Hin1 & Hout1 & _); [exact Hok|].
    destruct Hfr1 as (Hl1 & Hl1' & Hs1 & _). simpl in Hl1, Hl1', Hs1.
    change (slot (set_cache c0 b0 v)) with (slot v) in Hout1.
    change (load (set_cache c0 b0 v)) with (load v) in Hout1.
    rewrite run_bind.
    assert (Hif := shift_left_if last (last - first) v1).
    rewrite Hs1 in Hif. rewrite Hif by done. clear Hif.
    destruct (shift_left_loop (last - first) (size_ v - last) last v1)
      as (v2 & t2 & -> & Hfr2 & Hok2 & Hun2 & Hmv2 & Hgap2);
      [lia|lia|lia|lia|done| | |].
    { intros i Hi. apply Hin1. lia. }
    { intros i p o Hi. destruct (Hout1 i) as [-> _]; [lia|].
      destruct (decide (last < size_ v)); [|lia].
      destruct Hmov as [_ Hf]; [lia|lia|]. apply Hf. lia. }
    destruct Hfr2 as (Hl2 & Hl2' & Hs2 & _).
    munfold. rewrite update_capabilities_run.
    set (w := set_cache _ false (set_size _ v2)).
    destruct (update_ptr_cache_run
                (set_flags (capabilities (slot w <$> seq 0 (size_ w))).1
                           (capabilities (slot w <$> seq 0 (size_ w))).2 w))
      as (c3 & b3 & Hupc).
    unfold update_ptr_cache, modify in Hupc. simpl in Hupc |- *.
    injection Hupc as ->.
    eexists _, _. split; [reflexivity|].
    split; [simpl; lia|].
    split; [|split].
    + unfold vec_inv. simpl.
      split; [lia|]. split; [lia|]. split; [lia|]. split.
      * exact Hok2.
      * intros i Hi. change (slot v2 i = empty_slot).
        destruct (decide (i < size_ v)) as [Hlt|Hge].
        -- apply Hgap2. lia.
        -- destruct (Hun2 i) as [-> _]; [lia|].
           destruct (Hout1 i) as [-> _]; [lia|]. apply Hbeyond. lia.
    + intros i Hi. apply (vec_occupant_ext v); [| |apply Hok].
      * change (slot v2 i = slot v i).
        destruct (Hun2 i) as [-> _]; [lia|]. apply Hout1. lia.
      * change (load v2 i = load v i).
        destruct (Hun2 i) as [_ ->]; [lia|]. apply Hout1. lia.
    + intros i Hi.
      transitivity (vec_occupant v2 i).
      { unfold vec_occupant. done. }
      transitivity (vec_occupant v1 (i + (last - first))).
      * replace i with (i + (last - first) - (last - first)) at 1 by lia.
        apply vec_occupant_moved; [apply Hok1|]. apply Hmv2. lia.
      * apply (vec_occupant_ext v); [| |apply Hok]; apply Hout1; lia.
Qed.

End vector_insert_erase.

(** The structural invariant holds initially and is kept by every
    insertion and erasure that completes. *)
Lemma vec_inv_default_constructed (Capacity SlotSize : nat) :
  vec_inv Capacity (PolyVector.default_constructed Capacity SlotSize).
Proof.
  unfold vec_inv. simpl. rewrite !length_replicate.
  split; [done|]. split; [done|]. split; [lia|].
  assert (∀ i, PolyVector.slot
                 (PolyVector.default_constructed Capacity SlotSize) i
               = empty_slot) as He.
  { intros i. unfold PolyVector.slot. simpl.
    destruct (decide (i < Capacity)).
    - by rewrite lookup_replicate_2.
    - by rewrite lookup_ge_None_2 by (rewrite length_replicate; lia). }
  split; [intros i; by left|]. intros i _. apply He.
Qed.

Lemma vec_inv_emplace (Capacity pos : nat) (derived : type_operations)
    (obj : list byte) (v : PolyVector.poly_vector) :
  vec_inv Capacity v → PolyVector.size_ v < Capacity →
  pos ≤ PolyVector.size_ v → vec_faithful_from pos v →
  length obj = size derived →
  vec_inv Capacity
    (final (PolyVector.emplace Capacity pos derived (inr obj) v)).
Proof.
  intros Hinv Hcap Hpos Hfaith Hobj.
  destruct (emplace_run Capacity pos derived obj v)
    as (v' & t & -> & _ & Hinv' & _); done.
Qed.

Lemma vec_inv_erase (Capacity first last : nat) (v : PolyVector.poly_vector) :
  vec_inv Capacity v → first ≤ last → last ≤ PolyVector.size_ v →
  (first < last → last < PolyVector.size_ v →
     PolyVector.can_move_ v = true ∧ vec_faithful_from last v) →
  vec_inv Capacity (final (PolyVector.erase Capacity first last v)).
Proof.
  intros Hinv Hfl Hlast Hmov.
  destruct (erase_run Capacity first last v)
    as (v' & t & -> & _ & Hinv' & _); done.
Qed.

Lemma vec_inv_emplace_back (Capacity : nat) (derived : type_operations)
    (obj : list byte) (v : PolyVector.poly_vector) :
  vec_inv Capacity v → PolyVector.size_ v < Capacity →
  length obj = size derived →
  vec_inv Capacity
    (final (PolyVector.emplace_back Capacity derived (inr obj) v)).
Proof.
  intros (Hls & Hlc & Hsz & Hok & Hbeyond) Hcap Hobj.
  unfold PolyVector.emplace_back. rewrite run_bind. unfold get at 1.
  destruct (Nat.leb_spec Capacity (PolyVector.size_ v)) as [|_]; [lia|].
  rewrite run_bind, construct_at_run.
  set (cell' := obj ++ drop (length obj) (PolyVector.load v (PolyVector.size_ v))).
  munfold. rewrite update_capabilities_run. unfold final. simpl.
  set (v2 := PolyVector.set_slot (PolyVector.size_ v)
               {| ptr := Some (PolyVector.size_ v); ops := Some derived |}
               (PolyVector.store (PolyVector.size_ v) cell' v)).
  assert (size derived ≤ length cell') as Hfit.
  { unfold cell'. rewrite length_app. lia. }
  unfold vec_inv. simpl. rewrite !length_insert.
  split; [done|]. split; [done|]. split; [lia|]. split.
  - intros i. unfold vec_slot_ok.
    change (PolyVector.slot v2 i = empty_slot
            ∨ ∃ o, PolyVector.slot v2 i = {| ptr := Some i; ops := Some o |}
                   ∧ size o ≤ length (PolyVector.load v2 i)).
    unfold v2. vec_simpl.
    destruct (decide (i = PolyVector.size_ v)) as [->|Hn].
    + right. exists derived. repeat (case_decide; [|lia]). done.
    + repeat (case_decide; [lia|]). apply Hok.
  - intros i Hi. change (PolyVector.slot v2 i = empty_slot).
    unfold v2. vec_simpl. case_decide; [lia|]. apply Hbeyond. lia.
Qed.

Lemma vec_inv_pop_back (Capacity : nat) (v : PolyVector.poly_vector) :
  vec_inv Capacity v → PolyVector.size_ v ≠ 0 →
  vec_inv Capacity (final (PolyVector.pop_back v)).
Proof.
  intros (Hls & Hlc & Hsz & Hok & Hbeyond) Hne.
  unfold PolyVector.pop_back. rewrite run_bind. unfold get at 1.
  destruct (Nat.eqb_spec (PolyVector.size_ v) 0) as [|_]; [done|].
  rewrite run_bind. unfold modify at 1.
  rewrite run_bind. unfold get at 1.
  rewrite run_bind, destroy_at_run.
  change (PolyVector.size_ (PolyVector.set_size ?n v)) with n.
  change (PolyVector.slot (PolyVector.set_size ?n v)) with (PolyVector.slot v).
  change (PolyVector.load (PolyVector.set_size ?n v)) with (PolyVector.load v).
  destruct (Hok (PolyVector.size_ v - 1)) as [He|(o & Ho & Hfit)].
  - rewrite He. cbn [occupied ptr ops empty_slot].
    rewrite run_bind. unfold modify at 1.
    rewrite update_capabilities_run. unfold final. simpl.
    split; [done|]. split; [done|]. split; [simpl; lia|]. split; [exact Hok|].
    intros i Hi. simpl in Hi.
    destruct (decide (i = PolyVector.size_ v - 1)) as [->|]; [done|].
    apply Hbeyond. lia.
  - rewrite Ho. cbn [occupied ptr ops].
    rewrite run_bind. unfold modify at 1.
    rewrite update_capabilities_run. unfold final. simpl.
    set (v2 := PolyVector.set_slot (PolyVector.size_ v - 1) empty_slot
                 (PolyVector.store (PolyVector.size_ v - 1)
                    (safe_destroy
                       (PolyVector.load v (PolyVector.size_ v - 1)) o)
                    (PolyVector.set_size (PolyVector.size_ v - 1) v))).
    unfold vec_inv. simpl. rewrite !length_insert.
    split; [done|]. split; [done|]. split; [lia|].
    split.
    + intros i. unfold vec_slot_ok.
      change (PolyVector.slot v2 i = empty_slot
              ∨ ∃ o, PolyVector.slot v2 i = {| ptr := Some i; ops := Some o |}
                     ∧ size o ≤ length (PolyVector.load v2 i)).
      unfold v2. vec_simpl.
      change (PolyVector.slot (PolyVector.set_size ?n v)) with (PolyVector.slot v).
      change (PolyVector.load (PolyVector.set_size ?n v)) with (PolyVector.load v).
      destruct (decide (i = PolyVector.size_ v - 1)) as [->|Hn].
      * left. simpl. case_decide; [done|lia].
      * simpl. repeat (case_decide; [lia|]). apply Hok.
    + intros i Hi. change (PolyVector.slot v2 i = empty_slot).
      unfold v2. vec_simpl.
      change (PolyVector.slot (PolyVector.set_size ?n v)) with (PolyVector.slot v).
      simpl. case_decide; [done|]. apply Hbeyond. lia.
Qed.

(** ** The contract of [resize] *)

Section vector_resize_contract.
Import PolyVector.

Lemma pop_back_any (v : poly_vector) :
  size_ v ≠ 0 →
  ∃ v', pop_back v = (v', destroy_calls [slot v (size_ v - 1)], inr tt)
    ∧ size_ v' = size_ v - 1
    ∧ occupied (slot v' (size_ v - 1)) = None
    ∧ (∀ i, i ≠ size_ v - 1 → slot v' i = slot v i)
    ∧ (∀ q, (∀ p o, occupied (slot v (size_ v - 1)) = Some (p, o) → p ≠ q) →
         load v' q = load v q).
Proof.
  intros Hne. unfold pop_back. rewrite run_bind. unfold get at 1.
  destruct (Nat.eqb_spec (size_ v) 0) as [|_]; [done|].
  rewrite run_bind. unfold modify at 1.
  rewrite run_bind. unfold get at 1.
  rewrite run_bind, destroy_at_run.
  change (size_ (set_size ?n v)) with n.
  change (slot (set_size ?n v)) with (slot v).
  change (load (set_size ?n v)) with (load v).
  unfold destroy_calls. cbn [mbind list_bind]. rewrite app_nil_r.
  destruct (occupied (slot v (size_ v - 1))) as [[p o]|] eqn:Hocc.
  - assert (size_ v - 1 < length (slots_ v)) as Hlt.
    { destruct (decide (size_ v - 1 < length (slots_ v))); [done|].
      rewrite slot_ge in Hocc by lia. done. }
    rewrite run_bind. unfold modify at 1. rewrite update_capabilities_run.
    eexists. split; [by rewrite app_nil_r|].
    split; [done|]. split; [|split].
    + change (occupied
                (slot (set_slot (size_ v - 1) empty_slot
                         (store p (safe_destroy (load v p) o)
                            (set_size (size_ v - 1) v)))
                   (size_ v - 1)) = None).
      vec_simpl. simpl. case_decide; [done|lia].
    + intros i Hi.
      change (slot (set_slot (size_ v - 1) empty_slot
                      (store p (safe_destroy (load v p) o)
                         (set_size (size_ v - 1) v))) i = slot v i).
      vec_simpl. simpl. case_decide; [lia|done].
    + intros q Hq.
      change (load (set_slot (size_ v - 1) empty_slot
                      (store p (safe_destroy (load v p) o)
                         (set_size (size_ v - 1) v))) q = load v q).
      vec_simpl. case_decide as Hpq; [|done].
      destruct Hpq as [-> _]. by destruct (Hq q o).
  - rewrite run_bind. unfold modify at 1. rewrite update_capabilities_run.
    eexists. split; [reflexivity|].
    split; [done|]. split; [exact Hocc|]. split; [done|]. done.
Qed.

Lemma pop_back_n_any (k : nat) (v : poly_vector) :
  k ≤ size_ v →
  ∃ v', pop_back_n k v
        = (v', destroy_calls (slot v <$> rev (seq (size_ v - k) k)), inr tt)
    ∧ size_ v' = size_ v - k
    ∧ (∀ i, size_ v - k ≤ i < size_ v → occupied (slot v' i) = None)
    ∧ (∀ i, i < size_ v - k ∨ size_ v ≤ i → slot v' i = slot v i)
    ∧ (∀ q, (∀ i p o, size_ v - k ≤ i < size_ v →
               occupied (slot v i) = Some (p, o) → p ≠ q) →
         load v' q = load v q).
Proof.
  revert v. induction k as [|k IH]; intros v Hk.
  - exists v. simpl. split; [done|]. split; [lia|].
    split; [intros; lia|]. done.
  - cbn [pop_back_n]. rewrite run_bind.
    destruct (pop_back_any v) as (v1 & -> & Hs1 & Hlast & Hsl1 & Hld1); [lia|].
    destruct (IH v1) as (v' & -> & Hs & Hgone & Hsl & Hld); [lia|].
    exists v'. split; [|split; [lia|split; [|split]]].
    + f_equal. f_equal. symmetry.
      replace (size_ v - S k) with (size_ v1 - k) by lia.
      rewrite seq_S, rev_unit, fmap_cons.
      etrans; [apply destroy_calls_cons|].
      replace (size_ v1 - k + k) with (size_ v - 1) by lia.
      f_equal. f_equal. apply list_fmap_ext. intros j i Hi.
      apply list_elem_of_lookup_2, list_elem_of_In, in_rev, in_seq in Hi.
      symmetry. apply Hsl1. lia.
    + intros i Hi. destruct (decide (i = size_ v - 1)) as [->|Hn].
      * rewrite Hsl by lia. done.
      * apply Hgone. lia.
    + intros i Hi. rewrite Hsl by lia. apply Hsl1. lia.
    + intros q Hq. rewrite Hld.
      * apply Hld1. intros p o. apply Hq. lia.
      * intros i p o Hi. rewrite Hsl1 by lia. apply Hq. lia.
Qed.

(** C9. [resize(new_size)]: beyond the capacity it throws
    [std::out_of_range] and changes nothing.  Below the current size it
    returns with [size == new_size], being [size - new_size] calls of
    [pop_back()]: the destructor of every occupant of the positions
    [[new_size, size)] is called exactly once, from the last position
    down, and no other destructor; those positions are left without an
    occupant; every other slot record is untouched; and, the occupants
    living in their own slots, the storage and the occupants of the
    positions below [new_size] are unchanged, so that the sequence of
    occupants is cut to its first [new_size] entries.  Above the current
    size (within the capacity) it sets [size] to [new_size], every added
    position holds a null pointer, and the existing occupants, the
    storage and the capability flags are unchanged. *)
Theorem resize_contract (Capacity new_size : nat) (v : poly_vector) :
  (Capacity < new_size →
     resize Capacity new_size v = (v, [], inl CapacityExceeded_resize))
  ∧ (new_size ≤ Capacity → new_size < size_ v →
     ∃ v1 t, pop_back_n (size_ v - new_size) v = (v1, t, inr tt)
       ∧ size_ v1 = new_size
       ∧ resize Capacity new_size v
         = (set_cache (ptr_cache_ v1) false v1, t, inr tt)
       ∧ t = destroy_calls
               (slot v <$> rev (seq new_size (size_ v - new_size)))
       ∧ (∀ i, new_size ≤ i < size_ v →
            occupied (slot v1 i) = None ∧ vec_occupant v1 i = None)
       ∧ (∀ i, i < new_size ∨ size_ v ≤ i → slot v1 i = slot v i)
       ∧ (vec_own_slots v →
            (∀ i, i < new_size →
               load v1 i = load v i ∧ vec_occupant v1 i = vec_occupant v i)
            ∧ vec_occupants (set_cache (ptr_cache_ v1) false v1)
              = take new_size (vec_occupants v)))
  ∧ (new_size ≤ Capacity → size_ v < new_size →
     ∃ v', resize Capacity new_size v = (v', [], inr tt)
       ∧ size_ v' = new_size
       ∧ storage_ v' = storage_ v
       ∧ can_copy_ v' = can_copy_ v ∧ can_move_ v' = can_move_ v
       ∧ (∀ i, size_ v ≤ i < new_size →
            ptr (slot v' i) = None ∧ vec_occupant v' i = None)
       ∧ (∀ i, i < size_ v →
            slot v' i = slot v i ∧ vec_occupant v' i = vec_occupant v i)).
Proof.
  split; [|split].
  - intros Hgt. unfold resize. rewrite run_bind. unfold get at 1.
    destruct (Nat.ltb_spec Capacity new_size); [done|lia].
  - intros Hcap Hlt.
    destruct (pop_back_n_any (size_ v - new_size) v)
      as (v1 & Hrun & Hs & Hgone & Hsl & Hld); [lia|].
    replace (size_ v - (size_ v - new_size)) with new_size in * by lia.
    exists v1, (destroy_calls
                  (slot v <$> rev (seq new_size (size_ v - new_size)))).
    split; [done|]. split; [done|]. split; [|split; [done|split; [|split]]].
    + unfold resize. rewrite run_bind. unfold get at 1.
      destruct (Nat.ltb_spec Capacity new_size); [lia|].
      rewrite run_bind, shrink_loop by lia. rewrite Hrun.
      rewrite run_bind.
      destruct (grow_loop new_size new_size v1)
        as (v' & Hg & _); [lia|lia|].
      assert (v' = v1) as ->.
      { destruct new_size; simpl in Hg; [by inversion Hg|].
        rewrite run_bind in Hg. unfold get at 1 in Hg.
        destruct (Nat.ltb_spec (size_ v1) (S new_size)); [lia|].
        by inversion Hg. }
      rewrite Hg. unfold modify. by rewrite app_nil_r.
    + intros i Hi. unfold vec_occupant. by rewrite (Hgone i Hi).
    + exact Hsl.
    + intros Hown.
      assert (∀ i, i < new_size →
                load v1 i = load v i ∧ vec_occupant v1 i = vec_occupant v i)
        as Hkeep.
      { intros i Hi.
        assert (load v1 i = load v i) as Hl.
        { apply Hld. intros j p o Hj Hocc.
          rewrite (Hown j p o) by (lia || done). lia. }
        split; [done|]. unfold vec_occupant. rewrite Hsl by lia.
        destruct (occupied (slot v i)) as [[p o]|] eqn:Hocc; [|done].
        rewrite (Hown i p o) by (lia || done). by rewrite Hl. }
      split; [done|].
      unfold vec_occupants.
      change (size_ (set_cache (ptr_cache_ v1) false v1)) with (size_ v1).
      rewrite Hs, <- fmap_take, take_seq.
      replace (new_size `min` size_ v) with new_size by lia.
      apply fmap_seq_ext. intros i Hi.
      change (vec_occupant v1 i = vec_occupant v i).
      apply Hkeep. lia.
  - intros Hcap Hlt. unfold resize. rewrite run_bind. unfold get at 1.
    destruct (Nat.ltb_spec Capacity new_size); [lia|].
    rewrite run_bind, shrink_loop by lia.
    replace (size_ v - new_size) with 0 by lia. cbn [pop_back_n]. unfold ret at 1.
    rewrite run_bind.
    destruct (grow_loop new_size new_size v)
      as (v' & -> & Hs & Hst & Hc & Hm & _ & _ & Hnew & Hold); [lia|lia|].
    unfold modify. simpl.
    eexists. split; [reflexivity|]. simpl.
    repeat split; try done.
    + by apply Hnew.
    + unfold vec_occupant, occupied.
      change (slot (set_cache ?c ?b ?w) ?j) with (slot w j).
      by rewrite (Hnew i).
    + apply Hold. by left.
    + unfold vec_occupant.
      change (slot (set_cache ?c ?b ?w) ?j) with (slot w j).
      rewrite Hold by (by left).
      destruct (occupied (slot v i)) as [[p o]|]; [|done].
      unfold load; simpl. by rewrite Hst.
Qed.

End vector_resize_contract.

Lemma sample_vec_own_slots :
  vec_own_slots (vec_of [(Label, 1); (Canvas, 2)]).
Proof.
  intros [|[|[|i]]] p o Hi; simpl; intros [= <- <-]; reflexivity.
Qed.

Lemma resize_contract_witness :
  outcome (PolyVector.resize 3 4 (vec_of [(Label, 1)]))
    = inl CapacityExceeded_resize
  ∧ PolyVector.size_ (final (PolyVector.resize 3 0 (vec_of [(Label, 1); (Canvas, 2)]))) = 0
  ∧ trace (PolyVector.resize 3 0 (vec_of [(Label, 1); (Canvas, 2)]))
    = [ev_destroy self 1; ev_destroy self 0]
  ∧ vec_occupants
      (final (PolyVector.resize 3 1 (vec_of [(Label, 1); (Canvas, 2)])))
    = [Some (get_type_ops Label, obj 1)]
  ∧ PolyVector.size_ (final (PolyVector.resize 3 3 (vec_of [(Label, 1)]))) = 3.
Proof.
  pose proof (resize_contract 3 4 (vec_of [(Label, 1)])) as (H1 & _).
  pose proof (resize_contract 3 0 (vec_of [(Label, 1); (Canvas, 2)]))
    as (_ & H2 & _).
  pose proof (resize_contract 3 1 (vec_of [(Label, 1); (Canvas, 2)]))
    as (_ & H2' & _).
  pose proof (resize_contract 3 3 (vec_of [(Label, 1)])) as (_ & _ & H3).
  split; [|split; [|split; [|split]]].
  - rewrite H1; [done|]. lia.
  - destruct H2 as (v1 & t & _ & Hs & -> & _); [lia|vm_compute; lia|].
    exact Hs.
  - destruct H2 as (v1 & t & _ & _ & -> & -> & _); [lia|vm_compute; lia|].
    vm_compute. reflexivity.
  - destruct H2' as (v1 & t & _ & _ & -> & _ & _ & _ & Hown);
      [lia|vm_compute; lia|].
    destruct (Hown sample_vec_own_slots) as [_ Hocc].
    unfold final. cbn [fst]. rewrite Hocc. vm_compute. reflexivity.
  - destruct H3 as (v' & -> & Hs & _); [lia|vm_compute; lia|].
    exact Hs.
Defined.

(** ** Shift correctness *)

Lemma faithful_trivially_copyable (o : type_operations) :
  is_trivially_copyable o = true → faithful_move o.
Proof.
  intros Ht dst src Hfit. unfold safe_move_construct. rewrite Ht.
  eexists _, _. split; [reflexivity|].
  unfold repr, memcpy. split.
  - rewrite length_app, length_take. lia.
  - rewrite take_app_le by (rewrite length_take; lia).
    rewrite take_take. f_equal. lia.
Qed.

Lemma faithful_bitwise_move (o : type_operations) :
  move_construct o = Some (noexcept_call (nothrow (bitwise_move (size o)))) →
  faithful_move o.
Proof.
  intros Hm. destruct (is_trivially_copyable o) eqn:Ht.
  { by apply faithful_trivially_copyable. }
  intros dst src Hfit. unfold safe_move_construct. rewrite Ht, Hm.
  eexists _, _. split; [reflexivity|].
  unfold repr, memcpy. split.
  - rewrite length_app, length_take. lia.
  - rewrite take_app_le by (rewrite length_take; lia).
    rewrite take_take. f_equal. lia.
Qed.

Lemma vec_occupants_insert (v v' : PolyVector.poly_vector) (pos : nat)
    (x : option (type_operations * list byte)) :
  pos ≤ PolyVector.size_ v →
  PolyVector.size_ v' = S (PolyVector.size_ v) →
  (∀ i, i < pos → vec_occupant v' i = vec_occupant v i) →
  vec_occupant v' pos = x →
  (∀ i, pos ≤ i < PolyVector.size_ v →
     vec_occupant v' (S i) = vec_occupant v i) →
  vec_occupants v' = take pos (vec_occupants v) ++ x :: drop pos (vec_occupants v).
Proof.
  intros Hpos Hs Hlow Hat Hhigh. unfold vec_occupants. rewrite Hs.
  rewrite <- fmap_take, <- fmap_drop, take_seq, drop_seq.
  replace (S (PolyVector.size_ v))
    with (pos + S (PolyVector.size_ v - pos)) by lia.
  rewrite seq_app, fmap_app. cbn [seq fmap list_fmap].
  rewrite Nat.min_l by lia. f_equal.
  - apply fmap_seq_ext. intros i Hi. apply Hlow. lia.
  - change (0 + pos) with pos. rewrite Hat. f_equal.
    rewrite <- fmap_S_seq, <- list_fmap_compose.
    apply fmap_seq_ext. intros i Hi. simpl. apply Hhigh. lia.
Qed.

Lemma vec_occupants_remove (v v' : PolyVector.poly_vector) (first last : nat) :
  first ≤ last → last ≤ PolyVector.size_ v →
  PolyVector.size_ v' = PolyVector.size_ v - (last - first) →
  (∀ i, i < first → vec_occupant v' i = vec_occupant v i) →
  (∀ i, first ≤ i < PolyVector.size_ v - (last - first) →
     vec_occupant v' i = vec_occupant v (i + (last - first))) →
  vec_occupants v' = take first (vec_occupants v) ++ drop last (vec_occupants v).
Proof.
  intros Hfl Hlast Hs Hlow Hhigh. unfold vec_occupants. rewrite Hs.
  rewrite <- fmap_take, <- fmap_drop, take_seq, drop_seq.
  replace (PolyVector.size_ v - (last - first))
    with (first + (PolyVector.size_ v - last)) by lia.
  rewrite seq_app, fmap_app.
  rewrite Nat.min_l by lia. f_equal.
  - apply fmap_seq_ext. intros i Hi. apply Hlow. lia.
  - simpl. apply list_eq. intros i.
    rewrite !list_lookup_fmap.
    destruct (decide (i < PolyVector.size_ v - last)) as [Hlt|Hge].
    + rewrite !lookup_seq_lt by done. simpl. f_equal.
      rewrite Hhigh by lia. f_equal. lia.
    + rewrite !lookup_seq_ge by lia. done.
Qed.

(** C5 (amended). In a vector holding [[a0..a(n-1)]] with [n < Capacity],
    an insertion at logical index [i <= n] whose constructor completes,
    the occupants from [i] on relocating faithfully, returns and yields
    [[a0..a(i-1), new, ai..a(n-1)]] with size [n + 1]; an erasure of
    [[i, j)] that is allowed to shift (the range is a suffix, or the
    container is movable and the occupants after [j] relocate faithfully)
    returns and yields the prefix before [i] followed by the suffix from
    [j] on, in order and with the same operation tables and object
    representations. *)
Theorem shift_correctness (Capacity : nat) (v : PolyVector.poly_vector) :
  vec_inv Capacity v →
  (∀ pos derived obj,
     PolyVector.size_ v < Capacity → pos ≤ PolyVector.size_ v →
     vec_faithful_from pos v → length obj = size derived →
     ∃ v' t,
       PolyVector.emplace Capacity pos derived (inr obj) v = (v', t, inr pos)
       ∧ PolyVector.size_ v' = S (PolyVector.size_ v)
       ∧ vec_occupants v'
         = take pos (vec_occupants v)
             ++ Some (derived, obj) :: drop pos (vec_occupants v))
  ∧ (∀ first last,
     first ≤ last → last ≤ PolyVector.size_ v →
     (first < last → last < PolyVector.size_ v →
        PolyVector.can_move_ v = true ∧ vec_faithful_from last v) →
     ∃ v' t,
       PolyVector.erase Capacity first last v = (v', t, inr first)
       ∧ PolyVector.size_ v' = PolyVector.size_ v - (last - first)
       ∧ vec_occupants v'
         = take first (vec_occupants v) ++ drop last (vec_occupants v)).
Proof.
  intros Hinv. split.
  - intros pos derived obj Hcap Hpos Hfaith Hobj.
    destruct (emplace_run Capacity pos derived obj v)
      as (v' & t & Hrun & Hs & _ & Hlow & Hat & Hhigh); try done.
    exists v', t. split; [done|]. split; [done|].
    by apply vec_occupants_insert.
  - intros first last Hfl Hlast Hmov.
    destruct (erase_run Capacity first last v)
      as (v' & t & Hrun & Hs & _ & Hlow & Hhigh); try done.
    exists v', t. split; [done|]. split; [done|].
    by apply vec_occupants_remove.
Qed.

Lemma sample_vec_inv : vec_inv 3 (vec_of [(Label, 1); (Canvas, 2)]).
Proof.
  split; [done|]. split; [done|]. split; [vm_compute; lia|]. split.
  - intros [|[|[|i]]].
    + right. eexists. split; [reflexivity|]. vm_compute. lia.
    + right. eexists. split; [reflexivity|]. vm_compute. lia.
    + by left.
    + by left.
  - intros [|[|[|i]]] Hi; try done; vm_compute in Hi; lia.
Qed.

Lemma sample_vec_faithful (from : nat) :
  vec_faithful_from from (vec_of [(Label, 1); (Canvas, 2)]).
Proof.
  intros [|[|[|i]]] p o _; simpl; intros [= <- <-];
    by apply faithful_bitwise_move.
Qed.

Lemma shift_correctness_witness :
  (∃ v',
     final (PolyVector.emplace 3 1 (get_type_ops Label) (inr (obj 3))
              (vec_of [(Label, 1); (Canvas, 2)])) = v'
     ∧ vec_occupants v'
       = [Some (get_type_ops Label, obj 1);
          Some (get_type_ops Label, obj 3);
          Some (get_type_ops Canvas, obj 2)])
  ∧ (∃ v',
     final (PolyVector.erase 3 0 1 (vec_of [(Label, 1); (Canvas, 2)])) = v'
     ∧ vec_occupants v' = [Some (get_type_ops Canvas, obj 2)]).
Proof.
  pose proof (shift_correctness 3 (vec_of [(Label, 1); (Canvas, 2)])
                sample_vec_inv) as [Hins Hdel].
  split.
  - destruct (Hins 1 (get_type_ops Label) (obj 3))
      as (v' & t & Hrun & _ & Hocc).
    + vm_compute; lia.
    + vm_compute; lia.
    + apply sample_vec_faithful.
    + reflexivity.
    + exists v'. split; [by rewrite Hrun|]. rewrite Hocc. reflexivity.
  - destruct (Hdel 0 1) as (v' & t & Hrun & _ & Hocc).
    + lia.
    + vm_compute; lia.
    + intros _ _. split; [reflexivity|apply sample_vec_faithful].
    + exists v'. split; [by rewrite Hrun|]. rewrite Hocc. reflexivity.
Defined.

(** ** Erasure and non-relocatable occupants *)

Lemma for_each_error {S} (P : exn → Prop) (body : nat → M S unit)
    (l : list nat) :
  (∀ i s s' t e, body i s = (s', t, inl e) → P e) →
  ∀ s s' t e, for_each l body s = (s', t, inl e) → P e.
Proof.
  intros Hbody. induction l as [|i l IH]; intros s s' t e; simpl; [done|].
  rewrite run_bind. destruct (body i s) as [[s1 t1] [e1|[]]] eqn:Hb.
  - intros [= _ _ <-]. by eapply Hbody.
  - destruct (for_each l body s1) as [[s2 t2] r2] eqn:Hl.
    intros [= _ _ ->]. by eapply IH.
Qed.

Section vector_erase.
Import PolyVector.
Variable Capacity : nat.

Lemma safe_move_construct_error (dst src : cell) (o : type_operations) e :
  safe_move_construct dst src o = inl e → e ≠ ShiftUnsupported.
Proof.
  unfold safe_move_construct.
  destruct (is_trivially_copyable o); [done|].
  destruct (move_construct o) as [f|].
  { destruct (f dst src); [done|]. by intros [= <-]. }
  destruct (copy_construct o) as [g|].
  - destruct (g dst src); [|done]. by intros [= <-].
  - by intros [= <-].
Qed.

Lemma relocate_error (src dst : nat) (v v' : poly_vector) t e :
  relocate src dst v = (v', t, inl e) → e ≠ ShiftUnsupported.
Proof.
  rewrite relocate_run.
  destruct (occupied (slot v src)) as [[p o]|]; [|done].
  destruct (safe_move_construct _ _ o) as [e'|[d s]] eqn:Hm; [|done].
  intros [= _ _ <-]. by eapply safe_move_construct_error.
Qed.

Lemma erase_tail_run (count first : nat) (w : poly_vector) :
  ∃ w',
    (modify (λ v, set_size (size_ v - count) v);;
     modify (λ v, set_cache (ptr_cache_ v) false v);;
     update_capabilities;;
     update_ptr_cache Capacity;;
     ret first) w = (w', [], inr first)
    ∧ size_ w' = size_ w - count.
Proof.
  munfold. rewrite update_capabilities_run.
  set (w1 := set_cache _ false (set_size _ w)).
  destruct (update_ptr_cache_run Capacity
              (set_flags (capabilities (slot w1 <$> seq 0 (size_ w1))).1
                         (capabilities (slot w1 <$> seq 0 (size_ w1))).2 w1))
    as (c & b & Hupc).
  unfold update_ptr_cache, modify in Hupc. simpl in Hupc |- *.
  injection Hupc as ->. by eexists.
Qed.

(** X28. The guard of [erase(first, last)] as the header has it: the
    "cannot shift elements" error is thrown exactly when the range is
    non-empty, elements remain after it and the cached [can_move_] flag is
    false; the throw precedes every destruction, so storage, slot records,
    size and flags are untouched (only the iterator pointer cache may have
    been refreshed) and no destructor has run; erasing a suffix
    ([last == size]) always returns, whatever the flag; and the flag that
    [update_capabilities] stores is true exactly when every slot of the
    logical range that is occupied holds a move-constructible variant.
    The guard reads the move flag alone: the copy constructors of the
    occupants play no part in it. *)
Theorem erase_shift_unsupported (first last : nat) (v : poly_vector) :
  (outcome (erase Capacity first last v) = inl ShiftUnsupported
   ↔ first < last ∧ last < size_ v ∧ can_move_ v = false)
  ∧ (first < last → last < size_ v → can_move_ v = false →
     ∃ c b, erase Capacity first last v
            = (set_cache c b v, [], inl ShiftUnsupported))
  ∧ (first ≤ size_ v →
     ∃ v' t, erase Capacity first (size_ v) v = (v', t, inr first)
             ∧ size_ v' = first)
  ∧ (∀ w, can_move_ (final (update_capabilities w)) = true
          ↔ ∀ i, i < size_ w → slot_movable (slot w i)).
Proof.
  assert (first < last → last < size_ v → can_move_ v = false →
          ∃ c b, erase Capacity first last v
                 = (set_cache c b v, [], inl ShiftUnsupported)) as Hthrow.
  { intros Hfl Hls Hmv. unfold erase. rewrite run_bind.
    destruct (update_ptr_cache_run Capacity v) as (c0 & b0 & ->).
    rewrite run_bind. unfold get at 1. cbv beta iota.
    change (size_ (set_cache c0 b0 v)) with (size_ v).
    change (can_move_ (set_cache c0 b0 v)) with (can_move_ v).
    destruct (Nat.ltb_spec last first) as [|_]; [lia|].
    destruct (Nat.ltb_spec (size_ v) last) as [|_]; [lia|].
    destruct (Nat.eqb_spec (last - first) 0) as [|_]; [lia|].
    destruct (Nat.ltb_spec last (size_ v)) as [_|]; [|lia].
    rewrite Hmv. simpl. by exists c0, b0. }
  split; [|split; [exact Hthrow|split]]; cycle 2.
  { intros w. rewrite update_capabilities_run. unfold final. simpl.
    rewrite (proj2 (capabilities_spec _)), Forall_fmap, Forall_seq.
    split; intros H i; [intros Hi|intros [_ Hi]]; apply H; simpl in *; lia. }
  - split.
    + unfold erase. rewrite run_bind.
      destruct (update_ptr_cache_run Capacity v) as (c0 & b0 & ->).
      rewrite run_bind. unfold get at 1. cbv beta iota.
      change (size_ (set_cache c0 b0 v)) with (size_ v).
      change (can_move_ (set_cache c0 b0 v)) with (can_move_ v).
      destruct (Nat.ltb_spec last first) as [|Hfl]; [done|].
      destruct (Nat.ltb_spec (size_ v) last) as [|Hls]; [done|].
      cbn [orb].
      destruct (Nat.eqb_spec (last - first) 0) as [|Hnz].
      { rewrite run_bind.
        destruct (update_ptr_cache_run Capacity (set_cache c0 b0 v))
          as (c1 & b1 & ->). done. }
      destruct (Nat.ltb_spec last (size_ v)) as [Hlt|Hge];
        [destruct (can_move_ v) eqn:Hmv|]; cbn [andb negb].
      * rewrite run_bind.
        destruct (destroy_loop_run (seq first (last - first))
                    (set_cache c0 b0 v)) as (v1 & t1 & ->).
        rewrite run_bind.
        destruct (shift_left last (last - first) v1)
          as [[v2 t2] [e|[]]] eqn:Hshift.
        -- simpl. intros [= ->]. exfalso.
           unfold shift_left in Hshift. rewrite run_bind in Hshift.
           unfold get at 1 in Hshift.
           destruct (for_each _ _ v1) as [[v3 t3] [e3|[]]] eqn:Hloop; [|done].
           injection Hshift as _ _ ->.
           eapply (for_each_error (λ e, e ≠ ShiftUnsupported)) in Hloop;
             [done|].
           intros i s s' t e. apply relocate_error.
        -- destruct (erase_tail_run (last - first) first v2) as (w' & -> & _).
           done.
      * intros _. split; [lia|]. split; [lia|done].
      * rewrite run_bind.
        destruct (destroy_loop_run (seq first (last - first))
                    (set_cache c0 b0 v)) as (v1 & t1 & ->).
        rewrite run_bind. unfold ret at 1.
        destruct (erase_tail_run (last - first) first v1) as (w' & -> & _).
        done.
    + intros (Hfl & Hls & Hmv).
      destruct (Hthrow Hfl Hls Hmv) as (c & b & ->). done.
  - intros Hle. unfold erase. rewrite run_bind.
    destruct (update_ptr_cache_run Capacity v) as (c0 & b0 & ->).
    rewrite run_bind. unfold get at 1. cbv beta iota.
    change (size_ (set_cache c0 b0 v)) with (size_ v).
    destruct (Nat.ltb_spec (size_ v) first) as [|_]; [lia|].
    rewrite Nat.ltb_irrefl. cbn [orb andb].
    destruct (Nat.eqb_spec (size_ v - first) 0) as [Hz|Hnz].
    + rewrite run_bind.
      destruct (update_ptr_cache_run Capacity (set_cache c0 b0 v))
        as (c1 & b1 & ->).
      eexists _, _. split; [reflexivity|]. simpl. lia.
    + rewrite run_bind.
      destruct (for_each (seq first (size_ v - first)) destroy_at
                  (set_cache c0 b0 v)) as [[v1 t1] r1] eqn:Hloop.
      assert (vec_frame (set_cache c0 b0 v) v1) as (_ & _ & Hs1 & _).
      { eapply (for_each_preserves vec_frame);
          [apply vec_frame_refl|apply vec_frame_trans| |exact Hloop].
        intros i s s' t r. rewrite destroy_at_run.
        destruct (occupied (slot s i)) as [[p o]|].
        - intros [= <- _ _]. unfold vec_frame; simpl.
          by rewrite !length_insert.
        - intros [= <- _ _]. apply vec_frame_refl. }
      destruct (destroy_loop_run (seq first (size_ v - first))
                  (set_cache c0 b0 v)) as (v1' & t1' & Hloop').
      rewrite Hloop' in Hloop. injection Hloop as <- <- <-.
      rewrite run_bind. unfold ret at 1.
      destruct (erase_tail_run (size_ v - first) first v1') as (w' & -> & Hs).
      eexists _, _. split; [reflexivity|]. simpl in Hs1. lia.
Qed.

End vector_erase.

Lemma erase_shift_unsupported_witness :
  (∃ c b,
     PolyVector.erase 3 1 2
       (vec_of [(ImmovableDerived1, 1); (ImmovableDerived1, 2);
                (ImmovableDerived1, 3)])
     = (PolyVector.set_cache c b
          (vec_of [(ImmovableDerived1, 1); (ImmovableDerived1, 2);
                   (ImmovableDerived1, 3)]),
        [], inl ShiftUnsupported))
  ∧ outcome (PolyVector.erase 3 2 3
               (vec_of [(ImmovableDerived1, 1); (ImmovableDerived1, 2);
                        (ImmovableDerived1, 3)])) = inr 2.
Proof.
  split.
  - apply (erase_shift_unsupported 3 1 2); [lia|vm_compute; lia|reflexivity].
  - destruct (erase_shift_unsupported 3 2 3
                (vec_of [(ImmovableDerived1, 1); (ImmovableDerived1, 2);
                         (ImmovableDerived1, 3)])) as (_ & _ & H & _).
    destruct H as (v' & t & H & _); [vm_compute; lia|].
    change (PolyVector.size_ _) with 3 in H. by rewrite H.
Defined.

(** C3. The header run on a vector [[a, b]] whose occupants have a copy
    constructor and a deleted move constructor.  Its invariant holds, both
    occupants are copy-constructible and [safe_move_construct] relocates
    them through its copy fallback; yet [erase(begin(), begin() + 1)]
    throws "cannot shift elements: contained types are neither movable nor
    copyable" and removes nothing, because the guard reads the move flag
    alone.  The sibling [emplace(begin(), ...)] shifts the very same
    occupants and returns, and the [shift_left] that [erase] would have
    run after destroying [a] completes and leaves [b] at position 0. *)
Theorem erase_refuses_copy_constructible_occupants :
  let v := vec_of [(CopyOnly, 1); (CopyOnly, 2)] in
  let w := final (for_each (seq 0 1) PolyVector.destroy_at v) in
  vec_inv 3 v
  ∧ vec_dense v
  ∧ vec_occupants v = [Some (get_type_ops CopyOnly, obj 1);
                       Some (get_type_ops CopyOnly, obj 2)]
  ∧ is_copy_constructible (get_type_ops CopyOnly) = true
  ∧ relocatable (get_type_ops CopyOnly) = true
  ∧ safe_move_construct (obj 0) (obj 2) (get_type_ops CopyOnly)
    = inr (obj 2, obj 2)
  ∧ PolyVector.can_move_ v = false
  ∧ (∃ c b, PolyVector.erase 3 0 1 v
            = (PolyVector.set_cache c b v, [], inl ShiftUnsupported))
  ∧ outcome (PolyVector.emplace 3 0 (get_type_ops CopyOnly) (inr (obj 3)) v)
    = inr 0
  ∧ vec_occupants
      (final (PolyVector.emplace 3 0 (get_type_ops CopyOnly) (inr (obj 3)) v))
    = [Some (get_type_ops CopyOnly, obj 3);
       Some (get_type_ops CopyOnly, obj 1);
       Some (get_type_ops CopyOnly, obj 2)]
  ∧ outcome (PolyVector.shift_left 1 1 w) = inr tt
  ∧ vec_occupant (final (PolyVector.shift_left 1 1 w)) 0
    = Some (get_type_ops CopyOnly, obj 2).
Proof.
  cbv zeta.
  split; [|split; [|do 5 (split; [reflexivity|]); split;
    [|do 3 (split; [reflexivity|]); reflexivity]]].
  - split; [done|]. split; [done|]. split; [vm_compute; lia|]. split.
    + intros [|[|[|i]]].
      * right. eexists. split; [reflexivity|]. vm_compute. lia.
      * right. eexists. split; [reflexivity|]. vm_compute. lia.
      * by left.
      * by left.
    + intros [|[|[|i]]] Hi; try done; vm_compute in Hi; lia.
  - intros [|[|i]] Hi; [by eexists|by eexists|vm_compute in Hi; lia].
  - eexists _, _. vm_compute. reflexivity.
Qed.

(** ** A constructor that throws during an insertion with shift *)

(** C2. The header run on the scenario of its own test "failed emplace in
    middle": a vector [[a, b]] satisfying the invariant, an [emplace] at
    index 1 whose constructor throws.  The exception is propagated, the
    size stays 2, but slot 1 is left empty inside the logical range and
    [b] is stranded in slot 2, beyond it: the invariant no longer holds,
    and a later [clear()] never destroys [b]. *)
Theorem emplace_throwing_constructor_breaks_invariant :
  let v := vec_of [(Label, 1); (Label, 2)] in
  let r := PolyVector.emplace 3 1 (get_type_ops Label)
             (inl (runtime_error "Construction failed"%string)) v in
  vec_dense v
  ∧ vec_inv 3 v
  ∧ outcome r = inl (propagated (runtime_error "Construction failed"%string))
  ∧ PolyVector.size_ (final r) = 2
  ∧ occupied (PolyVector.slot (final r) 1) = None
  ∧ occupied (PolyVector.slot (final r) 2) = Some (2, get_type_ops Label)
  ∧ ¬ vec_dense (final r)
  ∧ ¬ vec_inv 3 (final r)
  ∧ trace (PolyVector.clear (final r)) = [ev_destroy self 0]
  ∧ occupied (PolyVector.slot (final (PolyVector.clear (final r))) 2)
    = Some (2, get_type_ops Label).
Proof.
  cbv zeta. split; [|split; [|split; [|split; [|split; [|split;
    [|split; [|split; [|split]]]]]]]]; try reflexivity.
  - intros [|[|i]] Hi; [by eexists|by eexists|vm_compute in Hi; lia].
  - split; [done|]. split; [done|]. split; [vm_compute; lia|]. split.
    + intros [|[|[|i]]].
      * right. eexists. split; [reflexivity|]. vm_compute. lia.
      * right. eexists. split; [reflexivity|]. vm_compute. lia.
      * by left.
      * by left.
    + intros [|[|[|i]]] Hi; try done; vm_compute in Hi; lia.
  - intros H. destruct (H 1) as (o & Ho); [vm_compute; lia|]. discriminate Ho.
  - intros (_ & _ & _ & _ & H). specialize (H 2).
    assert (occupied (PolyVector.slot
              (final (PolyVector.emplace 3 1 (get_type_ops Label)
                        (inl (runtime_error "Construction failed"%string))
                        (vec_of [(Label, 1); (Label, 2)]))) 2) = None) as Hn.
    { rewrite H; [done|]. vm_compute. lia. }
    discriminate Hn.
Qed.

(** C8. The header run on a state that a failed insertion in the middle
    leaves behind: a vector [[a, b]], an [emplace] at index 1 whose
    constructor throws, then [clear()].  The call returns, sets the size
    to 0 and the flags to [can_copy_ == false], [can_move_ == true], and
    destroys [a]; but [b], stranded in slot 2 beyond the logical range,
    is not visited: its destructor is not called and its slot record is
    not reset. *)
Theorem clear_after_failed_emplace_skips_occupant :
  let v := vec_of [(Label, 1); (Label, 2)] in
  let s := final (PolyVector.emplace 3 1 (get_type_ops Label)
                    (inl (runtime_error "Construction failed"%string)) v) in
  let r := PolyVector.clear s in
  vec_inv 3 v
  ∧ outcome (PolyVector.emplace 3 1 (get_type_ops Label)
               (inl (runtime_error "Construction failed"%string)) v)
    = inl (propagated (runtime_error "Construction failed"%string))
  ∧ PolyVector.size_ s = 2
  ∧ occupied <$> (PolyVector.slot s <$> seq 0 3)
    = [Some (0, get_type_ops Label); None; Some (2, get_type_ops Label)]
  ∧ outcome r = inr tt
  ∧ PolyVector.size_ (final r) = 0
  ∧ PolyVector.can_copy_ (final r) = false
  ∧ PolyVector.can_move_ (final r) = true
  ∧ trace r = [ev_destroy self 0]
  ∧ PolyVector.slot (final r) <$> seq 0 3
    = [empty_slot; empty_slot;
       {| ptr := Some 2; ops := Some (get_type_ops Label) |}]
  ∧ PolyVector.slot (final r) 2 ≠ empty_slot
  ∧ trace r
    ≠ destroy_calls (PolyVector.slot s <$> seq 0 3).
Proof.
  cbv zeta. split; [|do 9 (split; [reflexivity|]); split; [done|]].
  - split; [done|]. split; [done|]. split; [vm_compute; lia|]. split.
    + intros [|[|[|i]]].
      * right. eexists. split; [reflexivity|]. vm_compute. lia.
      * right. eexists. split; [reflexivity|]. vm_compute. lia.
      * by left.
      * by left.
    + intros [|[|[|i]]] Hi; try done; vm_compute in Hi; lia.
  - intros H. vm_compute in H. discriminate H.
Qed.

(** ** [clear] *)

Lemma arr_length_slots_set_slot (a : PolyArray.poly_array) (i : nat)
    (s : slot_info) :
  length (PolyArray.slots_ (PolyArray.set_slot i s a))
  = length (PolyArray.slots_ a).
Proof. apply length_insert. Qed.

Lemma arr_length_storage_store (a : PolyArray.poly_array) (p : nat) (c : cell) :
  length (PolyArray.storage_ (PolyArray.store p c a))
  = length (PolyArray.storage_ a).
Proof. apply length_insert. Qed.

Ltac arr_simpl :=
  repeat first
    [ progress change (PolyArray.slot (PolyArray.store ?a ?b ?w))
        with (PolyArray.slot w)
    | progress change (PolyArray.load (PolyArray.set_slot ?a ?b ?w))
        with (PolyArray.load w)
    | progress change (PolyArray.slots_ (PolyArray.store ?a ?b ?w))
        with (PolyArray.slots_ w)
    | progress change (PolyArray.storage_ (PolyArray.set_slot ?a ?b ?w))
        with (PolyArray.storage_ w)
    | rewrite arr_length_slots_set_slot
    | rewrite arr_length_storage_store
    | rewrite arr_slot_set_slot
    | rewrite arr_load_store ].

Section array_clear.
Import PolyArray.
Variable N : nat.

Lemma arr_slot_ok_ext (a b : poly_array) (i : nat) :
  slot b i = slot a i → load b i = load a i →
  arr_slot_ok a i → arr_slot_ok b i.
Proof. unfold arr_slot_ok. intros -> ->. done. Qed.

Lemma arr_clear_range (from k : nat) (a : poly_array) :
  (∀ i, arr_slot_ok a i) →
  ∃ a' t,
    for_each (seq from k) clear_step a = (a', t, inr tt)
    ∧ length (slots_ a') = length (slots_ a)
    ∧ length (storage_ a') = length (storage_ a)
    ∧ (∀ i, arr_slot_ok a' i)
    ∧ (∀ i, from ≤ i < from + k → slot a' i = empty_slot)
    ∧ (∀ i, ¬ (from ≤ i < from + k) →
         slot a' i = slot a i ∧ load a' i = load a i)
    ∧ t = destroy_calls (slot a <$> seq from k).
Proof.
  revert from a. induction k as [|k IH]; intros from a Hok.
  - exists a, []. simpl. do 4 (split; [done|]). split; [intros; lia|]. done.
  - cbn [seq for_each]. rewrite run_bind, arr_clear_step_run.
    set (a1 := match occupied (slot a from) with
               | Some (p, o) =>
                   set_slot from empty_slot
                     (store p (safe_destroy (load a p) o) a)
               | None => a
               end).
    assert (length (slots_ a1) = length (slots_ a)
            ∧ length (storage_ a1) = length (storage_ a)
            ∧ slot a1 from = empty_slot
            ∧ ∀ i, i ≠ from → slot a1 i = slot a i ∧ load a1 i = load a i)
      as (Hl1 & Hl1' & Ha1 & Hun1).
    { unfold a1. destruct (Hok from) as [He|(o & Ho & Hfit)].
      - rewrite He. simpl. done.
      - rewrite Ho. simpl. split; [|split; [|split]].
        + by rewrite !length_insert.
        + by rewrite !length_insert.
        + arr_simpl. case_decide; [done|].
          rewrite arr_slot_ge in Ho by lia. done.
        + intros i Hi. arr_simpl. repeat (case_decide; [lia|]). done. }
    assert (∀ i, arr_slot_ok a1 i) as Hok1.
    { intros i. destruct (decide (i = from)) as [->|Hn]; [by left|].
      destruct (Hun1 i Hn) as [Hs Hl]. by apply (arr_slot_ok_ext a). }
    destruct (IH (S from) a1 Hok1)
      as (a' & t' & Hrun & Hl & Hl' & Hok' & Hin & Hout & Ht).
    exists a', (destroy_calls [slot a from] ++ t').
    split.
    { unfold destroy_calls at 1. simpl. rewrite app_nil_r.
      clear -Hrun. subst a1.
      destruct (occupied (slot a from)) as [[p o]|]; simpl; by rewrite Hrun. }
    split; [lia|]. split; [lia|]. split; [done|]. split; [|split].
    + intros i Hi. destruct (decide (i = from)) as [->|Hn].
      * destruct (Hout from) as [-> _]; [lia|done].
      * apply Hin. lia.
    + intros i Hi. destruct (Hout i) as [-> ->]; [lia|]. apply Hun1. lia.
    + rewrite fmap_cons.
      rewrite (destroy_calls_cons (slot a from) (slot a <$> seq (S from) k)).
      f_equal. rewrite Ht. f_equal. apply fmap_seq_ext.
      intros i Hi. apply Hun1. lia.
Qed.

Lemma arr_clear_range_any (from k : nat) (a : poly_array) :
  ∃ a' t,
    for_each (seq from k) clear_step a = (a', t, inr tt)
    ∧ (∀ i, from ≤ i < from + k → occupied (slot a' i) = None)
    ∧ (∀ i, ¬ (from ≤ i < from + k) → slot a' i = slot a i)
    ∧ t = destroy_calls (slot a <$> seq from k).
Proof.
  revert from a. induction k as [|k IH]; intros from a.
  - exists a, []. simpl. split; [done|]. split; [intros; lia|]. done.
  - cbn [seq for_each]. rewrite run_bind, arr_clear_step_run.
    set (a1 := match occupied (slot a from) with
               | Some (p, o) =>
                   set_slot from empty_slot
                     (store p (safe_destroy (load a p) o) a)
               | None => a
               end).
    assert (occupied (slot a1 from) = None
            ∧ ∀ i, i ≠ from → slot a1 i = slot a i) as (Ha1 & Hun1).
    { unfold a1. destruct (occupied (slot a from)) as [[p o]|] eqn:Ho.
      - split.
        + arr_simpl. case_decide; [done|].
          rewrite arr_slot_ge in Ho by lia. done.
        + intros i Hi. arr_simpl. case_decide; [lia|done].
      - done. }
    destruct (IH (S from) a1) as (a' & t' & Hrun & Hin & Hout & Ht).
    exists a', (destroy_calls [slot a from] ++ t').
    split.
    { unfold destroy_calls at 1. simpl. rewrite app_nil_r.
      clear -Hrun. subst a1.
      destruct (occupied (slot a from)) as [[p o]|]; simpl; by rewrite Hrun. }
    split; [|split].
    + intros i Hi. destruct (decide (i = from)) as [->|Hn].
      * rewrite Hout by lia. done.
      * apply Hin. lia.
    + intros i Hi. rewrite Hout by lia. apply Hun1. lia.
    + rewrite fmap_cons.
      rewrite (destroy_calls_cons (slot a from) (slot a <$> seq (S from) k)).
      f_equal. rewrite Ht. f_equal. apply fmap_seq_ext.
      intros i Hi. apply Hun1. lia.
Qed.

Lemma arr_slots_as_seq (a : poly_array) :
  slot a <$> seq 0 (length (slots_ a)) = slots_ a.
Proof.
  apply list_eq. intros i. rewrite list_lookup_fmap.
  destruct (decide (i < length (slots_ a))) as [Hlt|Hge].
  - rewrite lookup_seq_lt by done. simpl. unfold slot.
    destruct (lookup_lt_is_Some_2 (slots_ a) i Hlt) as [s Hs].
    by rewrite Hs.
  - rewrite lookup_seq_ge by lia. rewrite lookup_ge_None_2 by lia. done.
Qed.

End array_clear.

Lemma vec_slots_as_seq (v : PolyVector.poly_vector) :
  PolyVector.slot v <$> seq 0 (length (PolyVector.slots_ v))
  = PolyVector.slots_ v.
Proof.
  apply list_eq. intros i. rewrite list_lookup_fmap.
  destruct (decide (i < length (PolyVector.slots_ v))) as [Hlt|Hge].
  - rewrite lookup_seq_lt by done. simpl. unfold PolyVector.slot.
    destruct (lookup_lt_is_Some_2 (PolyVector.slots_ v) i Hlt) as [s Hs].
    by rewrite Hs.
  - rewrite lookup_seq_ge by lia. rewrite lookup_ge_None_2 by lia. done.
Qed.

Lemma destroy_calls_app (l1 l2 : list slot_info) :
  destroy_calls (l1 ++ l2) = destroy_calls l1 ++ destroy_calls l2.
Proof. unfold destroy_calls. apply bind_app. Qed.

Lemma destroy_calls_unoccupied (l : list slot_info) :
  (∀ s, s ∈ l → occupied s = None) → destroy_calls l = [].
Proof.
  induction l as [|s l IH]; intros H; [done|].
  rewrite destroy_calls_cons, IH.
  - unfold destroy_calls. cbn [mbind list_bind].
    rewrite (H s) by apply list_elem_of_here. done.
  - intros s' Hs'. apply H. by apply list_elem_of_further.
Qed.

(** X29. What [clear()] does in every state, and what it achieves under
    the structural invariant.  In every state it returns, calls the
    destructor of every occupied slot it visits (the logical range
    [[0, size)] of a vector, all [N] slots of an array) exactly once and
    in slot order, leaves none of those slots occupied, and resets the
    flags to [can_copy_ == false], [can_move_ == true] (and [size_] to 0
    in a vector).  On a container satisfying its structural invariant the
    slots visited are all the occupied ones, so that every occupant of the
    container is destroyed exactly once, and every slot record is empty
    afterwards. *)
Theorem clear_resets (Capacity N : nat) :
  (∀ v : PolyVector.poly_vector,
     outcome (PolyVector.clear v) = inr tt
     ∧ PolyVector.size_ (final (PolyVector.clear v)) = 0
     ∧ PolyVector.can_copy_ (final (PolyVector.clear v)) = false
     ∧ PolyVector.can_move_ (final (PolyVector.clear v)) = true
     ∧ trace (PolyVector.clear v)
       = destroy_calls (PolyVector.slot v <$> seq 0 (PolyVector.size_ v))
     ∧ (∀ i, i < PolyVector.size_ v →
          occupied (PolyVector.slot (final (PolyVector.clear v)) i) = None)
     ∧ (vec_inv Capacity v →
        trace (PolyVector.clear v) = destroy_calls (PolyVector.slots_ v)
        ∧ ∀ i, PolyVector.slot (final (PolyVector.clear v)) i = empty_slot))
  ∧ (∀ a : PolyArray.poly_array,
     outcome (PolyArray.clear N a) = inr tt
     ∧ PolyArray.can_copy_ (final (PolyArray.clear N a)) = false
     ∧ PolyArray.can_move_ (final (PolyArray.clear N a)) = true
     ∧ trace (PolyArray.clear N a)
       = destroy_calls (PolyArray.slot a <$> seq 0 N)
     ∧ (∀ i, i < N →
          occupied (PolyArray.slot (final (PolyArray.clear N a)) i) = None)
     ∧ (arr_inv N a →
        trace (PolyArray.clear N a) = destroy_calls (PolyArray.slots_ a)
        ∧ ∀ i, PolyArray.slot (final (PolyArray.clear N a)) i = empty_slot)).
Proof.
  split.
  - intros v. destruct (clear_run v) as (w & t & Hloop & ->).
    do 4 (split; [done|]).
    destruct (destroy_range_any 0 (PolyVector.size_ v) v)
      as (w' & t' & Hrun & Hin & Hout & Ht).
    rewrite Hrun in Hloop. injection Hloop as <- <-.
    split; [done|]. split.
    + intros i Hi. unfold final. simpl.
      change (occupied (PolyVector.slot w' i) = None). apply Hin. lia.
    + intros (Hls & Hlc & Hsz & Hok & Hbeyond). split.
      { unfold trace. simpl. rewrite Ht.
        rewrite <- (vec_slots_as_seq v), Hls.
        replace Capacity
          with (PolyVector.size_ v + (Capacity - PolyVector.size_ v)) at 1
          by lia.
        rewrite seq_app, fmap_app, destroy_calls_app.
        rewrite (destroy_calls_unoccupied (_ <$> seq (0 + _) _));
          [by rewrite app_nil_r|].
        intros x Hx. apply list_elem_of_fmap in Hx as (i & -> & Hi).
        apply elem_of_seq in Hi. rewrite Hbeyond by lia. done. }
      intros i. unfold final. simpl.
      change (PolyVector.slot w' i = empty_slot).
      destruct (decide (i < PolyVector.size_ v)) as [Hlt|Hge].
      * destruct (destroy_range 0 (PolyVector.size_ v) v Hok)
          as (w2 & t2 & Hrun2 & _ & _ & Hin2 & _).
        rewrite Hrun in Hrun2. injection Hrun2 as <- _. apply Hin2. lia.
      * rewrite Hout by lia. apply Hbeyond. lia.
  - intros a. destruct (arr_clear_run N a) as (w & t & Hloop & ->).
    do 3 (split; [done|]).
    destruct (arr_clear_range_any 0 N a)
      as (w' & t' & Hrun & Hin & Hout & Ht).
    rewrite Hrun in Hloop. injection Hloop as <- <-.
    split; [done|]. split.
    + intros i Hi. unfold final. simpl.
      change (occupied (PolyArray.slot w' i) = None). apply Hin. lia.
    + intros (Hls & Hlc & Hok).
      destruct (arr_clear_range 0 N a Hok)
        as (w2 & t2 & Hrun2 & Hl & _ & _ & Hin2 & _ & _).
      rewrite Hrun in Hrun2. injection Hrun2 as <- _.
      split.
      * unfold trace. simpl. rewrite Ht, <- Hls. by rewrite arr_slots_as_seq.
      * intros i. unfold final. simpl.
        change (PolyArray.slot w' i = empty_slot).
        destruct (decide (i < N)) as [Hlt|Hge].
        -- apply Hin2. lia.
        -- apply arr_slot_ge. lia.
Qed.

Lemma sample_arr_inv : arr_inv 3 (arr_of [(0, Canvas, 1); (2, Label, 2)]).
Proof.
  split; [done|]. split; [done|].
  intros [|[|[|i]]].
  - right. eexists. split; [reflexivity|]. vm_compute. lia.
  - by left.
  - right. eexists. split; [reflexivity|]. vm_compute. lia.
  - by left.
Qed.

Lemma clear_resets_witness :
  PolyVector.slot (final (PolyVector.clear (vec_of [(Label, 1); (Canvas, 2)]))) 1
    = empty_slot
  ∧ trace (PolyArray.clear 3 (arr_of [(0, Canvas, 1); (2, Label, 2)]))
    = [ev_destroy self 0; ev_destroy self 2]
  ∧ PolyArray.slot (final (PolyArray.clear 3 (arr_of [(0, Canvas, 1); (2, Label, 2)]))) 2
    = empty_slot.
Proof.
  destruct (clear_resets 3 3) as [Hv Ha].
  destruct (Hv (vec_of [(Label, 1); (Canvas, 2)]))
    as (_ & _ & _ & _ & _ & _ & Hv').
  destruct (Ha (arr_of [(0, Canvas, 1); (2, Label, 2)]))
    as (_ & _ & _ & _ & _ & Ha').
  destruct (Ha' sample_arr_inv) as [Ht' Hs'].
  split; [apply (proj2 (Hv' sample_vec_inv))|].
  split; [by rewrite Ht'|apply Hs'].
Defined.

(** ** Whole-container move *)

Section vector_move.
Import PolyVector.
Variables Capacity SlotSize : nat.

Lemma move_from_step_run (i : nat) (this other : poly_vector) :
  move_from_step i (this, other) =
    match occupied (slot other i) with
    | None => ((this, other), [], inr tt)
    | Some (_, o) =>
        match safe_move_construct (load this i) (load other i) o with
        | inl e => ((this, other), [], inl e)
        | inr (d, s) =>
            let this1 := set_slot i {| ptr := Some i; ops := ops (slot other i) |}
                           (store i d this) in
            match destroy_at i (store i s other) with
            | (other2, t, r) => ((this1, other2), retag <$> t, r)
            end
        end
    end.
Proof.
  unfold move_from_step, get_storage_slot. munfold.
  destruct (occupied (slot other i)) as [[p o]|]; [|done].
  destruct (safe_move_construct _ _ o) as [e|[d s]]; [done|].
  simpl. by destruct (destroy_at i (store i s other)) as [[other2 t] r].
Qed.

Lemma move_from_loop (from k : nat) (this other : poly_vector) :
  (∀ i, vec_slot_ok other i) →
  (∀ i p o, from ≤ i < from + k → occupied (slot other i) = Some (p, o) →
     faithful_move o) →
  from + k ≤ length (slots_ this) → from + k ≤ length (storage_ this) →
  from + k ≤ length (slots_ other) → from + k ≤ length (storage_ other) →
  (∀ i, from ≤ i < from + k → slot this i = empty_slot) →
  ∃ this' other' t,
    for_each (seq from k) move_from_step (this, other)
      = ((this', other'), t, inr tt)
    ∧ vec_frame this this' ∧ vec_frame other other'
    ∧ (∀ i, from ≤ i < from + k →
         vec_moved other i this' i ∧ slot other' i = empty_slot)
    ∧ (∀ i, ¬ (from ≤ i < from + k) →
         slot this' i = slot this i ∧ load this' i = load this i
         ∧ slot other' i = slot other i ∧ load other' i = load other i).
Proof.
  revert from this other.
  induction k as [|k IH];
    intros from this other Hok Hfaith Hlt Hlt' Hlo Hlo' Hempty.
  - exists this, other, []. simpl. split; [done|].
    split; [apply vec_frame_refl|]. split; [apply vec_frame_refl|].
    split; [intros; lia|done].
  - cbn [seq for_each]. rewrite run_bind, move_from_step_run.
    assert (∃ this1 other1 t1,
      match occupied (slot other from) with
      | None => ((this, other), [], inr tt)
      | Some (_, o) =>
          match safe_move_construct (load this from) (load other from) o with
          | inl e => ((this, other), [], inl e)
          | inr (d, s) =>
              let this1 := set_slot from {| ptr := Some from;
                                            ops := ops (slot other from) |}
                             (store from d this) in
              match destroy_at from (store from s other) with
              | (other2, t, r) => ((this1, other2), retag <$> t, r)
              end
          end
      end = ((this1, other1), t1, inr tt)
      ∧ vec_frame this this1 ∧ vec_frame other other1
      ∧ vec_moved other from this1 from ∧ slot other1 from = empty_slot
      ∧ (∀ i, i ≠ from →
           slot this1 i = slot this i ∧ load this1 i = load this i
           ∧ slot other1 i = slot other i ∧ load other1 i = load other i))
      as (this1 & other1 & t1 & -> & Hft & Hfo & Hmv & Hsrc & Hun).
    { unfold vec_moved. destruct (Hok from) as [He|(o & Ho & Hfit)].
      - rewrite He. simpl. exists this, other, [].
        split; [done|]. split; [apply vec_frame_refl|].
        split; [apply vec_frame_refl|]. split; [apply Hempty; lia|].
        done.
      - assert (occupied (slot other from) = Some (from, o)) as Hocc
          by (by rewrite Ho).
        rewrite Hocc.
        destruct (Hfaith from from o ltac:(lia) Hocc
                    (load this from) (load other from) Hfit)
          as (d & s & -> & Hfd & Hrepr).
        cbv zeta. rewrite destroy_at_run.
        change (slot (store from s other) from) with (slot other from).
        rewrite Hocc. rewrite Ho. simpl ops.
        eexists _, _, _. split; [reflexivity|].
        split; [|split; [|split; [|split]]].
        + unfold vec_frame; simpl. by rewrite !length_insert.
        + unfold vec_frame; simpl. by rewrite !length_insert.
        + split; [|split].
          * vec_simpl. case_decide; [done|lia].
          * vec_simpl. case_decide; [done|lia].
          * vec_simpl. case_decide; [done|lia].
        + vec_simpl. case_decide; [done|lia].
        + intros i Hi. vec_simpl. repeat (case_decide; [lia|]). done. }
    assert (∀ i, vec_slot_ok other1 i) as Hok1.
    { intros i. destruct (decide (i = from)) as [->|Hn]; [by left|].
      destruct (Hun i Hn) as (_ & _ & Hs & Hl).
      by apply (vec_slot_ok_ext other). }
    pose proof Hft as (Ht1 & Ht1' & _). pose proof Hfo as (Ho1 & Ho1' & _).
    destruct (IH (S from) this1 other1)
      as (this' & other' & t' & -> & Hft' & Hfo' & Hin & Hout);
      [done| |lia|lia|lia|lia| |].
    { intros i p o Hi. destruct (Hun i) as (_ & _ & -> & _); [lia|].
      apply Hfaith. lia. }
    { intros i Hi. destruct (Hun i) as (-> & _); [lia|]. apply Hempty. lia. }
    eexists _, _, _. split; [reflexivity|].
    split; [by apply (vec_frame_trans this this1 this')|].
    split; [by apply (vec_frame_trans other other1 other')|].
    split.
    + intros i Hi. destruct (decide (i = from)) as [->|Hn].
      * destruct (Hout from) as (Hs & Hl & -> & _); [lia|].
        split; [|done].
        by apply (vec_moved_ext other other from this1 this' from).
      * destruct (Hin i) as [Hm He]; [lia|]. split; [|done].
        destruct (Hun i Hn) as (_ & _ & Hs & Hl).
        by apply (vec_moved_ext other1 other i this' this' i).
    + intros i Hi. destruct (Hout i) as (-> & -> & -> & ->); [lia|].
      apply Hun. lia.
Qed.

Lemma move_from_run (this other : poly_vector) :
  vec_inv Capacity other → vec_faithful_from 0 other →
  length (slots_ this) = Capacity → length (storage_ this) = Capacity →
  (∀ i, slot this i = empty_slot) →
  ∃ this' other' t,
    move_from (this, other) = ((this', other'), t, inr tt)
    ∧ size_ this' = size_ other
    ∧ vec_occupants this' = vec_occupants other
    ∧ size_ other' = 0
    ∧ (∀ i, slot other' i = empty_slot)
    ∧ can_copy_ this' = can_copy_ other
    ∧ can_move_ this' = can_move_ other.
Proof.
  intros (Hls & Hlc & Hsz & Hok & Hbeyond) Hfaith Hlt Hlt' Hempty.
  destruct (move_from_loop 0 (size_ other) (set_size (size_ other) this) other)
    as (this' & other' & t & Hrun & Hft & Hfo & Hin & Hout); try done.
  { intros i p o Hi. apply Hfaith. lia. }
  { simpl. lia. } { simpl. lia. } { lia. } { lia. }
  { intros i _. apply Hempty. }
  unfold move_from. munfold. simpl. rewrite Hrun. simpl.
  eexists _, _, _. split; [reflexivity|].
  destruct Hft as (_ & _ & Hst & _). simpl in Hst.
  destruct Hfo as (_ & _ & _ & Hc & Hm & _).
  split; [done|]. split; [|split; [done|split; [|done]]].
  - unfold vec_occupants. simpl. rewrite Hst.
    apply fmap_seq_ext. intros i Hi.
    change (vec_occupant this' i = vec_occupant other i).
    apply vec_occupant_moved; [apply Hok|]. apply Hin. lia.
  - intros i. change (slot other' i = empty_slot).
    destruct (decide (i < size_ other)) as [Hlt2|Hge].
    + apply Hin. lia.
    + destruct (Hout i) as (_ & _ & -> & _); [lia|]. apply Hbeyond. lia.
Qed.

Lemma default_constructed_empty :
  length (slots_ (default_constructed Capacity SlotSize)) = Capacity
  ∧ length (storage_ (default_constructed Capacity SlotSize)) = Capacity
  ∧ ∀ i, slot (default_constructed Capacity SlotSize) i = empty_slot.
Proof.
  simpl. rewrite !length_replicate. split; [done|]. split; [done|].
  intros i. unfold slot. simpl.
  destruct (decide (i < Capacity)).
  - by rewrite lookup_replicate_2.
  - by rewrite lookup_ge_None_2 by (rewrite length_replicate; lia).
Qed.

Lemma clear_empties (v : poly_vector) :
  vec_inv Capacity v →
  ∃ v' t, clear v = (v', t, inr tt)
    ∧ length (slots_ v') = Capacity ∧ length (storage_ v') = Capacity
    ∧ ∀ i, slot v' i = empty_slot.
Proof.
  intros (Hls & Hlc & Hsz & Hok & Hbeyond).
  destruct (clear_run v) as (w & t & Hloop & ->).
  destruct (destroy_range 0 (size_ v) v Hok)
    as (w' & t' & Hrun & Hfr & _ & Hin & Hout & _).
  rewrite Hrun in Hloop. injection Hloop as <- <-.
  destruct Hfr as (Hl & Hl' & _).
  eexists _, _. split; [reflexivity|]. simpl.
  split; [lia|]. split; [lia|].
  intros i. change (slot w' i = empty_slot).
  destruct (decide (i < size_ v)) as [Hlt|Hge].
  - apply Hin. lia.
  - destruct (Hout i) as [-> _]; [lia|]. apply Hbeyond. lia.
Qed.

Lemma vec_move_constructor_run (other : poly_vector) :
  vec_inv Capacity other → vec_faithful_from 0 other →
  ∃ this' other' t,
    move_constructor (default_constructed Capacity SlotSize, other)
      = ((this', other'), t, inr tt)
    ∧ size_ this' = size_ other
    ∧ vec_occupants this' = vec_occupants other
    ∧ size_ other' = 0
    ∧ vec_occupants other' = [].
Proof.
  intros Hinv Hfaith.
  destruct default_constructed_empty as (Hl & Hl' & Hempty).
  destruct (move_from_run (default_constructed Capacity SlotSize) other)
    as (this' & other' & t & Hrun & Hs & Hocc & Hs' & _); try done.
  unfold move_constructor, noexcept. rewrite Hrun.
  eexists _, _, _. split; [reflexivity|].
  do 3 (split; [done|]). unfold vec_occupants. by rewrite Hs'.
Qed.

Lemma vec_move_assignment_run (this other : poly_vector) :
  vec_inv Capacity this → vec_inv Capacity other → vec_faithful_from 0 other →
  ∃ this' other' t,
    move_assignment (this, other) = ((this', other'), t, inr tt)
    ∧ size_ this' = size_ other
    ∧ vec_occupants this' = vec_occupants other
    ∧ size_ other' = 0
    ∧ vec_occupants other' = [].
Proof.
  intros Hthis Hinv Hfaith.
  destruct (clear_empties this Hthis) as (this0 & t0 & Hclear & Hl & Hl' & He).
  destruct (move_from_run this0 other)
    as (this' & other' & t & Hrun & Hs & Hocc & Hs' & _); try done.
  unfold move_assignment, noexcept. rewrite run_bind.
  unfold on_this at 1. rewrite Hclear, Hrun.
  eexists _, _, _. split; [reflexivity|].
  do 3 (split; [done|]). unfold vec_occupants. by rewrite Hs'.
Qed.

End vector_move.

Section array_move.
Import PolyArray.
Variables N SlotSize : nat.

Lemma arr_frame_refl (a : poly_array) : arr_frame a a.
Proof. by repeat split. Qed.

Lemma arr_frame_trans (a1 a2 a3 : poly_array) :
  arr_frame a1 a2 → arr_frame a2 a3 → arr_frame a1 a3.
Proof.
  unfold arr_frame. intros (?&?&?&?) (?&?&?&?). repeat split; congruence.
Qed.

Lemma arr_moved_ext (a b : poly_array) (i : nat) (a' b' : poly_array) (j : nat) :
  slot b i = slot a i → load b i = load a i →
  slot b' j = slot a' j → load b' j = load a' j →
  arr_moved a i a' j → arr_moved b i b' j.
Proof. unfold arr_moved. intros -> -> -> ->. done. Qed.

Lemma arr_occupant_moved (a a' : poly_array) (i j : nat) :
  arr_slot_ok a i → arr_moved a i a' j →
  arr_occupant a' j = arr_occupant a i.
Proof.
  unfold arr_moved, arr_occupant.
  intros [He|(o & Ho & Hfit)].
  - rewrite He. simpl. by intros ->.
  - rewrite Ho. simpl. intros (-> & _ & Hr). simpl. by rewrite Hr.
Qed.

Lemma arr_move_from_step_run (i : nat) (this other : poly_array) :
  move_from_step i (this, other) =
    match occupied (slot other i) with
    | None => ((this, other), [], inr tt)
    | Some (_, o) =>
        match safe_move_construct (load this i) (load other i) o with
        | inl e => ((this, other), [], inl e)
        | inr (d, s) =>
            let this1 := set_slot i {| ptr := Some i; ops := ops (slot other i) |}
                           (store i d this) in
            match destroy_at i (store i s other) with
            | (other2, t, r) => ((this1, other2), retag <$> t, r)
            end
        end
    end.
Proof.
  unfold move_from_step, get_storage_slot. munfold.
  destruct (occupied (slot other i)) as [[p o]|]; [|done].
  destruct (safe_move_construct _ _ o) as [e|[d s]]; [done|].
  simpl. by destruct (destroy_at i (store i s other)) as [[other2 t] r].
Qed.

Lemma arr_move_from_loop (from k : nat) (this other : poly_array) :
  (∀ i, arr_slot_ok other i) →
  (∀ i p o, from ≤ i < from + k → occupied (slot other i) = Some (p, o) →
     faithful_move o) →
  from + k ≤ length (slots_ this) → from + k ≤ length (storage_ this) →
  from + k ≤ length (slots_ other) → from + k ≤ length (storage_ other) →
  (∀ i, from ≤ i < from + k → slot this i = empty_slot) →
  ∃ this' other' t,
    for_each (seq from k) move_from_step (this, other)
      = ((this', other'), t, inr tt)
    ∧ arr_frame this this' ∧ arr_frame other other'
    ∧ (∀ i, from ≤ i < from + k →
         arr_moved other i this' i ∧ slot other' i = empty_slot)
    ∧ (∀ i, ¬ (from ≤ i < from + k) →
         slot this' i = slot this i ∧ load this' i = load this i
         ∧ slot other' i = slot other i ∧ load other' i = load other i).
Proof.
  revert from this other.
  induction k as [|k IH];
    intros from this other Hok Hfaith Hlt Hlt' Hlo Hlo' Hempty.
  - exists this, other, []. simpl. split; [done|].
    split; [apply arr_frame_refl|]. split; [apply arr_frame_refl|].
    split; [intros; lia|done].
  - cbn [seq for_each]. rewrite run_bind, arr_move_from_step_run.
    assert (∃ this1 other1 t1,
      match occupied (slot other from) with
      | None => ((this, other), [], inr tt)
      | Some (_, o) =>
          match safe_move_construct (load this from) (load other from) o with
          | inl e => ((this, other), [], inl e)
          | inr (d, s) =>
              let this1 := set_slot from {| ptr := Some from;
                                            ops := ops (slot other from) |}
                             (store from d this) in
              match destroy_at from (store from s other) with
              | (other2, t, r) => ((this1, other2), retag <$> t, r)
              end
          end
      end = ((this1, other1), t1, inr tt)
      ∧ arr_frame this this1 ∧ arr_frame other other1
      ∧ arr_moved other from this1 from ∧ slot other1 from = empty_slot
      ∧ (∀ i, i ≠ from →
           slot this1 i = slot this i ∧ load this1 i = load this i
           ∧ slot other1 i = slot other i ∧ load other1 i = load other i))
      as (this1 & other1 & t1 & -> & Hft & Hfo & Hmv & Hsrc & Hun).
    { unfold arr_moved. destruct (Hok from) as [He|(o & Ho & Hfit)].
      - rewrite He. simpl. exists this, other, [].
        split; [done|]. split; [apply arr_frame_refl|].
        split; [apply arr_frame_refl|]. split; [apply Hempty; lia|].
        done.
      - assert (occupied (slot other from) = Some (from, o)) as Hocc
          by (by rewrite Ho).
        rewrite Hocc.
        destruct (Hfaith from from o ltac:(lia) Hocc
                    (load this from) (load other from) Hfit)
          as (d & s & -> & Hfd & Hrepr).
        cbv zeta. rewrite arr_destroy_at_run.
        change (slot (store from s other) from) with (slot other from).
        rewrite Hocc. rewrite Ho. simpl ops.
        eexists _, _, _. split; [reflexivity|].
        split; [|split; [|split; [|split]]].
        + unfold arr_frame; simpl. by rewrite !length_insert.
        + unfold arr_frame; simpl. by rewrite !length_insert.
        + split; [|split].
          * arr_simpl. case_decide; [done|lia].
          * arr_simpl. case_decide; [done|lia].
          * arr_simpl. case_decide; [done|lia].
        + arr_simpl. case_decide; [done|lia].
        + intros i Hi. arr_simpl. repeat (case_decide; [lia|]). done. }
    assert (∀ i, arr_slot_ok other1 i) as Hok1.
    { intros i. destruct (decide (i = from)) as [->|Hn]; [by left|].
      destruct (Hun i Hn) as (_ & _ & Hs & Hl).
      by apply (arr_slot_ok_ext other). }
    pose proof Hft as (Ht1 & Ht1' & _). pose proof Hfo as (Ho1 & Ho1' & _).
    destruct (IH (S from) this1 other1)
      as (this' & other' & t' & -> & Hft' & Hfo' & Hin & Hout);
      [done| |lia|lia|lia|lia| |].
    { intros i p o Hi. destruct (Hun i) as (_ & _ & -> & _); [lia|].
      apply Hfaith. lia. }
    { intros i Hi. destruct (Hun i) as (-> & _); [lia|]. apply Hempty. lia. }
    eexists _, _, _. split; [reflexivity|].
    split; [by apply (arr_frame_trans this this1 this')|].
    split; [by apply (arr_frame_trans other other1 other')|].
    split.
    + intros i Hi. destruct (decide (i = from)) as [->|Hn].
      * destruct (Hout from) as (Hs & Hl & -> & _); [lia|].
        split; [|done].
        by apply (arr_moved_ext other other from this1 this' from).
      * destruct (Hin i) as [Hm He]; [lia|]. split; [|done].
        destruct (Hun i Hn) as (_ & _ & Hs & Hl).
        by apply (arr_moved_ext other1 other i this' this' i).
    + intros i Hi. destruct (Hout i) as (-> & -> & -> & ->); [lia|].
      apply Hun. lia.
Qed.

Lemma arr_move_from_run (this other : poly_array) :
  arr_inv N other → arr_faithful other →
  length (slots_ this) = N → length (storage_ this) = N →
  (∀ i, slot this i = empty_slot) →
  ∃ this' other' t,
    move_from N (this, other) = ((this', other'), t, inr tt)
    ∧ (∀ i, arr_occupant this' i = arr_occupant other i)
    ∧ (∀ i, slot other' i = empty_slot)
    ∧ can_copy_ this' = can_copy_ other
    ∧ can_move_ this' = can_move_ other.
Proof.
  intros (Hls & Hlc & Hok) Hfaith Hlt Hlt' Hempty.
  destruct (arr_move_from_loop 0 N this other)
    as (this' & other' & t & Hrun & Hft & Hfo & Hin & Hout); try done;
    try (simpl; lia).
  { intros i p o Hi. apply Hfaith. }
  unfold move_from. munfold. simpl. rewrite Hrun. simpl.
  eexists _, _, _. split; [reflexivity|].
  destruct Hfo as (Hlo & _ & Hc & Hm).
  split; [|split; [|done]].
  - intros i. change (arr_occupant this' i = arr_occupant other i).
    destruct (decide (i < N)) as [Hlt2|Hge].
    + apply arr_occupant_moved; [apply Hok|]. apply Hin. lia.
    + unfold arr_occupant. destruct (Hout i) as (-> & _); [lia|].
      rewrite Hempty. rewrite (arr_slot_ge other) by lia. done.
  - intros i. destruct (decide (i < N)) as [Hlt2|Hge].
    + apply Hin. lia.
    + apply arr_slot_ge. lia.
Qed.

Lemma arr_default_constructed_empty :
  length (slots_ (default_constructed N SlotSize)) = N
  ∧ length (storage_ (default_constructed N SlotSize)) = N
  ∧ ∀ i, slot (default_constructed N SlotSize) i = empty_slot.
Proof.
  simpl. rewrite !length_replicate. split; [done|]. split; [done|].
  intros i. unfold slot. simpl.
  destruct (decide (i < N)).
  - by rewrite lookup_replicate_2.
  - by rewrite lookup_ge_None_2 by (rewrite length_replicate; lia).
Qed.

Lemma arr_clear_empties (a : poly_array) :
  arr_inv N a →
  ∃ a' t, clear N a = (a', t, inr tt)
    ∧ length (slots_ a') = N ∧ length (storage_ a') = N
    ∧ ∀ i, slot a' i = empty_slot.
Proof.
  intros (Hls & Hlc & Hok).
  destruct (arr_clear_run N a) as (w & t & Hloop & ->).
  destruct (arr_clear_range 0 N a Hok)
    as (w' & t' & Hrun & Hl & Hl' & _ & Hin & Hout & _).
  rewrite Hrun in Hloop. injection Hloop as <- <-.
  eexists _, _. split; [reflexivity|]. simpl.
  split; [lia|]. split; [lia|].
  intros i. change (slot w' i = empty_slot).
  destruct (decide (i < N)) as [Hlt|Hge].
  - apply Hin. lia.
  - apply arr_slot_ge. lia.
Qed.

End array_move.

(** C6 (amended). When every occupant of the source relocates faithfully
    (it is trivially copyable or has a move or copy constructor that
    reproduces it), the move constructor and the move assignment (between
    two distinct containers) return, the destination holds exactly the
    occupants the source held, in the same positions, and the source is
    left with [size == 0] (vector) or with every slot record empty
    (array). *)
Theorem move_empties_source (Capacity N SlotSize : nat) :
  (∀ other,
     vec_inv Capacity other → vec_faithful_from 0 other →
     ∃ this' other' t,
       PolyVector.move_constructor
         (PolyVector.default_constructed Capacity SlotSize, other)
         = ((this', other'), t, inr tt)
       ∧ PolyVector.size_ this' = PolyVector.size_ other
       ∧ vec_occupants this' = vec_occupants other
       ∧ PolyVector.size_ other' = 0
       ∧ vec_occupants other' = [])
  ∧ (∀ this other,
     vec_inv Capacity this → vec_inv Capacity other →
     vec_faithful_from 0 other →
     ∃ this' other' t,
       PolyVector.move_assignment (this, other) = ((this', other'), t, inr tt)
       ∧ PolyVector.size_ this' = PolyVector.size_ other
       ∧ vec_occupants this' = vec_occupants other
       ∧ PolyVector.size_ other' = 0
       ∧ vec_occupants other' = [])
  ∧ (∀ other,
     arr_inv N other → arr_faithful other →
     ∃ this' other' t,
       PolyArray.move_constructor N
         (PolyArray.default_constructed N SlotSize, other)
         = ((this', other'), t, inr tt)
       ∧ (∀ i, arr_occupant this' i = arr_occupant other i)
       ∧ (∀ i, PolyArray.slot other' i = empty_slot))
  ∧ (∀ this other,
     arr_inv N this → arr_inv N other → arr_faithful other →
     ∃ this' other' t,
       PolyArray.move_assignment N (this, other)
         = ((this', other'), t, inr tt)
       ∧ (∀ i, arr_occupant this' i = arr_occupant other i)
       ∧ (∀ i, PolyArray.slot other' i = empty_slot)).
Proof.
  split; [|split; [|split]].
  - intros other. apply vec_move_constructor_run.
  - intros this other. apply vec_move_assignment_run.
  - intros other Hinv Hfaith.
    destruct (arr_default_constructed_empty N SlotSize) as (Hl & Hl' & He).
    destruct (arr_move_from_run N (PolyArray.default_constructed N SlotSize)
                other) as (this' & other' & t & Hrun & Hocc & Hsrc & _);
      try done.
    unfold PolyArray.move_constructor, noexcept. rewrite Hrun.
    by eexists _, _, _.
  - intros this other Hthis Hinv Hfaith.
    destruct (arr_clear_empties N this Hthis)
      as (this0 & t0 & Hclear & Hl & Hl' & He).
    destruct (arr_move_from_run N this0 other)
      as (this' & other' & t & Hrun & Hocc & Hsrc & _); try done.
    unfold PolyArray.move_assignment, noexcept. rewrite run_bind.
    unfold on_this at 1. rewrite Hclear, Hrun.
    by eexists _, _, _.
Qed.

Lemma sample_arr_faithful :
  arr_faithful (arr_of [(0, Canvas, 1); (2, Label, 2)]).
Proof.
  intros [|[|[|i]]] p o; simpl; intros [= <- <-];
    by apply faithful_bitwise_move.
Qed.

Lemma move_empties_source_witness :
  (∃ this' other',
     final (PolyVector.move_constructor
              (PolyVector.default_constructed 3 2,
               vec_of [(Label, 1); (Canvas, 2)])) = (this', other')
     ∧ vec_occupants this'
       = [Some (get_type_ops Label, obj 1); Some (get_type_ops Canvas, obj 2)]
     ∧ PolyVector.size_ other' = 0)
  ∧ (∃ this' other',
     final (PolyArray.move_assignment 3
              (arr_of [(1, Label, 3)],
               arr_of [(0, Canvas, 1); (2, Label, 2)])) = (this', other')
     ∧ arr_occupant this' 0 = Some (get_type_ops Canvas, obj 1)
     ∧ arr_occupant this' 1 = None
     ∧ PolyArray.slot other' 0 = empty_slot).
Proof.
  destruct (move_empties_source 3 3 2) as (Hvc & _ & _ & Haa).
  split.
  - destruct (Hvc (vec_of [(Label, 1); (Canvas, 2)]) sample_vec_inv
                (sample_vec_faithful 0))
      as (this' & other' & t & Hrun & _ & Hocc & Hs & _).
    exists this', other'. rewrite Hrun. split; [done|].
    split; [by rewrite Hocc|done].
  - destruct (Haa (arr_of [(1, Label, 3)])
                (arr_of [(0, Canvas, 1); (2, Label, 2)]))
      as (this' & other' & t & Hrun & Hocc & Hsrc).
    + split; [done|]. split; [done|].
      intros [|[|[|i]]]; [by left| |by left|by left].
      right. eexists. split; [reflexivity|]. vm_compute. lia.
    + apply sample_arr_inv.
    + apply sample_arr_faithful.
    + exists this', other'. rewrite Hrun. split; [done|].
      rewrite !Hocc. split; [done|]. split; [done|]. apply Hsrc.
Defined.

(** C6 as stated fails: moving a vector whose occupant has neither a move
    nor a copy constructor makes [safe_move_construct] throw inside the
    [noexcept] move constructor, which calls [std::terminate]; no
    destination holding the occupant is produced. *)
Lemma move_of_immovable_terminates :
  outcome (PolyVector.move_constructor
             (PolyVector.default_constructed 3 2,
              vec_of [(ImmovableDerived1, 1)])) = inl std_terminate
  ∧ ¬ (∃ this' other' t,
       PolyVector.move_constructor
         (PolyVector.default_constructed 3 2, vec_of [(ImmovableDerived1, 1)])
         = ((this', other'), t, inr tt)
       ∧ vec_occupants this' = vec_occupants (vec_of [(ImmovableDerived1, 1)])
       ∧ PolyVector.size_ other' = 0).
Proof.
  split; [reflexivity|].
  intros (this' & other' & t & Hrun & _). discriminate Hrun.
Qed.

(** C5 as stated fails: inserting before an occupant that has neither a
    move nor a copy constructor throws "No move or copy constructor
    available" out of [shift_right]; nothing is inserted. *)
Lemma emplace_before_immovable_throws :
  outcome (PolyVector.emplace 3 0 (get_type_ops Label) (inr (obj 3))
             (vec_of [(ImmovableDerived1, 1); (ImmovableDerived1, 2)]))
    = inl NoRelocationAvailable
  ∧ ¬ (∃ v' t r,
       PolyVector.emplace 3 0 (get_type_ops Label) (inr (obj 3))
         (vec_of [(ImmovableDerived1, 1); (ImmovableDerived1, 2)])
         = (v', t, inr r)
       ∧ PolyVector.size_ v' = 3).
Proof.
  split; [reflexivity|].
  intros (v' & t & r & Hrun & _). discriminate Hrun.
Qed.

(** ** The copy flag and whole-container copy *)

Section copy_flag.
Variables Capacity N SlotSize : nat.

Lemma emplace_back_slot derived ctor (v v' : PolyVector.poly_vector) t r :
  length (PolyVector.slots_ v) = Capacity →
  PolyVector.emplace_back Capacity derived ctor v = (v', t, inr r) →
  PolyVector.size_ v < PolyVector.size_ v'
  ∧ occupied (PolyVector.slot v' (PolyVector.size_ v))
    = Some (PolyVector.size_ v, derived).
Proof.
  intros Hl H. unfold PolyVector.emplace_back in H. peel H.
  unfold get in Hstep. injection Hstep as <- _ <-.
  destruct (Nat.leb_spec Capacity (PolyVector.size_ v)) as [|Hlt]; [done|].
  peel H. unfold PolyVector.construct_at in Hstep. peel Hstep.
  unfold get in Hstep0. injection Hstep0 as <- _ <-.
  destruct (placement_new _ ctor); [done|]. peel Hstep.
  unfold modify in Hstep0. injection Hstep0 as <- _.
  unfold ret in Hstep. injection Hstep as <- _ <-.
  do 4 peel H. unfold modify in Hstep, Hstep0, Hstep1.
  injection Hstep as <- _. injection Hstep0 as <- _. injection Hstep1 as <- _.
  rewrite update_capabilities_run in Hstep2. injection Hstep2 as <- _.
  unfold ret in H. injection H as <- _ _.
  split; [simpl; lia|].
  change (occupied
            (PolyVector.slot
               (PolyVector.set_slot (PolyVector.size_ v)
                  {| ptr := Some (PolyVector.get_storage_slot
                                    (PolyVector.size_ v));
                     ops := Some derived |}
                  (PolyVector.store
                     (PolyVector.get_storage_slot (PolyVector.size_ v)) c v))
               (PolyVector.size_ v))
          = Some (PolyVector.size_ v, derived)).
  vec_simpl. case_decide; [done|lia].
Qed.

Lemma emplace_slot pos derived ctor (v v' : PolyVector.poly_vector) t r :
  length (PolyVector.slots_ v) = Capacity →
  PolyVector.emplace Capacity pos derived ctor v = (v', t, inr r) →
  pos < PolyVector.size_ v'
  ∧ occupied (PolyVector.slot v' pos) = Some (pos, derived).
Proof.
  intros Hl H. unfold PolyVector.emplace in H. peel H.
  destruct (update_ptr_cache_run Capacity v) as (c0 & b0 & Hupc).
  rewrite Hupc in Hstep. injection Hstep as <- _ _.
  peel H. unfold get in Hstep. injection Hstep as <- _ <-.
  change (PolyVector.size_ (PolyVector.set_cache c0 b0 v))
    with (PolyVector.size_ v) in H.
  destruct (Nat.ltb_spec (PolyVector.size_ v) pos) as [|Hpos]; [done|].
  destruct (Nat.leb_spec Capacity (PolyVector.size_ v)) as [|Hlt]; [done|].
  peel H.
  assert (vec_frame (PolyVector.set_cache c0 b0 v) s) as (Hls & _ & Hss & _).
  { destruct (pos <? PolyVector.size_ v).
    - by eapply shift_right_frame.
    - unfold ret in Hstep. injection Hstep as <- _ _. apply vec_frame_refl. }
  simpl in Hls, Hss.
  peel H. unfold PolyVector.construct_at in Hstep0. peel Hstep0.
  unfold get in Hstep1. injection Hstep1 as <- _ <-.
  destruct (placement_new _ ctor); [done|]. peel Hstep0.
  unfold modify in Hstep1. injection Hstep1 as <- _.
  unfold ret in Hstep0. injection Hstep0 as <- _ <-.
  do 5 peel H. unfold modify in Hstep0, Hstep1, Hstep2.
  injection Hstep0 as <- _. injection Hstep1 as <- _. injection Hstep2 as <- _.
  rewrite update_capabilities_run in Hstep3. injection Hstep3 as <- _.
  match type of Hstep4 with
  | PolyVector.update_ptr_cache _ ?w = _ =>
      destruct (update_ptr_cache_run Capacity w) as (c3 & b3 & Hupc3);
      rewrite Hupc3 in Hstep4; injection Hstep4 as <- _
  end.
  unfold ret in H. injection H as <- _ _.
  split; [simpl; lia|].
  change (occupied
            (PolyVector.slot
               (PolyVector.set_slot pos
                  {| ptr := Some (PolyVector.get_storage_slot pos);
                     ops := Some derived |}
                  (PolyVector.store (PolyVector.get_storage_slot pos) c s))
               pos)
          = Some (pos, derived)).
  vec_simpl. case_decide; [done|lia].
Qed.

Lemma arr_emplace_slot index derived ctor (a a' : PolyArray.poly_array) t r :
  length (PolyArray.slots_ a) = N →
  PolyArray.emplace N index derived ctor a = (a', t, inr r) →
  occupied (PolyArray.slot a' index) = Some (index, derived).
Proof.
  intros Hl H. unfold PolyArray.emplace in H.
  destruct (Nat.leb_spec N index) as [|Hlt]; [done|].
  do 2 peel H. unfold get in Hstep. injection Hstep as <- _ <-.
  assert (length (PolyArray.slots_ s0) = N) as Hl0.
  { destruct (ptr (PolyArray.slot a index)).
    - rewrite arr_destroy_at_run in Hstep0.
      destruct (occupied (PolyArray.slot a index)) as [[p o]|];
        injection Hstep0 as <- _; [|done].
      simpl. by rewrite length_insert.
    - unfold ret in Hstep0. by injection Hstep0 as <- _. }
  peel H. unfold get in Hstep. injection Hstep as <- _ <-.
  destruct (placement_new _ ctor); [done|].
  do 4 peel H. unfold modify in Hstep, Hstep1.
  injection Hstep as <- _. injection Hstep1 as <- _.
  rewrite arr_update_capabilities_run in Hstep2. injection Hstep2 as <- _.
  unfold PolyArray.invalidate_cache, modify in Hstep3.
  injection Hstep3 as <- _.
  unfold ret in H. injection H as <- _ _.
  change (occupied
            (PolyArray.slot
               (PolyArray.set_slot index
                  {| ptr := Some (PolyArray.get_storage_slot index);
                     ops := Some derived |}
                  (PolyArray.store (PolyArray.get_storage_slot index) c s0))
               index)
          = Some (index, derived)).
  arr_simpl. case_decide; [done|lia].
Qed.

End copy_flag.

(** C1 (amended). [is_copyable()] returns the cached flag [can_copy_]: it
    is false in a freshly default-constructed container and after
    [clear()]; after every insertion or removal that completes
    ([emplace_back], [emplace], [pop_back], [erase] of a non-empty range,
    the array's [emplace]) it is true if and only if every occupied slot's
    variant is copy-constructible; in particular it is false right after
    the insertion of a non-copyable occupant. *)
Theorem is_copyable_tracks_occupants (Capacity N SlotSize : nat) :
  PolyVector.is_copyable (PolyVector.default_constructed Capacity SlotSize)
    = false
  ∧ PolyArray.is_copyable (PolyArray.default_constructed N SlotSize) = false
  ∧ (∀ v, PolyVector.is_copyable (final (PolyVector.clear v)) = false)
  ∧ (∀ a, PolyArray.is_copyable (final (PolyArray.clear N a)) = false)
  ∧ (∀ v v' t r derived ctor,
       PolyVector.emplace_back Capacity derived ctor v = (v', t, inr r) →
       vec_copy_exact v')
  ∧ (∀ v v' t r pos derived ctor,
       PolyVector.emplace Capacity pos derived ctor v = (v', t, inr r) →
       vec_copy_exact v')
  ∧ (∀ v v' t r,
       PolyVector.pop_back v = (v', t, inr r) → vec_copy_exact v')
  ∧ (∀ v v' t r first last,
       first < last →
       PolyVector.erase Capacity first last v = (v', t, inr r) →
       vec_copy_exact v')
  ∧ (∀ a a' t r index derived ctor,
       PolyArray.emplace N index derived ctor a = (a', t, inr r) →
       arr_copy_exact a')
  ∧ (∀ v v' t r derived ctor,
       length (PolyVector.slots_ v) = Capacity →
       is_copy_constructible derived = false →
       PolyVector.emplace_back Capacity derived ctor v = (v', t, inr r) →
       PolyVector.is_copyable v' = false)
  ∧ (∀ v v' t r pos derived ctor,
       length (PolyVector.slots_ v) = Capacity →
       is_copy_constructible derived = false →
       PolyVector.emplace Capacity pos derived ctor v = (v', t, inr r) →
       PolyVector.is_copyable v' = false)
  ∧ (∀ a a' t r index derived ctor,
       length (PolyArray.slots_ a) = N →
       is_copy_constructible derived = false →
       PolyArray.emplace N index derived ctor a = (a', t, inr r) →
       PolyArray.is_copyable a' = false).
Proof.
  split; [done|]. split; [done|].
  split. { intros v. by destruct (clear_run v) as (w & t & _ & ->). }
  split. { intros a. by destruct (arr_clear_run N a) as (w & t & _ & ->). }
  split. { intros v v' t r derived ctor. apply emplace_back_copy_exact. }
  split. { intros v v' t r pos derived ctor. apply emplace_copy_exact. }
  split. { intros v v' t r. apply pop_back_copy_exact. }
  split. { intros v v' t r first last. apply erase_copy_exact. }
  split. { intros a a' t r index derived ctor. apply arr_emplace_copy_exact. }
  split; [|split].
  - intros v v' t r derived ctor Hl Hnc H.
    destruct (emplace_back_slot Capacity derived ctor v v' t r Hl H)
      as [Hlt Hocc].
    apply emplace_back_copy_exact in H.
    destruct (PolyVector.is_copyable v') eqn:Hc; [|done].
    pose proof (proj1 H Hc _ Hlt _ _ Hocc). congruence.
  - intros v v' t r pos derived ctor Hl Hnc H.
    destruct (emplace_slot Capacity pos derived ctor v v' t r Hl H)
      as [Hlt Hocc].
    apply emplace_copy_exact in H.
    destruct (PolyVector.is_copyable v') eqn:Hc; [|done].
    pose proof (proj1 H Hc _ Hlt _ _ Hocc). congruence.
  - intros a a' t r index derived ctor Hl Hnc H.
    pose proof (arr_emplace_slot N index derived ctor a a' t r Hl H) as Hocc.
    apply arr_emplace_copy_exact in H.
    destruct (PolyArray.is_copyable a') eqn:Hc; [|done].
    pose proof (proj1 H Hc _ _ _ Hocc). congruence.
Qed.

Lemma is_copyable_tracks_occupants_witness :
  PolyVector.is_copyable (vec_of [(Label, 1); (Canvas, 2)]) = false
  ∧ vec_copy_exact (final (PolyVector.pop_back (vec_of [(Label, 1); (Canvas, 2)])))
  ∧ PolyArray.is_copyable (arr_of [(0, Canvas, 1)]) = false.
Proof.
  destruct (is_copyable_tracks_occupants 3 3 2)
    as (_ & _ & _ & _ & _ & _ & Hpop & _ & _ & Hback & _ & Harr).
  split; [|split].
  - apply (Hback (vec_of [(Label, 1)]) _ [] 1 (get_type_ops Canvas)
             (inr (obj 2))); vm_compute; reflexivity.
  - apply (Hpop (vec_of [(Label, 1); (Canvas, 2)]) _ [ev_destroy self 1] tt).
    vm_compute; reflexivity.
  - apply (Harr (arr_of []) _ [] 0 0 (get_type_ops Canvas) (inr (obj 1)));
      vm_compute; reflexivity.
Defined.

(** C1 as stated fails: a freshly default-constructed vector has no
    occupied slot, yet [is_copyable()] returns false. *)
Lemma fresh_vector_reports_not_copyable :
  PolyVector.is_copyable (PolyVector.default_constructed 3 2) = false
  ∧ ¬ vec_copy_exact (PolyVector.default_constructed 3 2).
Proof.
  split; [reflexivity|]. intros [_ H].
  assert (PolyVector.is_copyable (PolyVector.default_constructed 3 2) = true)
    as Hc; [|discriminate Hc].
  apply H. intros i Hi. simpl in Hi. lia.
Qed.

Lemma safe_copy_construct_error (dst src : cell) (o : type_operations) e :
  safe_copy_construct dst src o = inl e → ∀ m, e ≠ raised (logic_error m).
Proof.
  unfold safe_copy_construct.
  destruct (copy_construct o) as [g|].
  - destruct (g dst src); [|done]. by intros [= <-].
  - destruct (is_trivially_copyable o); [done|]. by intros [= <-].
Qed.

Lemma vec_copy_from_error (s s' : PolyVector.poly_vector * PolyVector.poly_vector)
    t e :
  PolyVector.copy_from s = (s', t, inl e) → ∀ m, e ≠ raised (logic_error m).
Proof.
  destruct s as [this other]. unfold PolyVector.copy_from. munfold. simpl.
  destruct (for_each _ _ _) as [[s1 t1] [e1|[]]] eqn:Hloop.
  - intros [= _ _ <-].
    eapply (for_each_error (λ e, ∀ m, e ≠ raised (logic_error m)));
      [|exact Hloop].
    clear. intros i [this other] s' t e.
    unfold PolyVector.copy_from_step. munfold.
    destruct (occupied _) as [[p o]|]; [|done].
    destruct (safe_copy_construct _ _ o) as [e'|c] eqn:Hc; [|done].
    intros [= _ _ <-]. by eapply safe_copy_construct_error.
  - by destruct s1.
Qed.

Lemma arr_copy_from_error (N : nat)
    (s s' : PolyArray.poly_array * PolyArray.poly_array) t e :
  PolyArray.copy_from N s = (s', t, inl e) → ∀ m, e ≠ raised (logic_error m).
Proof.
  destruct s as [this other]. unfold PolyArray.copy_from. munfold. simpl.
  destruct (for_each _ _ _) as [[s1 t1] [e1|[]]] eqn:Hloop.
  - intros [= _ _ <-].
    eapply (for_each_error (λ e, ∀ m, e ≠ raised (logic_error m)));
      [|exact Hloop].
    clear. intros i [this other] s' t e.
    unfold PolyArray.copy_from_step. munfold.
    destruct (occupied _) as [[p o]|]; [|done].
    destruct (safe_copy_construct _ _ o) as [e'|c] eqn:Hc; [|done].
    intros [= _ _ <-]. by eapply safe_copy_construct_error.
  - by destruct s1.
Qed.

(** C4 (amended). The copy constructor and the copy assignment of both
    containers throw their "contains non-copyable types" error if and only
    if the source's [can_copy_] flag is false, and then nothing has been
    touched: both containers are as before and no destructor has run (the
    last two conjuncts are the self-assignment, which otherwise does
    nothing).  Whenever the flag is exact (after any completed insertion
    or removal), an occupied slot without copy support makes the flag
    false, hence the copy throws. *)
Theorem copy_requires_copy_flag (N : nat) :
  (∀ this other,
     (outcome (PolyVector.copy_constructor (this, other))
        = inl PolyVector.NotCopyable
      ↔ PolyVector.can_copy_ other = false)
     ∧ (PolyVector.can_copy_ other = false →
        PolyVector.copy_constructor (this, other)
        = ((this, other), [], inl PolyVector.NotCopyable)))
  ∧ (∀ this other,
     (outcome (PolyVector.copy_assignment (this, other))
        = inl PolyVector.NotCopyable
      ↔ PolyVector.can_copy_ other = false)
     ∧ (PolyVector.can_copy_ other = false →
        PolyVector.copy_assignment (this, other)
        = ((this, other), [], inl PolyVector.NotCopyable)))
  ∧ (∀ this other,
     (outcome (PolyArray.copy_constructor N (this, other))
        = inl PolyArray.NotCopyable
      ↔ PolyArray.can_copy_ other = false)
     ∧ (PolyArray.can_copy_ other = false →
        PolyArray.copy_constructor N (this, other)
        = ((this, other), [], inl PolyArray.NotCopyable)))
  ∧ (∀ this other,
     (outcome (PolyArray.copy_assignment N (this, other))
        = inl PolyArray.NotCopyable
      ↔ PolyArray.can_copy_ other = false)
     ∧ (PolyArray.can_copy_ other = false →
        PolyArray.copy_assignment N (this, other)
        = ((this, other), [], inl PolyArray.NotCopyable)))
  ∧ (∀ other, vec_copy_exact other → vec_has_noncopyable other →
       PolyVector.can_copy_ other = false)
  ∧ (∀ other, arr_copy_exact other → arr_has_noncopyable other →
       PolyArray.can_copy_ other = false)
  ∧ (∀ v, PolyVector.copy_assignment_self v
          = (v, [], if PolyVector.can_copy_ v then inr tt
                    else inl PolyVector.NotCopyable))
  ∧ (∀ a, PolyArray.copy_assignment_self a
          = (a, [], if PolyArray.can_copy_ a then inr tt
                    else inl PolyArray.NotCopyable)).
Proof.
  split; [|split; [|split; [|split; [|split; [|split; [|split]]]]]];
    cycle 6.
  { intros v. unfold PolyVector.copy_assignment_self. munfold.
    by destruct (PolyVector.can_copy_ v). }
  { intros a. unfold PolyArray.copy_assignment_self. munfold.
    by destruct (PolyArray.can_copy_ a). }
  - intros this other.
    assert (PolyVector.can_copy_ other = false →
            PolyVector.copy_constructor (this, other)
            = ((this, other), [], inl PolyVector.NotCopyable)) as Hthrow.
    { intros Hc. unfold PolyVector.copy_constructor. munfold. by rewrite Hc. }
    split; [|exact Hthrow]. split.
    + destruct (PolyVector.can_copy_ other) eqn:Hc; [|done].
      unfold PolyVector.copy_constructor. rewrite run_bind. unfold get at 1.
      cbv beta iota. rewrite Hc. cbn [negb].
      destruct (PolyVector.copy_from (this, other)) as [[s' t] [e|[]]] eqn:Hcf;
        simpl; [|done].
      intros [= ->]. by eapply vec_copy_from_error in Hcf.
    + intros Hc. by rewrite (Hthrow Hc).
  - intros this other.
    assert (PolyVector.can_copy_ other = false →
            PolyVector.copy_assignment (this, other)
            = ((this, other), [], inl PolyVector.NotCopyable)) as Hthrow.
    { intros Hc. unfold PolyVector.copy_assignment. munfold. by rewrite Hc. }
    split; [|exact Hthrow]. split.
    + destruct (PolyVector.can_copy_ other) eqn:Hc; [|done].
      unfold PolyVector.copy_assignment. rewrite run_bind. unfold get at 1.
      cbv beta iota. rewrite Hc. cbn [negb]. rewrite run_bind.
      unfold on_this at 1.
      destruct (clear_run this) as (w & t & _ & ->).
      destruct (PolyVector.copy_from _) as [[s' t'] [e|[]]] eqn:Hcf;
        simpl; [|done].
      intros [= ->]. by eapply vec_copy_from_error in Hcf.
    + intros Hc. by rewrite (Hthrow Hc).
  - intros this other.
    assert (PolyArray.can_copy_ other = false →
            PolyArray.copy_constructor N (this, other)
            = ((this, other), [], inl PolyArray.NotCopyable)) as Hthrow.
    { intros Hc. unfold PolyArray.copy_constructor. munfold. by rewrite Hc. }
    split; [|exact Hthrow]. split.
    + destruct (PolyArray.can_copy_ other) eqn:Hc; [|done].
      unfold PolyArray.copy_constructor. rewrite run_bind. unfold get at 1.
      cbv beta iota. rewrite Hc. cbn [negb].
      destruct (PolyArray.copy_from N (this, other))
        as [[s' t] [e|[]]] eqn:Hcf; simpl; [|done].
      intros [= ->]. by eapply arr_copy_from_error in Hcf.
    + intros Hc. by rewrite (Hthrow Hc).
  - intros this other.
    assert (PolyArray.can_copy_ other = false →
            PolyArray.copy_assignment N (this, other)
            = ((this, other), [], inl PolyArray.NotCopyable)) as Hthrow.
    { intros Hc. unfold PolyArray.copy_assignment. munfold. by rewrite Hc. }
    split; [|exact Hthrow]. split.
    + destruct (PolyArray.can_copy_ other) eqn:Hc; [|done].
      unfold PolyArray.copy_assignment. rewrite run_bind. unfold get at 1.
      cbv beta iota. rewrite Hc. cbn [negb]. rewrite run_bind.
      unfold on_this at 1.
      destruct (arr_clear_run N this) as (w & t & _ & ->).
      destruct (PolyArray.copy_from N _) as [[s' t'] [e|[]]] eqn:Hcf;
        simpl; [|done].
      intros [= ->]. by eapply arr_copy_from_error in Hcf.
    + intros Hc. by rewrite (Hthrow Hc).
  - intros other Hex (i & p & o & Hi & Ho & Hnc).
    destruct (PolyVector.can_copy_ other) eqn:Hc; [|done].
    pose proof (proj1 Hex Hc i Hi p o Ho). congruence.
  - intros other Hex (i & p & o & Ho & Hnc).
    destruct (PolyArray.can_copy_ other) eqn:Hc; [|done].
    pose proof (proj1 Hex Hc i p o Ho). congruence.
Qed.

Lemma copy_requires_copy_flag_witness :
  PolyVector.copy_constructor
    (PolyVector.default_constructed 3 2, vec_of [(Label, 1); (Canvas, 2)])
  = ((PolyVector.default_constructed 3 2, vec_of [(Label, 1); (Canvas, 2)]),
     [], inl PolyVector.NotCopyable)
  ∧ PolyArray.copy_assignment 3
      (arr_of [(1, Label, 3)], arr_of [(0, Canvas, 1)])
    = ((arr_of [(1, Label, 3)], arr_of [(0, Canvas, 1)]),
       [], inl PolyArray.NotCopyable).
Proof.
  destruct (copy_requires_copy_flag 3) as (Hvc & _ & _ & Haa & _).
  split.
  - apply Hvc. reflexivity.
  - apply Haa. reflexivity.
Defined.

(** C4 as stated fails: copying a freshly default-constructed vector
    throws the "contains non-copyable types" error although no slot of the
    source is occupied. *)
Lemma copy_of_fresh_vector_throws :
  ¬ (outcome (PolyVector.copy_constructor
                (PolyVector.default_constructed 3 2,
                 PolyVector.default_constructed 3 2))
       = inl PolyVector.NotCopyable
     ↔ vec_has_noncopyable (PolyVector.default_constructed 3 2)).
Proof.
  intros [H _]. destruct H as (i & p & o & Hi & _); [reflexivity|].
  simpl in Hi. lia.
Qed.

(** * Further properties of the code *)

(** ** The operation-table factory and the relocation helpers *)

(** X1. On a table built by [get_type_ops<T>()] the capability flags
    predict the helpers: [is_move_constructible] and
    [is_copy_constructible] are set exactly when the table holds the move,
    respectively copy, constructor; [safe_move_construct] throws its
    "No move or copy constructor available" error exactly when [T] is
    neither trivially copyable nor move- nor copy-constructible; for a
    trivially copyable [T] it is the byte copy and cannot fail; for a
    move-constructible [T] that is not trivially copyable no exception
    leaves it: it returns what [T]'s move constructor returns, and when
    that constructor throws, the [noexcept] table entry ends the program
    in [std::terminate]; [safe_copy_construct] throws its "Type is not
    copy constructible" error exactly when [T] has no copy constructor and
    is not trivially copyable, and with a copy constructor it returns or
    propagates what that constructor does. *)
Theorem factory_flags_predict_helpers (T : cpp_type) (dst src : cell) :
  (is_move_constructible (get_type_ops T) = true
   ↔ is_Some (move_construct (get_type_ops T)))
  ∧ (is_copy_constructible (get_type_ops T) = true
     ↔ is_Some (copy_construct (get_type_ops T)))
  ∧ (safe_move_construct dst src (get_type_ops T) = inl NoRelocationAvailable
     ↔ trivially_copyable T = false ∧ move_ctor T = None ∧ copy_ctor T = None)
  ∧ (trivially_copyable T = true →
     safe_move_construct dst src (get_type_ops T)
       = inr (memcpy dst src (sizeof T), src))
  ∧ (trivially_copyable T = false →
     ∀ f, move_ctor T = Some f →
       is_move_constructible (get_type_ops T) = true
       ∧ safe_move_construct dst src (get_type_ops T)
         = match f dst src with
           | inl _ => inl std_terminate
           | inr r => inr r
           end)
  ∧ (safe_copy_construct dst src (get_type_ops T)
       = inl (raised (runtime_error "Type is not copy constructible"%string))
     ↔ copy_ctor T = None ∧ trivially_copyable T = false)
  ∧ (∀ g, copy_ctor T = Some g →
       is_copy_constructible (get_type_ops T) = true
       ∧ safe_copy_construct dst src (get_type_ops T)
         = match g dst src with
           | inl e => inl (propagated e)
           | inr c => inr c
           end).
Proof.
  unfold get_type_ops, create, safe_move_construct, safe_copy_construct.
  cbn [is_move_constructible is_copy_constructible move_construct
       copy_construct is_trivially_copyable size].
  split; [rewrite bool_decide_eq_true, fmap_is_Some; done|].
  split; [apply bool_decide_eq_true|].
  split; [|split; [|split; [|split]]].
  - destruct (trivially_copyable T); [by split; [|intros (? & _)]|].
    destruct (move_ctor T) as [f|]; simpl.
    { split; [|by intros (_ & ? & _)].
      unfold noexcept_call. by destruct (f dst src). }
    destruct (copy_ctor T) as [g|]; [|done].
    split; [|by intros (_ & _ & ?)].
    by destruct (g dst src).
  - by intros ->.
  - intros -> f ->. split; [by apply bool_decide_eq_true|].
    simpl. unfold noexcept_call. by destruct (f dst src).
  - destruct (copy_ctor T) as [g|].
    + split; [|by intros [? _]]. by destruct (g dst src).
    + destruct (trivially_copyable T); [by split; [|intros [_ ?]]|done].
  - intros g ->. split; [|done]. apply bool_decide_eq_true. by eexists.
Qed.

Lemma factory_flags_predict_helpers_witness :
  safe_move_construct (obj 0) (obj 7) (get_type_ops Canvas)
    = inr (bitwise_move 2 (obj 0) (obj 7))
  ∧ safe_move_construct (obj 0) (obj 7) (get_type_ops ThrowingMove)
    = inl std_terminate.
Proof.
  pose proof (factory_flags_predict_helpers Canvas (obj 0) (obj 7))
    as (_ & _ & _ & _ & H1 & _).
  pose proof (factory_flags_predict_helpers ThrowingMove (obj 0) (obj 7))
    as (_ & _ & _ & _ & H2 & _).
  split.
  - exact (proj2 (H1 eq_refl _ eq_refl)).
  - exact (proj2 (H2 eq_refl _ eq_refl)).
Defined.

(** ** Slot layout *)

Lemma foldl_max_ge (l : list nat) (x y : nat) :
  y = x ∨ y ∈ l → y ≤ foldl Nat.max x l.
Proof.
  revert x. induction l as [|z l IH]; intros x; simpl.
  - intros [Hy|H]; [lia|]. by apply elem_of_nil in H.
  - intros [Hy|H].
    + specialize (IH (x `max` z)).
      destruct (decide (y = x `max` z)) as [He|Hne]; [apply IH; by left|].
      assert (x `max` z ≤ foldl Nat.max (x `max` z) l) as Hm.
      { clear. generalize (x `max` z). induction l as [|w l IH]; intros m;
          simpl; [done|]. etrans; [|apply IH]. lia. }
      lia.
    + apply elem_of_cons in H as [Hy|H].
      * assert (x `max` z ≤ foldl Nat.max (x `max` z) l) as Hm.
        { clear. generalize (x `max` z). induction l as [|w l IH]; intros m;
            simpl; [done|]. etrans; [|apply IH]. lia. }
        lia.
      * apply IH. by right.
Qed.

Lemma foldl_max_in (l : list nat) (x : nat) :
  foldl Nat.max x l ∈ x :: l.
Proof.
  revert x. induction l as [|z l IH]; intros x; simpl.
  - apply list_elem_of_here.
  - specialize (IH (x `max` z)). apply elem_of_cons in IH as [->|IH].
    + destruct (Nat.max_spec x z) as [[_ ->]|[_ ->]].
      * apply list_elem_of_further, list_elem_of_here.
      * apply list_elem_of_here.
    + by do 2 apply list_elem_of_further.
Qed.

Lemma std_max_ge (l : list nat) (y : nat) : y ∈ l → y ≤ std_max l.
Proof.
  destruct l as [|x l]; simpl.
  - intros H. by apply elem_of_nil in H.
  - intros H. apply foldl_max_ge. by apply elem_of_cons in H.
Qed.

Lemma std_max_in (l : list nat) : l ≠ [] → std_max l ∈ l.
Proof. destruct l as [|x l]; [done|]. intros _. apply foldl_max_in. Qed.

(** X2. The slot configuration computed from a list of variants fits each
    of them ([FitsInSlot] holds for every listed type that derives from the
    base), it is the least configuration that does, and constructing an
    object of a listed type at the start of a slot of that size stays
    within the slot: the slot keeps its length and starts with the object
    representation. *)
Theorem slot_config_fits (Types : list cpp_type) :
  (∀ T, T ∈ Types →
     FitsInSlot true T (slot_config Types).1 (slot_config Types).2 = true)
  ∧ (∀ SlotSize Alignment, Types ≠ [] →
       (∀ T, T ∈ Types → FitsInSlot true T SlotSize Alignment = true) →
       (slot_config Types).1 ≤ SlotSize
       ∧ (slot_config Types).2 ≤ Alignment)
  ∧ (∀ T obj c, T ∈ Types → length obj = sizeof T →
       length c = max_size Types →
       ∃ c', placement_new c (inr obj) = inr c'
             ∧ length c' = max_size Types
             ∧ take (sizeof T) c' = obj).
Proof.
  unfold slot_config, FitsInSlot, max_size, max_alignment. cbn [fst snd].
  split; [|split].
  - intros T HT. cbn [andb].
    apply andb_true_iff. split; apply Nat.leb_le, std_max_ge.
    + by apply (list_elem_of_fmap_2 sizeof).
    + by apply (list_elem_of_fmap_2 alignof).
  - intros S A Hne Hall.
    assert (sizeof <$> Types ≠ []) as Hs by (by destruct Types).
    assert (alignof <$> Types ≠ []) as Ha by (by destruct Types).
    apply std_max_in in Hs. apply std_max_in in Ha.
    apply list_elem_of_fmap in Hs as (T1 & -> & HT1).
    apply list_elem_of_fmap in Ha as (T2 & -> & HT2).
    pose proof (Hall T1 HT1) as H1. pose proof (Hall T2 HT2) as H2.
    cbn [andb] in H1, H2.
    apply andb_true_iff in H1 as [H1 _]. apply andb_true_iff in H2 as [_ H2].
    apply Nat.leb_le in H1. apply Nat.leb_le in H2. done.
  - intros T obj c HT Hobj Hc. unfold placement_new.
    eexists. split; [reflexivity|].
    assert (sizeof T ≤ std_max (sizeof <$> Types)) as Hle.
    { apply std_max_ge. by apply (list_elem_of_fmap_2 sizeof). }
    split.
    + rewrite length_app, length_drop. lia.
    + rewrite <- Hobj. by rewrite take_app_length.
Qed.

Lemma slot_config_fits_witness :
  FitsInSlot true Canvas (slot_config [Label; Canvas; PlainStruct]).1
    (slot_config [Label; Canvas; PlainStruct]).2 = true
  ∧ (slot_config [Label; Canvas]).1 ≤ 2.
Proof.
  destruct (slot_config_fits [Label; Canvas; PlainStruct]) as (H1 & _).
  destruct (slot_config_fits [Label; Canvas]) as (_ & H2 & _).
  split.
  - apply H1. apply list_elem_of_further, list_elem_of_here.
  - apply (H2 2 1); [done|].
    intros T HT. apply elem_of_cons in HT as [->|HT]; [reflexivity|].
    apply list_elem_of_singleton in HT as ->. reflexivity.
Defined.

(** ** Appending and removing at the end *)

Section vector_back.
Import PolyVector.
Variable Capacity : nat.

Lemma emplace_back_run (derived : type_operations) (obj : list byte)
    (v : poly_vector) :
  size_ v < Capacity →
  ∃ c m,
    emplace_back Capacity derived (inr obj) v =
      (set_flags c m
         (set_cache (ptr_cache_ v) false
            (set_size (S (size_ v))
               (set_slot (size_ v)
                  {| ptr := Some (size_ v); ops := Some derived |}
                  (store (size_ v)
                     (obj ++ drop (length obj) (load v (size_ v))) v)))),
       [], inr (size_ v)).
Proof.
  intros Hcap. unfold emplace_back. rewrite run_bind. unfold get at 1.
  destruct (Nat.leb_spec Capacity (size_ v)) as [|_]; [lia|].
  rewrite run_bind, construct_at_run. munfold. rewrite update_capabilities_run.
  simpl. by eexists _, _.
Qed.

Lemma emplace_back_spec (derived : type_operations) (obj : list byte)
    (v : poly_vector) :
  vec_inv Capacity v → size_ v < Capacity → length obj = size derived →
  ∃ v', emplace_back Capacity derived (inr obj) v = (v', [], inr (size_ v))
    ∧ size_ v' = S (size_ v)
    ∧ slots_ v' = <[size_ v := {| ptr := Some (size_ v); ops := Some derived |}]>
                    (slots_ v)
    ∧ slot v' (size_ v) = {| ptr := Some (size_ v); ops := Some derived |}
    ∧ vec_occupant v' (size_ v) = Some (derived, obj)
    ∧ (∀ i, i ≠ size_ v → slot v' i = slot v i ∧ load v' i = load v i)
    ∧ cache_valid_ v' = false
    ∧ vec_inv Capacity v'.
Proof.
  intros Hinv Hcap Hobj.
  pose proof (vec_inv_emplace_back Capacity derived obj v Hinv Hcap Hobj)
    as Hinv'.
  destruct Hinv as (Hls & Hlc & Hsz & Hok & Hbeyond).
  destruct (emplace_back_run derived obj v Hcap) as (c & m & Hrun).
  rewrite Hrun in Hinv' |- *. unfold final in Hinv'. cbn [fst] in Hinv'.
  eexists. split; [reflexivity|].
  set (cell' := obj ++ drop (length obj) (load v (size_ v))).
  set (v2 := set_slot (size_ v)
               {| ptr := Some (size_ v); ops := Some derived |}
               (store (size_ v) cell' v)).
  assert (slot v2 (size_ v)
          = {| ptr := Some (size_ v); ops := Some derived |}) as Hnew.
  { unfold v2. vec_simpl. case_decide; [done|lia]. }
  assert (load v2 (size_ v) = cell') as Hcell.
  { unfold v2. vec_simpl. case_decide; [done|lia]. }
  split; [done|]. split; [done|]. split; [exact Hnew|].
  split; [|split; [|split; [done|exact Hinv']]].
  - unfold vec_occupant.
    change (slot (set_flags ?x ?y (set_cache ?c' ?b' (set_size ?n v2))))
      with (slot v2).
    change (load (set_flags ?x ?y (set_cache ?c' ?b' (set_size ?n v2))))
      with (load v2).
    rewrite Hnew. cbn [occupied ptr ops]. rewrite Hcell.
    unfold repr, cell'. rewrite <- Hobj. by rewrite take_app_length.
  - intros i Hi.
    change (slot v2 i = slot v i ∧ load v2 i = load v i).
    unfold v2. vec_simpl. repeat (case_decide; [lia|]). done.
Qed.

(** X3. A call of [emplace_back] (or [push_back]) that fails leaves the
    container exactly as it was: on a full vector it throws
    [std::out_of_range] before constructing anything, and when the
    constructor of the new element throws, the exception is passed on with
    storage, slot records, size, flags and pointer cache unchanged; no
    destructor runs in either case. *)
Theorem emplace_back_strong_guarantee (derived : type_operations)
    (v : poly_vector) :
  (Capacity ≤ size_ v → ∀ ctor,
     emplace_back Capacity derived ctor v
       = (v, [], inl (raised (out_of_range
            "poly_vector::emplace_back() - capacity exceeded"%string)))
     ∧ push_back Capacity derived ctor v
       = (v, [], inl (raised (out_of_range
            "poly_vector::emplace_back() - capacity exceeded"%string))))
  ∧ (size_ v < Capacity → ∀ e,
     emplace_back Capacity derived (inl e) v = (v, [], inl (propagated e))
     ∧ push_back Capacity derived (inl e) v = (v, [], inl (propagated e))).
Proof.
  split.
  - intros Hfull ctor.
    assert (emplace_back Capacity derived ctor v
            = (v, [], inl (raised (out_of_range
                 "poly_vector::emplace_back() - capacity exceeded"%string))))
      as Hrun.
    { unfold emplace_back. rewrite run_bind. unfold get at 1.
      destruct (Nat.leb_spec Capacity (size_ v)) as [_|]; [done|lia]. }
    split; [done|]. unfold push_back. by rewrite run_bind, Hrun.
  - intros Hcap e.
    assert (emplace_back Capacity derived (inl e) v
            = (v, [], inl (propagated e))) as Hrun.
    { unfold emplace_back. rewrite run_bind. unfold get at 1.
      destruct (Nat.leb_spec Capacity (size_ v)) as [|_]; [lia|].
      rewrite run_bind. unfold construct_at. rewrite run_bind.
      unfold get at 1. done. }
    split; [done|]. unfold push_back. by rewrite run_bind, Hrun.
Qed.

(** X4. On a vector with room left, [emplace_back] of an element whose
    constructor completes returns the new element's position [size],
    increases the size by one and appends the element to the sequence of
    occupants; no destructor runs, the bytes and slot records of all other
    positions are untouched, [at(size)] then returns the pointer to the new
    element, and the structural invariant is kept. *)
Theorem emplace_back_appends (derived : type_operations) (obj : list byte)
    (v : poly_vector) :
  vec_inv Capacity v → size_ v < Capacity → length obj = size derived →
  ∃ v', emplace_back Capacity derived (inr obj) v = (v', [], inr (size_ v))
    ∧ size_ v' = S (size_ v)
    ∧ vec_occupants v' = vec_occupants v ++ [Some (derived, obj)]
    ∧ (∀ i, i ≠ size_ v → slot v' i = slot v i ∧ load v' i = load v i)
    ∧ at_ (size_ v) v' = (v', [], inr (Some (size_ v)))
    ∧ vec_inv Capacity v'.
Proof.
  intros Hinv Hcap Hobj.
  destruct (emplace_back_spec derived obj v Hinv Hcap Hobj)
    as (v' & Hrun & Hs & _ & Hnew & Hocc & Hrest & _ & Hinv').
  exists v'. split; [done|]. split; [done|].
  split; [|split; [done|split; [|done]]].
  - rewrite (vec_occupants_insert v v' (size_ v) (Some (derived, obj)));
      try done.
    + rewrite take_ge, drop_ge; [done| |];
        unfold vec_occupants; by rewrite length_fmap, length_seq.
    + intros i Hi. destruct (Hrest i) as [Hsl Hld]; [lia|].
      destruct Hinv as (_ & _ & _ & Hok & _).
      by apply vec_occupant_ext.
    + intros i Hi. lia.
  - unfold at_. rewrite run_bind. unfold get at 1. rewrite Hs.
    destruct (Nat.leb_spec (S (size_ v)) (size_ v)) as [|_]; [lia|].
    by rewrite Hnew.
Qed.

End vector_back.

Lemma emplace_back_strong_guarantee_witness :
  PolyVector.emplace_back 3 (get_type_ops Label)
    (inl (runtime_error "Construction failed"%string))
    (vec_of [(Label, 1); (Canvas, 2)])
  = (vec_of [(Label, 1); (Canvas, 2)], [],
     inl (propagated (runtime_error "Construction failed"%string))).
Proof.
  destruct (emplace_back_strong_guarantee 3 (get_type_ops Label)
              (vec_of [(Label, 1); (Canvas, 2)])) as [_ H].
  apply H. vm_compute; lia.
Defined.

Lemma emplace_back_appends_witness :
  vec_occupants
    (final (PolyVector.emplace_back 3 (get_type_ops Canvas) (inr (obj 5))
              (vec_of [(Label, 1); (Canvas, 2)])))
  = [Some (get_type_ops Label, obj 1); Some (get_type_ops Canvas, obj 2);
     Some (get_type_ops Canvas, obj 5)].
Proof.
  destruct (emplace_back_appends 3 (get_type_ops Canvas) (obj 5)
              (vec_of [(Label, 1); (Canvas, 2)]))
    as (v' & Hrun & _ & Hocc & _).
  - exact sample_vec_inv.
  - vm_compute; lia.
  - reflexivity.
  - rewrite Hrun. unfold final. cbn [fst]. rewrite Hocc. reflexivity.
Defined.

Section vector_pop.
Import PolyVector.
Variable Capacity : nat.

Lemma slot_lookup (v : poly_vector) (i : nat) :
  i < length (slots_ v) → slots_ v !! i = Some (slot v i).
Proof.
  intros Hlt. unfold slot.
  destruct (lookup_lt_is_Some_2 (slots_ v) i Hlt) as [s Hs]. by rewrite Hs.
Qed.

Lemma pop_back_exact (v : poly_vector) :
  vec_inv Capacity v → size_ v ≠ 0 →
  ∃ v', pop_back v = (v', destroy_calls [slot v (size_ v - 1)], inr tt)
    ∧ size_ v' = size_ v - 1
    ∧ slots_ v' = <[size_ v - 1 := empty_slot]> (slots_ v)
    ∧ (∀ i, i ≠ size_ v - 1 → load v' i = load v i)
    ∧ cache_valid_ v' = false.
Proof.
  intros (Hls & Hlc & Hsz & Hok & Hbeyond) Hne.
  unfold pop_back. rewrite run_bind. unfold get at 1.
  destruct (Nat.eqb_spec (size_ v) 0) as [|_]; [done|].
  rewrite run_bind. unfold modify at 1.
  rewrite run_bind. unfold get at 1.
  rewrite run_bind, destroy_at_run.
  change (size_ (set_size ?n v)) with n.
  change (slot (set_size ?n v)) with (slot v).
  change (load (set_size ?n v)) with (load v).
  unfold destroy_calls. cbn [mbind list_bind]. rewrite app_nil_r.
  destruct (Hok (size_ v - 1)) as [He|(o & Ho & Hfit)].
  - rewrite He. cbn [occupied ptr ops empty_slot].
    rewrite run_bind. unfold modify at 1.
    rewrite update_capabilities_run. cbn [app].
    eexists. split; [reflexivity|].
    split; [done|]. split; [|done].
    cbn. symmetry. apply list_insert_id.
    rewrite slot_lookup by lia. by rewrite He.
  - rewrite Ho. cbn [occupied ptr ops].
    rewrite run_bind. unfold modify at 1.
    rewrite update_capabilities_run.
    eexists. split; [by rewrite app_nil_r|].
    split; [done|]. split; [done|]. split; [|done].
    intros i Hi.
    change (load (set_slot (size_ v - 1) empty_slot
                    (store (size_ v - 1)
                       (safe_destroy (load v (size_ v - 1)) o)
                       (set_size (size_ v - 1) v))) i = load v i).
    vec_simpl. case_decide; [lia|done].
Qed.

Lemma pop_back_spec (v : poly_vector) :
  vec_inv Capacity v → size_ v ≠ 0 →
  ∃ v', pop_back v = (v', destroy_calls [slot v (size_ v - 1)], inr tt)
    ∧ size_ v' = size_ v - 1
    ∧ slots_ v' = <[size_ v - 1 := empty_slot]> (slots_ v)
    ∧ (∀ i, i ≠ size_ v - 1 → load v' i = load v i)
    ∧ cache_valid_ v' = false
    ∧ vec_inv Capacity v'.
Proof.
  intros Hinv Hne.
  pose proof (vec_inv_pop_back Capacity v Hinv Hne) as Hinv'.
  destruct (pop_back_exact v Hinv Hne) as (v' & Hrun & H).
  rewrite Hrun in Hinv'. exists v'. split; [done|].
  destruct H as (? & ? & ? & ?). done.
Qed.

(** X5. On a non-empty vector satisfying its invariant, [pop_back()]
    returns, runs the destructor of the last element exactly once (and no
    other), decreases the size by one, leaves the remaining occupants as
    they were and the vacated slot empty, and keeps the invariant. *)
Theorem pop_back_removes_last (v : poly_vector) :
  vec_inv Capacity v → size_ v ≠ 0 →
  ∃ v', pop_back v = (v', destroy_calls [slot v (size_ v - 1)], inr tt)
    ∧ size_ v' = size_ v - 1
    ∧ vec_occupants v' = take (size_ v - 1) (vec_occupants v)
    ∧ slot v' (size_ v - 1) = empty_slot
    ∧ vec_inv Capacity v'.
Proof.
  intros Hinv Hne.
  destruct (pop_back_spec v Hinv Hne)
    as (v' & Hrun & Hs & Hslots & Hload & _ & Hinv').
  destruct Hinv as (Hls & Hlc & Hsz & Hok & Hbeyond).
  exists v'. split; [done|]. split; [done|].
  split; [|split; [|done]].
  - unfold vec_occupants. rewrite Hs, <- fmap_take, take_seq.
    rewrite Nat.min_l by lia.
    apply fmap_seq_ext. intros i Hi.
    apply vec_occupant_ext; [|apply Hload; lia|apply Hok].
    unfold slot. rewrite Hslots. by rewrite list_lookup_insert_ne by lia.
  - unfold slot. rewrite Hslots. by rewrite list_lookup_insert_eq by lia.
Qed.

(** X6. [emplace_back] followed by [pop_back] is a round trip on the
    contents: both calls return, the new element is destroyed exactly once,
    and afterwards the slot records, the size and the sequence of occupants
    are those of the vector before the two calls (the capability flags are
    recomputed, not restored: both are exact afterwards). *)
Theorem emplace_back_pop_back_round_trip (derived : type_operations)
    (obj : list byte) (v : poly_vector) :
  vec_inv Capacity v → size_ v < Capacity → length obj = size derived →
  ∃ v1 v2,
    emplace_back Capacity derived (inr obj) v = (v1, [], inr (size_ v))
    ∧ pop_back v1
      = (v2, destroy_calls [{| ptr := Some (size_ v); ops := Some derived |}],
         inr tt)
    ∧ slots_ v2 = slots_ v
    ∧ size_ v2 = size_ v
    ∧ vec_occupants v2 = vec_occupants v
    ∧ vec_copy_exact v2
    ∧ vec_move_exact v2
    ∧ vec_inv Capacity v2.
Proof.
  intros Hinv Hcap Hobj.
  destruct (emplace_back_spec Capacity derived obj v Hinv Hcap Hobj)
    as (v1 & Hrun1 & Hs1 & Hslots1 & Hnew & _ & Hrest & _ & Hinv1).
  destruct (pop_back_spec v1 Hinv1)
    as (v2 & Hrun2 & Hs2 & Hslots2 & Hload2 & _ & Hinv2); [lia|].
  destruct Hinv as (Hls & Hlc & Hsz & Hok & Hbeyond).
  rewrite Hs1 in Hrun2, Hs2, Hslots2, Hload2.
  replace (S (size_ v) - 1) with (size_ v) in * by lia.
  rewrite Hnew in Hrun2.
  assert (slots_ v2 = slots_ v) as Hslots.
  { rewrite Hslots2, Hslots1, list_insert_insert_eq.
    apply list_insert_id. rewrite slot_lookup by lia.
    by rewrite Hbeyond. }
  exists v1, v2. split; [done|]. split; [done|]. split; [done|].
  split; [done|]. split; [|split; [|split; [|done]]].
  - unfold vec_occupants. rewrite Hs2.
    apply fmap_seq_ext. intros i Hi.
    apply vec_occupant_ext; [| |apply Hok].
    + unfold slot. by rewrite Hslots.
    + rewrite Hload2 by lia. apply Hrest. lia.
  - by eapply pop_back_copy_exact.
  - by eapply pop_back_move_exact.
Qed.

(** X7. [at(index)] never changes the container; it throws
    [std::out_of_range] exactly for [index >= size]; within the range it
    returns the stored pointer, which under the invariant is the address of
    slot [index] itself whenever an object lives there; and [front()] and
    [back()] of a non-empty vector are [at(0)] and [at(size - 1)]. *)
Theorem at_checked (i : nat) (v : poly_vector) :
  (size_ v ≤ i →
     at_ i v = (v, [], inl (raised (out_of_range
                  "poly_vector::at() - index out of bounds"%string))))
  ∧ (i < size_ v → at_ i v = (v, [], inr (ptr (slot v i))))
  ∧ (i < size_ v → vec_inv Capacity v → is_Some (vec_occupant v i) →
     at_ i v = (v, [], inr (Some i)))
  ∧ (size_ v ≠ 0 → front v = at_ 0 v ∧ back v = at_ (size_ v - 1) v).
Proof.
  assert (i < size_ v → at_ i v = (v, [], inr (ptr (slot v i)))) as Hin.
  { intros Hlt. unfold at_. rewrite run_bind. unfold get at 1.
    destruct (Nat.leb_spec (size_ v) i) as [|_]; [lia|done]. }
  split; [|split; [done|split]].
  - intros Hge. unfold at_. rewrite run_bind. unfold get at 1.
    destruct (Nat.leb_spec (size_ v) i) as [_|]; [done|lia].
  - intros Hlt (_ & _ & _ & Hok & _) [x Hx]. rewrite Hin by done.
    unfold vec_occupant in Hx.
    destruct (Hok i) as [He|(o & Ho & _)].
    + by rewrite He in Hx.
    + by rewrite Ho.
  - intros Hne. unfold front, back, at_. rewrite !run_bind. unfold get.
    destruct (Nat.eqb_spec (size_ v) 0) as [|_]; [done|].
    destruct (Nat.leb_spec (size_ v) 0) as [|_]; [lia|].
    destruct (Nat.leb_spec (size_ v) (size_ v - 1)) as [|_]; [lia|done].
Qed.

End vector_pop.

Lemma pop_back_removes_last_witness :
  vec_occupants (final (PolyVector.pop_back (vec_of [(Label, 1); (Canvas, 2)])))
  = [Some (get_type_ops Label, obj 1)]
  ∧ trace (PolyVector.pop_back (vec_of [(Label, 1); (Canvas, 2)]))
    = [ev_destroy self 1].
Proof.
  destruct (pop_back_removes_last 3 (vec_of [(Label, 1); (Canvas, 2)]))
    as (v' & Hrun & _ & Hocc & _).
  - exact sample_vec_inv.
  - vm_compute; lia.
  - rewrite Hrun. unfold final, trace. cbn [fst snd]. rewrite Hocc.
    split; reflexivity.
Defined.

Lemma emplace_back_pop_back_round_trip_witness :
  vec_occupants
    (final (PolyVector.pop_back
       (final (PolyVector.emplace_back 3 (get_type_ops Label) (inr (obj 9))
                 (vec_of [(Label, 1); (Canvas, 2)])))))
  = vec_occupants (vec_of [(Label, 1); (Canvas, 2)]).
Proof.
  destruct (emplace_back_pop_back_round_trip 3 (get_type_ops Label) (obj 9)
              (vec_of [(Label, 1); (Canvas, 2)]))
    as (v1 & v2 & Hrun1 & Hrun2 & _ & _ & Hocc & _).
  - exact sample_vec_inv.
  - vm_compute; lia.
  - reflexivity.
  - rewrite Hrun1. unfold final at 2. cbn [fst]. rewrite Hrun2.
    unfold final. cbn [fst]. exact Hocc.
Defined.

Lemma at_checked_witness :
  PolyVector.at_ 1 (vec_of [(Label, 1); (Canvas, 2)])
  = (vec_of [(Label, 1); (Canvas, 2)], [], inr (Some 1))
  ∧ outcome (PolyVector.at_ 2 (vec_of [(Label, 1); (Canvas, 2)]))
    = inl (raised (out_of_range
             "poly_vector::at() - index out of bounds"%string)).
Proof.
  destruct (at_checked 3 1 (vec_of [(Label, 1); (Canvas, 2)]))
    as (_ & _ & H1 & _).
  destruct (at_checked 3 2 (vec_of [(Label, 1); (Canvas, 2)]))
    as (H2 & _).
  split.
  - apply H1; [vm_compute; lia|exact sample_vec_inv|].
    exists (get_type_ops Canvas, obj 2). vm_compute. reflexivity.
  - rewrite H2; [reflexivity|]. vm_compute; lia.
Defined.

(** ** Positional insertion and erasure: rejected calls and special
    positions *)

Section vector_positions.
Import PolyVector.
Variable Capacity : nat.

Lemma vec_inv_set_cache (c : list (option nat)) (b : bool) (v : poly_vector) :
  vec_inv Capacity v → vec_inv Capacity (set_cache c b v).
Proof. intros H. exact H. Qed.

(** X8. [emplace(pos, ...)] validates before it touches anything: a
    position beyond [size] throws "invalid position" (also on a full
    vector: the position is checked first), and a valid position on a full
    vector throws "capacity exceeded"; in both cases no element is shifted,
    constructed or destroyed, and storage, slot records, size and flags
    are unchanged (only the pointer cache may have been refreshed). *)
Theorem emplace_rejects_before_shifting (pos : nat)
    (derived : type_operations) (ctor : std_exception + list byte)
    (v : poly_vector) :
  (size_ v < pos →
     ∃ c b, emplace Capacity pos derived ctor v
       = (set_cache c b v, [],
          inl (raised (out_of_range
                 "poly_vector::emplace() - invalid position"%string))))
  ∧ (pos ≤ size_ v → Capacity ≤ size_ v →
     ∃ c b, emplace Capacity pos derived ctor v
       = (set_cache c b v, [],
          inl (raised (out_of_range
                 "poly_vector::emplace() - capacity exceeded"%string)))).
Proof.
  destruct (update_ptr_cache_run Capacity v) as (c0 & b0 & Hupc).
  split.
  - intros Hpos. exists c0, b0.
    unfold emplace. rewrite run_bind, Hupc.
    rewrite run_bind. unfold get at 1. cbv beta iota.
    change (size_ (set_cache c0 b0 v)) with (size_ v).
    destruct (Nat.ltb_spec (size_ v) pos) as [_|]; [done|lia].
  - intros Hpos Hfull. exists c0, b0.
    unfold emplace. rewrite run_bind, Hupc.
    rewrite run_bind. unfold get at 1. cbv beta iota.
    change (size_ (set_cache c0 b0 v)) with (size_ v).
    destruct (Nat.ltb_spec (size_ v) pos) as [|_]; [lia|].
    destruct (Nat.leb_spec Capacity (size_ v)) as [_|]; [done|lia].
Qed.

Lemma emplace_back_run_exact (derived : type_operations) (obj : list byte)
    (v : poly_vector) :
  size_ v < Capacity →
  emplace_back Capacity derived (inr obj) v =
    (let w := set_cache (ptr_cache_ v) false
                (set_size (S (size_ v))
                   (set_slot (size_ v)
                      {| ptr := Some (size_ v); ops := Some derived |}
                      (store (size_ v)
                         (obj ++ drop (length obj) (load v (size_ v))) v))) in
     set_flags (capabilities (slot w <$> seq 0 (size_ w))).1
               (capabilities (slot w <$> seq 0 (size_ w))).2 w,
     [], inr (size_ v)).
Proof.
  intros Hcap. unfold emplace_back. rewrite run_bind. unfold get at 1.
  destruct (Nat.leb_spec Capacity (size_ v)) as [|_]; [lia|].
  rewrite run_bind, construct_at_run. munfold. rewrite update_capabilities_run.
  done.
Qed.

Lemma emplace_end_run (derived : type_operations) (obj : list byte)
    (v : poly_vector) :
  size_ v < Capacity →
  ∃ c b,
    emplace Capacity (size_ v) derived (inr obj) v =
      (let w := set_cache (ptr_cache_ v) false
                  (set_size (S (size_ v))
                     (set_slot (size_ v)
                        {| ptr := Some (size_ v); ops := Some derived |}
                        (store (size_ v)
                           (obj ++ drop (length obj) (load v (size_ v))) v))) in
       set_cache c b
         (set_flags (capabilities (slot w <$> seq 0 (size_ w))).1
                    (capabilities (slot w <$> seq 0 (size_ w))).2 w),
       [], inr (size_ v)).
Proof.
  intros Hcap.
  destruct (update_ptr_cache_run Capacity v) as (c0 & b0 & Hupc).
  unfold emplace. rewrite run_bind, Hupc.
  rewrite run_bind. unfold get at 1. cbv beta iota.
  change (size_ (set_cache c0 b0 v)) with (size_ v).
  rewrite Nat.ltb_irrefl.
  destruct (Nat.leb_spec Capacity (size_ v)) as [|_]; [lia|].
  rewrite run_bind. unfold ret at 1. cbv beta iota.
  rewrite run_bind, construct_at_run. munfold. rewrite update_capabilities_run.
  match goal with
  | |- context [update_ptr_cache Capacity ?w] =>
      destruct (update_ptr_cache_run Capacity w) as (c1 & b1 & Hupc1)
  end.
  rewrite Hupc1. by exists c1, b1.
Qed.

Lemma emplace_end_throw (derived : type_operations) (e : std_exception)
    (v : poly_vector) :
  size_ v < Capacity →
  ∃ c b, emplace Capacity (size_ v) derived (inl e) v
    = (set_cache c b v, [], inl (propagated e)).
Proof.
  intros Hcap.
  destruct (update_ptr_cache_run Capacity v) as (c0 & b0 & Hupc).
  exists c0, b0.
  unfold emplace. rewrite run_bind, Hupc.
  rewrite run_bind. unfold get at 1. cbv beta iota.
  change (size_ (set_cache c0 b0 v)) with (size_ v).
  rewrite Nat.ltb_irrefl.
  destruct (Nat.leb_spec Capacity (size_ v)) as [|_]; [lia|].
  rewrite run_bind. unfold ret at 1. cbv beta iota.
  rewrite run_bind. unfold construct_at. rewrite run_bind. unfold get at 1.
  done.
Qed.

Lemma emplace_full_run (pos : nat) (derived : type_operations)
    (ctor : std_exception + list byte) (v : poly_vector) :
  pos ≤ size_ v → Capacity ≤ size_ v →
  ∃ c b, emplace Capacity pos derived ctor v
    = (set_cache c b v, [],
       inl (raised (out_of_range
              "poly_vector::emplace() - capacity exceeded"%string))).
Proof.
  intros Hpos Hfull.
  destruct (update_ptr_cache_run Capacity v) as (c0 & b0 & Hupc).
  exists c0, b0.
  unfold emplace. rewrite run_bind, Hupc.
  rewrite run_bind. unfold get at 1. cbv beta iota.
  change (size_ (set_cache c0 b0 v)) with (size_ v).
  destruct (Nat.ltb_spec (size_ v) pos) as [|_]; [lia|].
  destruct (Nat.leb_spec Capacity (size_ v)) as [_|]; [done|lia].
Qed.

Lemma emplace_back_full_run (derived : type_operations)
    (ctor : std_exception + list byte) (v : poly_vector) :
  Capacity ≤ size_ v →
  emplace_back Capacity derived ctor v
  = (v, [], inl (raised (out_of_range
                   "poly_vector::emplace_back() - capacity exceeded"%string))).
Proof.
  intros Hfull. unfold emplace_back. rewrite run_bind. unfold get at 1.
  destruct (Nat.leb_spec Capacity (size_ v)) as [_|]; [done|lia].
Qed.

Lemma emplace_back_throw_run (derived : type_operations) (e : std_exception)
    (v : poly_vector) :
  size_ v < Capacity →
  emplace_back Capacity derived (inl e) v = (v, [], inl (propagated e)).
Proof.
  intros Hcap. unfold emplace_back. rewrite run_bind. unfold get at 1.
  destruct (Nat.leb_spec Capacity (size_ v)) as [|_]; [lia|].
  rewrite run_bind. unfold construct_at. rewrite run_bind.
  unfold get at 1. done.
Qed.

(** X9. [emplace(end(), ...)] behaves as [emplace_back(...)]: for every
    outcome of the constructor the two calls run the same destructors
    (none) and leave the same storage, slot records, size and capability
    flags; with room left they also have the same outcome (the position
    [size] of the new element, or the constructor's exception), and on a
    full vector each throws its own "capacity exceeded" error. *)
Theorem emplace_at_end_is_emplace_back (derived : type_operations)
    (ctor : std_exception + list byte) (v : poly_vector) :
  vec_same_contents
    (final (emplace Capacity (size_ v) derived ctor v))
    (final (emplace_back Capacity derived ctor v))
  ∧ trace (emplace Capacity (size_ v) derived ctor v) = []
  ∧ trace (emplace_back Capacity derived ctor v) = []
  ∧ (size_ v < Capacity →
     outcome (emplace Capacity (size_ v) derived ctor v)
     = outcome (emplace_back Capacity derived ctor v))
  ∧ (Capacity ≤ size_ v →
     outcome (emplace Capacity (size_ v) derived ctor v)
       = inl (raised (out_of_range
                "poly_vector::emplace() - capacity exceeded"%string))
     ∧ outcome (emplace_back Capacity derived ctor v)
       = inl (raised (out_of_range
                "poly_vector::emplace_back() - capacity exceeded"%string))).
Proof.
  destruct (decide (Capacity ≤ size_ v)) as [Hfull|Hcap].
  - destruct (emplace_full_run (size_ v) derived ctor v) as (c & b & ->);
      [done|done|].
    rewrite (emplace_back_full_run derived ctor v Hfull).
    unfold vec_same_contents, final, trace, outcome. cbn.
    repeat split; try done; lia.
  - destruct ctor as [e|obj].
    + destruct (emplace_end_throw derived e v) as (c & b & ->); [lia|].
      rewrite (emplace_back_throw_run derived e v) by lia.
      unfold vec_same_contents, final, trace, outcome. cbn.
      repeat split; try done; lia.
    + destruct (emplace_end_run derived obj v) as (c & b & ->); [lia|].
      rewrite (emplace_back_run_exact derived obj v) by lia.
      unfold vec_same_contents, final, trace, outcome. cbn.
      repeat split; try done; lia.
Qed.

Lemma erase_rejected_run (first last : nat) (v : poly_vector) :
  last < first ∨ size_ v < last →
  ∃ c b, erase Capacity first last v
    = (set_cache c b v, [],
       inl (raised (out_of_range
              "poly_vector::erase() - invalid range"%string))).
Proof.
  intros Hbad.
  destruct (update_ptr_cache_run Capacity v) as (c0 & b0 & Hupc).
  exists c0, b0. unfold erase. rewrite run_bind, Hupc.
  rewrite run_bind. unfold get at 1. cbv beta iota.
  change (size_ (set_cache c0 b0 v)) with (size_ v).
  destruct (Nat.ltb_spec last first), (Nat.ltb_spec (size_ v) last);
    try done; lia.
Qed.

Lemma erase_empty_run (first : nat) (v : poly_vector) :
  first ≤ size_ v →
  ∃ c b, erase Capacity first first v = (set_cache c b v, [], inr first).
Proof.
  intros Hle.
  destruct (update_ptr_cache_run Capacity v) as (c0 & b0 & Hupc).
  destruct (update_ptr_cache_run Capacity (set_cache c0 b0 v))
    as (c1 & b1 & Hupc1).
  exists c1, b1. unfold erase. rewrite run_bind, Hupc.
  rewrite run_bind. unfold get at 1. cbv beta iota.
  change (size_ (set_cache c0 b0 v)) with (size_ v).
  destruct (Nat.ltb_spec first first) as [|_]; [lia|].
  destruct (Nat.ltb_spec (size_ v) first) as [|_]; [lia|].
  cbn [orb]. rewrite Nat.sub_diag. cbn [Nat.eqb].
  rewrite run_bind, Hupc1. done.
Qed.

(** X10. [erase(first, last)] validates its range before it touches
    anything: [first > last] or [last > size] throws "invalid range", and
    an empty range within bounds returns [first]; in all these cases no
    destructor runs and storage, slot records, size and flags are
    unchanged (only the pointer cache may have been refreshed). *)
Theorem erase_validates_range (first last : nat) (v : poly_vector) :
  (last < first ∨ size_ v < last →
     ∃ c b, erase Capacity first last v
       = (set_cache c b v, [],
          inl (raised (out_of_range
                 "poly_vector::erase() - invalid range"%string))))
  ∧ (first = last → last ≤ size_ v →
     ∃ c b, erase Capacity first last v = (set_cache c b v, [], inr first)).
Proof.
  split.
  - apply erase_rejected_run.
  - intros -> Hle. by apply erase_empty_run.
Qed.

(** X11. [erase(pos)] throws "invalid position" for [pos >= size] without
    changing storage, slot records, size or flags; for [pos < size], when
    [pos] is the last element or the container is movable and the later
    occupants relocate faithfully, it returns [pos], decreases the size by
    one and removes exactly the element at [pos], keeping the others in
    order, and keeps the structural invariant. *)
Theorem erase_at_removes_one (pos : nat) (v : poly_vector) :
  (size_ v ≤ pos →
     ∃ c b, erase_at Capacity pos v
       = (set_cache c b v, [],
          inl (raised (out_of_range
                 "poly_vector::erase() - invalid position"%string))))
  ∧ (vec_inv Capacity v → pos < size_ v →
     (pos + 1 < size_ v →
        can_move_ v = true ∧ vec_faithful_from (pos + 1) v) →
     ∃ v' t, erase_at Capacity pos v = (v', t, inr pos)
       ∧ size_ v' = size_ v - 1
       ∧ vec_occupants v'
         = take pos (vec_occupants v) ++ drop (S pos) (vec_occupants v)
       ∧ vec_inv Capacity v').
Proof.
  destruct (update_ptr_cache_run Capacity v) as (c0 & b0 & Hupc).
  split.
  - intros Hge. exists c0, b0.
    unfold erase_at. rewrite run_bind, Hupc.
    rewrite run_bind. unfold get at 1. cbv beta iota.
    change (size_ (set_cache c0 b0 v)) with (size_ v).
    destruct (Nat.leb_spec (size_ v) pos) as [_|]; [done|lia].
  - intros Hinv Hlt Hmov.
    destruct (erase_run Capacity pos (pos + 1) (set_cache c0 b0 v))
      as (v' & t & Hrun & Hs & Hinv' & Hlow & Hhigh).
    { by apply vec_inv_set_cache. }
    { lia. }
    { change (size_ (set_cache c0 b0 v)) with (size_ v). lia. }
    { intros _ Hlast. apply Hmov. exact Hlast. }
    change (size_ (set_cache c0 b0 v)) with (size_ v) in Hs, Hhigh.
    replace (pos + 1 - pos) with 1 in Hs, Hhigh by lia.
    exists v', t. split; [|split; [done|split; [|done]]].
    + unfold erase_at. rewrite run_bind, Hupc.
      rewrite run_bind. unfold get at 1. cbv beta iota.
      change (size_ (set_cache c0 b0 v)) with (size_ v).
      destruct (Nat.leb_spec (size_ v) pos) as [|_]; [lia|].
      rewrite Hrun. by destruct t.
    + replace (S pos) with (pos + 1) by lia.
      apply vec_occupants_remove; try done; try lia.
      replace (pos + 1 - pos) with 1 by lia. intros i Hi.
      rewrite Hhigh by done. done.
Qed.

End vector_positions.

Lemma emplace_rejects_before_shifting_witness :
  outcome (PolyVector.emplace 3 3 (get_type_ops Label) (inr (obj 3))
             (vec_of [(Label, 1); (Canvas, 2)]))
  = inl (raised (out_of_range
           "poly_vector::emplace() - invalid position"%string)).
Proof.
  destruct (emplace_rejects_before_shifting 3 3 (get_type_ops Label)
              (inr (obj 3)) (vec_of [(Label, 1); (Canvas, 2)])) as [H _].
  destruct H as (c & b & ->); [vm_compute; lia|]. reflexivity.
Defined.

Lemma emplace_at_end_is_emplace_back_witness :
  outcome (PolyVector.emplace 3 2 (get_type_ops Label) (inr (obj 3))
             (vec_of [(Label, 1); (Canvas, 2)]))
  = outcome (PolyVector.emplace_back 3 (get_type_ops Label) (inr (obj 3))
               (vec_of [(Label, 1); (Canvas, 2)])).
Proof.
  destruct (emplace_at_end_is_emplace_back 3 (get_type_ops Label)
              (inr (obj 3)) (vec_of [(Label, 1); (Canvas, 2)]))
    as (_ & _ & _ & H & _).
  apply H. vm_compute; lia.
Defined.

Lemma erase_validates_range_witness :
  outcome (PolyVector.erase 3 2 1 (vec_of [(Label, 1); (Canvas, 2)]))
  = inl (raised (out_of_range "poly_vector::erase() - invalid range"%string))
  ∧ outcome (PolyVector.erase 3 1 1 (vec_of [(Label, 1); (Canvas, 2)]))
    = inr 1.
Proof.
  destruct (erase_validates_range 3 2 1 (vec_of [(Label, 1); (Canvas, 2)]))
    as [H1 _].
  destruct (erase_validates_range 3 1 1 (vec_of [(Label, 1); (Canvas, 2)]))
    as [_ H2].
  split.
  - destruct H1 as (c & b & ->); [left; lia|]. reflexivity.
  - destruct H2 as (c & b & ->); [done|vm_compute; lia|]. reflexivity.
Defined.

Lemma erase_at_removes_one_witness :
  vec_occupants (final (PolyVector.erase_at 3 0 (vec_of [(Label, 1); (Canvas, 2)])))
  = [Some (get_type_ops Canvas, obj 2)].
Proof.
  destruct (erase_at_removes_one 3 0 (vec_of [(Label, 1); (Canvas, 2)]))
    as [_ H].
  destruct H as (v' & t & Hrun & _ & Hocc & _).
  - exact sample_vec_inv.
  - vm_compute; lia.
  - intros _. split; [reflexivity|apply sample_vec_faithful].
  - rewrite Hrun. unfold final. cbn [fst]. rewrite Hocc. reflexivity.
Defined.

(** ** The iterator pointer cache of [poly_vector] *)

Section vector_cache.
Import PolyVector.
Variable Capacity : nat.

Lemma fresh_cache_spec (v : poly_vector) :
  vec_cache_fresh Capacity v
    ((λ i, if i <? size_ v then ptr (slot v i) else None) <$> seq 0 Capacity).
Proof.
  split; [by rewrite length_fmap, length_seq|].
  intros i Hi. rewrite list_lookup_fmap, lookup_seq_lt by done. simpl.
  destruct (Nat.ltb_spec i (size_ v)); case_decide; try done; lia.
Qed.

Lemma set_cache_id (v : poly_vector) :
  set_cache (ptr_cache_ v) (cache_valid_ v) v = v.
Proof. by destruct v. Qed.

Lemma data_run (v : poly_vector) :
  vec_cache_ok Capacity v →
  ∃ l, update_ptr_cache Capacity v = (set_cache l true v, [], inr tt)
       ∧ vec_cache_fresh Capacity v l.
Proof.
  intros Hok. unfold update_ptr_cache, modify.
  destruct (cache_valid_ v) eqn:Hc.
  - exists (ptr_cache_ v). split; [|by apply Hok].
    rewrite <- Hc. by rewrite set_cache_id.
  - eexists. split; [reflexivity|apply fresh_cache_spec].
Qed.

Lemma cache_ok_invalid (v : poly_vector) :
  cache_valid_ v = false → vec_cache_ok Capacity v.
Proof. intros H Hv. congruence. Qed.

Lemma cache_ok_refreshed (w v' : poly_vector) (t : list event) :
  cache_valid_ w = false →
  update_ptr_cache Capacity w = (v', t, inr tt) → vec_cache_ok Capacity v'.
Proof.
  intros Hc. unfold update_ptr_cache, modify. rewrite Hc.
  intros [= <- _] _. apply fresh_cache_spec.
Qed.

Lemma cache_ok_tail {A} (x r : A) (w v' : poly_vector) (t : list event) :
  (modify (λ v, set_cache (ptr_cache_ v) false v);;
   update_capabilities;;
   update_ptr_cache Capacity;;
   ret x) w = (v', t, inr r) →
  vec_cache_ok Capacity v'.
Proof.
  intros H. do 3 peel H. unfold ret in H. injection H as <- _ _.
  destruct a, a0, a1.
  unfold modify in Hstep. injection Hstep as <- _.
  rewrite update_capabilities_run in Hstep0. injection Hstep0 as <- _.
  by eapply cache_ok_refreshed; [|exact Hstep1].
Qed.

Lemma emplace_back_cache_ok derived ctor (v v' : poly_vector) t r :
  emplace_back Capacity derived ctor v = (v', t, inr r) →
  vec_cache_ok Capacity v'.
Proof.
  unfold emplace_back. intros H. peel H.
  destruct (Capacity <=? size_ a); [done|].
  do 5 peel H. unfold ret in H. injection H as <- _ _.
  destruct a2, a3, a4.
  unfold modify in Hstep3. injection Hstep3 as <- _.
  rewrite update_capabilities_run in Hstep4. injection Hstep4 as <- _.
  by apply cache_ok_invalid.
Qed.

Lemma emplace_cache_ok pos derived ctor (v v' : poly_vector) t r :
  emplace Capacity pos derived ctor v = (v', t, inr r) →
  vec_cache_ok Capacity v'.
Proof.
  unfold emplace. intros H. do 2 peel H.
  destruct (size_ a0 <? pos); [done|].
  destruct (Capacity <=? size_ a0); [done|].
  do 4 peel H. by apply cache_ok_tail in H.
Qed.

Lemma pop_back_cache_ok (v v' : poly_vector) t :
  pop_back v = (v', t, inr tt) → vec_cache_ok Capacity v'.
Proof.
  unfold pop_back. intros H. peel H.
  destruct (size_ a =? 0); [done|].
  do 4 peel H. destruct a3.
  unfold modify in Hstep3. injection Hstep3 as <- _.
  rewrite update_capabilities_run in H. injection H as <- _.
  by apply cache_ok_invalid.
Qed.

Lemma erase_cache_ok first last (v v' : poly_vector) t r :
  first < last →
  erase Capacity first last v = (v', t, inr r) → vec_cache_ok Capacity v'.
Proof.
  unfold erase. intros Hlt H. do 2 peel H.
  destruct (_ || _); [done|].
  destruct (Nat.eqb_spec (last - first) 0); [lia|].
  destruct (_ && _); [done|].
  do 3 peel H. by apply cache_ok_tail in H.
Qed.

Lemma resize_cache_ok n (v v' : poly_vector) t :
  resize Capacity n v = (v', t, inr tt) → vec_cache_ok Capacity v'.
Proof.
  unfold resize. intros H. peel H.
  destruct (Capacity <? n); [done|].
  do 2 peel H. unfold modify in H. injection H as <- _.
  by apply cache_ok_invalid.
Qed.

(** X12. After every mutating call that completes ([emplace_back],
    [emplace], [pop_back], [erase] of one element or of a non-empty range,
    [clear], [resize]), whatever the state of the pointer cache before the
    call, [data()], [begin()] and [end()] see the current contents: the
    pointer array has [Capacity] entries, entry [i] is the pointer stored
    in slot [i] for every [i < size] and null from [size] on, [begin()] is
    its start and [end()] is [size] entries further; none of the three
    calls runs a destructor or changes anything but the cache. *)
Theorem data_after_mutation (v v' : poly_vector) (t : list event) :
  (∃ derived ctor r, emplace_back Capacity derived ctor v = (v', t, inr r))
  ∨ (∃ pos derived ctor r,
       emplace Capacity pos derived ctor v = (v', t, inr r))
  ∨ pop_back v = (v', t, inr tt)
  ∨ (∃ first last r,
       first < last ∧ erase Capacity first last v = (v', t, inr r))
  ∨ (∃ pos r, erase_at Capacity pos v = (v', t, inr r))
  ∨ clear v = (v', t, inr tt)
  ∨ (∃ n, resize Capacity n v = (v', t, inr tt)) →
  ∃ l, data Capacity v' = (set_cache l true v', [], inr l)
       ∧ vec_cache_fresh Capacity v' l
       ∧ begin_ Capacity v' = (set_cache l true v', [], inr 0)
       ∧ end_ Capacity v' = (set_cache l true v', [], inr (size_ v')).
Proof.
  intros Hop.
  assert (vec_cache_ok Capacity v') as Hok.
  { destruct Hop as [(d & c & r & H)|[(pos & d & c & r & H)|[H|
      [(first & last & r & Hlt & H)|[(pos & r & H)|[H|(n & H)]]]]]].
    - by eapply emplace_back_cache_ok.
    - by eapply emplace_cache_ok.
    - by eapply pop_back_cache_ok.
    - by eapply erase_cache_ok.
    - unfold erase_at in H. do 2 peel H.
      destruct (size_ a0 <=? pos); [done|].
      eapply (erase_cache_ok pos (pos + 1)); [lia|exact H].
    - destruct (clear_run v) as (w & t' & _ & Hc). rewrite Hc in H.
      injection H as <- _. by apply cache_ok_invalid.
    - by eapply resize_cache_ok. }
  destruct (data_run v' Hok) as (l & Hrun & Hfresh).
  exists l. unfold data, begin_, end_. rewrite !run_bind, Hrun.
  split; [done|]. split; [done|]. split; [done|].
  rewrite run_bind. done.
Qed.

End vector_cache.

Lemma data_after_mutation_witness :
  outcome (PolyVector.data 3
             (final (PolyVector.pop_back (vec_of [(Label, 1); (Canvas, 2)]))))
  = inr [Some 0; None; None].
Proof.
  destruct (data_after_mutation 3 (vec_of [(Label, 1); (Canvas, 2)])
              (final (PolyVector.pop_back (vec_of [(Label, 1); (Canvas, 2)])))
              (trace (PolyVector.pop_back (vec_of [(Label, 1); (Canvas, 2)]))))
    as (l & Hrun & (Hlen & Hl) & _).
  - right. right. left. vm_compute. reflexivity.
  - rewrite Hrun. unfold outcome. cbn [snd]. f_equal.
    apply list_eq. intros [|[|[|i]]].
    + rewrite (Hl 0) by lia. vm_compute. reflexivity.
    + rewrite (Hl 1) by lia. vm_compute. reflexivity.
    + rewrite (Hl 2) by lia. vm_compute. reflexivity.
    + rewrite lookup_ge_None_2 by (rewrite Hlen; lia). reflexivity.
Defined.

(** ** The structural invariant in every outcome *)

Section vector_invariant.
Import PolyVector.
Variable Capacity : nat.

Lemma clear_spec (v : poly_vector) :
  vec_inv Capacity v →
  ∃ v', clear v = (v', destroy_calls (slot v <$> seq 0 (size_ v)), inr tt)
    ∧ size_ v' = 0
    ∧ length (slots_ v') = Capacity ∧ length (storage_ v') = Capacity
    ∧ (∀ i, slot v' i = empty_slot)
    ∧ can_copy_ v' = false ∧ can_move_ v' = true
    ∧ cache_valid_ v' = false.
Proof.
  intros (Hls & Hlc & Hsz & Hok & Hbeyond).
  destruct (clear_run v) as (w & t & Hloop & ->).
  destruct (destroy_range 0 (size_ v) v Hok)
    as (w' & t' & Hrun & Hfr & _ & Hin & Hout & Ht).
  rewrite Hrun in Hloop. injection Hloop as <- <-.
  destruct Hfr as (Hl & Hl' & _).
  eexists. split; [by rewrite Ht|]. simpl.
  split; [done|]. split; [lia|]. split; [lia|]. split; [|done].
  intros i. change (slot w' i = empty_slot).
  destruct (decide (i < size_ v)) as [Hlt|Hge].
  - apply Hin. lia.
  - destruct (Hout i) as [-> _]; [lia|]. apply Hbeyond. lia.
Qed.

Lemma vec_inv_of_empty (v : poly_vector) :
  length (slots_ v) = Capacity → length (storage_ v) = Capacity →
  size_ v ≤ Capacity → (∀ i, slot v i = empty_slot) → vec_inv Capacity v.
Proof.
  intros Hl Hl' Hs He. split; [done|]. split; [done|]. split; [done|].
  split; [intros i; by left|]. intros i _. apply He.
Qed.

Lemma vec_inv_pop_back_n (k : nat) (v : poly_vector) :
  vec_inv Capacity v → k ≤ size_ v →
  ∃ v' t, pop_back_n k v = (v', t, inr tt)
    ∧ size_ v' = size_ v - k ∧ vec_inv Capacity v'.
Proof.
  revert v. induction k as [|k IH]; intros v Hinv Hk; simpl.
  - exists v, []. split; [done|]. split; [lia|done].
  - rewrite run_bind.
    destruct (pop_back_spec Capacity v Hinv)
      as (v1 & Hrun1 & Hs1 & _ & _ & _ & Hinv1); [lia|].
    rewrite Hrun1.
    destruct (IH v1 Hinv1) as (v2 & t2 & -> & Hs2 & Hinv2); [lia|].
    eexists _, _. split; [reflexivity|]. split; [lia|done].
Qed.

Lemma set_slot_empty_id (v : poly_vector) (i : nat) :
  slot v i = empty_slot → set_slot i empty_slot v = v.
Proof.
  intros He. unfold set_slot, set_slots.
  assert (<[i := empty_slot]> (slots_ v) = slots_ v) as ->.
  { destruct (decide (i < length (slots_ v))) as [Hlt|Hge].
    - apply list_insert_id. rewrite slot_lookup by done. by rewrite He.
    - apply list_insert_ge. lia. }
  by destruct v.
Qed.

Lemma grow_loop_inv (n fuel : nat) (v : poly_vector) :
  (∀ i, size_ v ≤ i → slot v i = empty_slot) →
  n - size_ v ≤ fuel → size_ v ≤ n →
  while_loop fuel (λ v, size_ v <? n) grow_step v = (set_size n v, [], inr tt).
Proof.
  revert v. induction fuel as [|fuel IH]; intros v Hbeyond Hf Hle.
  - assert (size_ v = n) as <- by lia. simpl. by destruct v.
  - cbn [while_loop]. rewrite run_bind. unfold get at 1.
    destruct (Nat.ltb_spec (size_ v) n) as [Hlt|Hge].
    + rewrite run_bind. unfold grow_step at 1. munfold. simpl.
      rewrite (Hbeyond (size_ v)) by lia. cbn [ops empty_slot].
      change {| ptr := None; ops := None |} with empty_slot.
      rewrite set_slot_empty_id by (apply Hbeyond; lia).
      rewrite (IH (set_size (S (size_ v)) v)); [done| |simpl; lia|simpl; lia].
      intros i Hi. apply Hbeyond. simpl in Hi. lia.
    + assert (size_ v = n) as <- by lia. by destruct v.
Qed.

Lemma resize_spec (n : nat) (v : poly_vector) :
  vec_inv Capacity v → n ≤ Capacity →
  ∃ v1 t, pop_back_n (size_ v - n) v = (v1, t, inr tt)
    ∧ size_ v1 ≤ n
    ∧ vec_inv Capacity v1
    ∧ resize Capacity n v
      = (set_cache (ptr_cache_ v1) false (set_size n v1), t, inr tt).
Proof.
  intros Hinv Hn.
  destruct (vec_inv_pop_back_n (size_ v - n) v Hinv)
    as (v1 & t & Hrun & Hs & Hinv1); [lia|].
  exists v1, t. split; [done|]. split; [lia|]. split; [done|].
  unfold resize. rewrite run_bind. unfold get at 1.
  destruct (Nat.ltb_spec Capacity n) as [|_]; [lia|].
  rewrite run_bind, shrink_loop by lia. rewrite Hrun.
  rewrite run_bind, grow_loop_inv; [| |lia|lia].
  - unfold modify. by rewrite app_nil_r.
  - intros i Hi. destruct Hinv1 as (_ & _ & _ & _ & Hb). by apply Hb.
Qed.

Lemma erase_unsupported_run (first last : nat) (v : poly_vector) :
  first < last → last < size_ v → can_move_ v = false →
  ∃ c b, erase Capacity first last v
    = (set_cache c b v, [], inl ShiftUnsupported).
Proof.
  intros Hfl Hlast Hmv.
  destruct (update_ptr_cache_run Capacity v) as (c0 & b0 & Hupc).
  exists c0, b0. unfold erase. rewrite run_bind, Hupc.
  rewrite run_bind. unfold get at 1. cbv beta iota.
  change (size_ (set_cache c0 b0 v)) with (size_ v).
  change (can_move_ (set_cache c0 b0 v)) with (can_move_ v).
  destruct (Nat.ltb_spec last first) as [|_]; [lia|].
  destruct (Nat.ltb_spec (size_ v) last) as [|_]; [lia|].
  cbn [orb].
  destruct (Nat.eqb_spec (last - first) 0) as [|_]; [lia|].
  destruct (Nat.ltb_spec last (size_ v)) as [_|]; [|lia].
  rewrite Hmv. done.
Qed.

(** X13. The structural invariant of [poly_vector] (slot and storage
    arrays of [Capacity] entries, [size <= Capacity], every slot either
    empty or pointing at an object that lives in its own storage, no
    occupied slot from [size] on) is kept by [clear()], [resize(n)],
    [pop_back()] and [emplace_back(...)] in every outcome: when the call
    returns and when it throws (capacity exceeded, empty vector, throwing
    constructor). *)
Theorem vec_inv_kept_at_the_end (v : poly_vector) :
  vec_inv Capacity v →
  vec_inv Capacity (final (clear v))
  ∧ (∀ n, vec_inv Capacity (final (resize Capacity n v)))
  ∧ vec_inv Capacity (final (pop_back v))
  ∧ (∀ derived ctor,
       (∀ obj, ctor = inr obj → length obj = size derived) →
       vec_inv Capacity (final (emplace_back Capacity derived ctor v))).
Proof.
  intros Hinv. split; [|split; [|split]].
  - destruct (clear_spec v Hinv)
      as (v' & -> & Hs & Hl & Hl' & He & _).
    apply vec_inv_of_empty; try done. unfold final. cbn [fst]. lia.
  - intros n. destruct (decide (n ≤ Capacity)) as [Hn|Hn].
    + destruct (resize_spec n v Hinv Hn) as (v1 & t & _ & Hs1 & Hinv1 & ->).
      destruct Hinv1 as (Hl & Hl' & Hs & Hok & Hb).
      split; [done|]. split; [done|]. split; [done|]. split; [exact Hok|].
      intros i Hi. change (slot v1 i = empty_slot).
      apply Hb. unfold final in Hi. simpl in Hi. lia.
    + unfold resize. rewrite run_bind. unfold get at 1.
      destruct (Nat.ltb_spec Capacity n) as [_|]; [done|lia].
  - destruct (decide (size_ v = 0)) as [Hz|Hnz].
    + unfold pop_back. rewrite run_bind. unfold get at 1.
      rewrite Hz. done.
    + by apply vec_inv_pop_back.
  - intros derived ctor Hctor.
    destruct (decide (Capacity ≤ size_ v)) as [Hfull|Hcap].
    + by rewrite emplace_back_full_run.
    + destruct ctor as [e|obj].
      * by rewrite emplace_back_throw_run by lia.
      * apply vec_inv_emplace_back; [done|lia|by apply Hctor].
Qed.

(** X14. [erase(first, last)] keeps the structural invariant in every
    outcome, provided that, when the call has to shift (non-empty range,
    elements after it, container movable), the occupants after the range
    relocate faithfully: a rejected range, an empty range and the
    "cannot shift elements" error leave the container as it was, and a
    completed erasure re-establishes the invariant. *)
Theorem erase_keeps_invariant (first last : nat) (v : poly_vector) :
  vec_inv Capacity v →
  (first < last → last < size_ v → can_move_ v = true →
     vec_faithful_from last v) →
  vec_inv Capacity (final (erase Capacity first last v)).
Proof.
  intros Hinv Hfaith.
  destruct (decide (last < first ∨ size_ v < last)) as [Hbad|Hgood].
  { destruct (erase_rejected_run Capacity first last v Hbad) as (c & b & ->).
    exact Hinv. }
  destruct (decide (first < last ∧ last < size_ v ∧ can_move_ v = false))
    as [(Hfl & Hlast & Hmv)|Hshift].
  { destruct (erase_unsupported_run first last v Hfl Hlast Hmv)
      as (c & b & ->).
    exact Hinv. }
  apply vec_inv_erase; [done|lia|lia|].
  intros Hfl Hlast.
  destruct (can_move_ v) eqn:Hmv.
  - split; [done|]. by apply Hfaith.
  - exfalso. apply Hshift. done.
Qed.

End vector_invariant.

Lemma vec_inv_kept_at_the_end_witness :
  vec_inv 3 (final (PolyVector.resize 3 1 (vec_of [(Label, 1); (Canvas, 2)])))
  ∧ vec_inv 3 (final (PolyVector.emplace_back 3 (get_type_ops Label)
                        (inr (obj 4)) (vec_of [(Label, 1); (Canvas, 2)]))).
Proof.
  destruct (vec_inv_kept_at_the_end 3 (vec_of [(Label, 1); (Canvas, 2)])
              sample_vec_inv) as (_ & Hresize & _ & Hback).
  split.
  - apply Hresize.
  - apply Hback. intros o [= <-]. reflexivity.
Defined.

Lemma erase_keeps_invariant_witness :
  vec_inv 3 (final (PolyVector.erase 3 0 1 (vec_of [(Label, 1); (Canvas, 2)]))).
Proof.
  apply (erase_keeps_invariant 3 0 1 (vec_of [(Label, 1); (Canvas, 2)])).
  - exact sample_vec_inv.
  - intros _ _ _. apply sample_vec_faithful.
Defined.

(** ** Erasure is all or nothing for containers filled through the
    public interface *)

Section vector_erase_guarantee.
Import PolyVector.
Variable Capacity : nat.

Lemma safe_move_construct_outcome (o : type_operations) (dst src : cell) :
  is_trivially_copyable o = true ∨ is_Some (move_construct o) →
  (∃ d s, safe_move_construct dst src o = inr (d, s))
  ∨ (safe_move_construct dst src o = inl std_terminate
     ∧ ∃ f, move_construct o = Some f ∧ f dst src = None).
Proof.
  unfold safe_move_construct. intros [->|[f ->]]; [left; by eexists _, _|].
  destruct (is_trivially_copyable o); [left; by eexists _, _|].
  destruct (f dst src) as [[d s]|] eqn:Hf.
  - left. by exists d, s.
  - right. split; [done|]. by exists f.
Qed.

Lemma relocate_outcome (src dst : nat) (v : poly_vector) :
  (∀ p o, occupied (slot v src) = Some (p, o) →
     is_trivially_copyable o = true ∨ is_Some (move_construct o)) →
  (∃ v' t, relocate src dst v = (v', t, inr tt)
     ∧ ∀ j, j ≠ src → j ≠ dst → slot v' j = slot v j)
  ∨ (relocate src dst v = (v, [], inl std_terminate)
     ∧ ∃ p o f a b, occupied (slot v src) = Some (p, o)
         ∧ move_construct o = Some f ∧ f a b = None).
Proof.
  intros Hmov. rewrite relocate_run.
  destruct (occupied (slot v src)) as [[p o]|] eqn:Hocc.
  - destruct (safe_move_construct_outcome o (load v dst) (load v src))
      as [(d & s & ->)|[-> (f & Hf & Hnone)]]; [by eapply Hmov| |].
    + left. eexists _, _. split; [reflexivity|].
      intros j Hj1 Hj2. cbv zeta. vec_simpl.
      repeat (case_decide; [lia|]). done.
    + right. split; [done|]. by exists p, o, f, (load v dst), (load v src).
  - left. by exists v, [].
Qed.

Lemma shift_left_outcome (c k s : nat) (v : poly_vector) :
  (∀ i p o, s ≤ i < s + k → occupied (slot v i) = Some (p, o) →
     is_trivially_copyable o = true ∨ is_Some (move_construct o)) →
  ∃ v' t,
    for_each (seq s k) (λ i, relocate i (i - c)) v = (v', t, inr tt)
    ∨ (for_each (seq s k) (λ i, relocate i (i - c)) v
         = (v', t, inl std_terminate)
       ∧ ∃ i p o f a b, s ≤ i < s + k
           ∧ occupied (slot v i) = Some (p, o)
           ∧ move_construct o = Some f ∧ f a b = None).
Proof.
  revert s v. induction k as [|k IH]; intros s v Hmov.
  - exists v, []. by left.
  - cbn [seq for_each]. rewrite run_bind.
    destruct (relocate_outcome s (s - c) v)
      as [(v1 & t1 & -> & Hun)|[-> (p & o & f & a & b & Hocc & Hf & Hnone)]].
    { intros p o. apply Hmov. lia. }
    + destruct (IH (S s) v1) as (v' & t' & [->|[-> Hthrow]]).
      { intros i p o Hi. rewrite Hun by lia. apply Hmov. lia. }
      * eexists _, _. by left.
      * eexists _, _. right. split; [done|].
        destruct Hthrow as (i & p & o & f & a & b & Hi & Hocc & Hf & Hnone).
        rewrite Hun in Hocc by lia.
        exists i, p, o, f, a, b. split; [lia|done].
    + exists v, []. right. split; [done|].
      exists s, p, o, f, a, b. split; [lia|done].
Qed.

Lemma destroy_loop_frame (l : list nat) (v v' : poly_vector) t r :
  for_each l destroy_at v = (v', t, r) → vec_frame v v'.
Proof.
  apply (for_each_preserves vec_frame);
    [apply vec_frame_refl|apply vec_frame_trans|].
  intros i s s' t' r'. rewrite destroy_at_run.
  destruct (occupied (slot s i)) as [[p o]|].
  - intros [= <- _ _]. unfold vec_frame; simpl. by rewrite !length_insert.
  - intros [= <- _ _]. apply vec_frame_refl.
Qed.

(** X15. In a vector whose operation tables were all built by
    [get_type_ops] and whose move flag is not stale (both hold after any
    completed insertion or removal through the public interface), no
    exception leaves [erase(first, last)] once a destructor has run.
    Either it throws one of the header's own exceptions (invalid range,
    cannot shift) before any destructor has run, with storage, slot
    records, size and flags unchanged; or it returns [first] with the size
    decreased by the length of the range; or the program ends in
    [std::terminate], which happens only when the move constructor of an
    occupant behind the range throws inside its [noexcept] table entry. *)
Theorem erase_all_or_nothing (first last : nat) (v : poly_vector) :
  vec_factory_built v → vec_move_sound v →
  (∃ c b e, erase Capacity first last v = (set_cache c b v, [], inl (raised e)))
  ∨ (∃ v' t, erase Capacity first last v = (v', t, inr first)
       ∧ size_ v' = size_ v - (last - first))
  ∨ (∃ v' t, erase Capacity first last v = (v', t, inl std_terminate)
       ∧ ∃ i p o f a b, last ≤ i < size_ v
           ∧ occupied (slot v i) = Some (p, o)
           ∧ move_construct o = Some f ∧ f a b = None).
Proof.
  intros Hfactory Hsound.
  destruct (decide (last < first ∨ size_ v < last)) as [Hbad|Hgood].
  { left. destruct (erase_rejected_run Capacity first last v Hbad)
      as (c & b & ->). by eexists _, _, _. }
  destruct (decide (first = last)) as [->|Hne].
  { right. left.
    destruct (erase_empty_run Capacity last v) as (c & b & ->); [lia|].
    eexists _, _. split; [reflexivity|]. simpl. lia. }
  destruct (decide (last < size_ v ∧ can_move_ v = false)) as [[Hlast Hmv]|Hok].
  { left. destruct (erase_unsupported_run Capacity first last v)
      as (c & b & ->); [lia|done|done|]. by eexists _, _, _. }
  right.
  destruct (update_ptr_cache_run Capacity v) as (c0 & b0 & Hupc).
  remember (erase Capacity first last v) as R eqn:HR.
  unfold erase in HR. rewrite run_bind, Hupc in HR.
  rewrite run_bind in HR. unfold get at 1 in HR. cbv beta iota in HR.
  change (size_ (set_cache c0 b0 v)) with (size_ v) in HR.
  change (can_move_ (set_cache c0 b0 v)) with (can_move_ v) in HR.
  destruct (Nat.ltb_spec last first) as [|_]; [lia|].
  destruct (Nat.ltb_spec (size_ v) last) as [|_]; [lia|].
  cbn [orb] in HR.
  destruct (Nat.eqb_spec (last - first) 0) as [|_]; [lia|].
  assert ((last <? size_ v) && negb (can_move_ v) = false) as Hguard.
  { destruct (Nat.ltb_spec last (size_ v)); [|done].
    destruct (can_move_ v); [done|]. exfalso. by apply Hok. }
  rewrite Hguard in HR. rewrite run_bind in HR.
  destruct (destroy_range_any first (last - first) (set_cache c0 b0 v))
    as (v1 & t1 & Hrun1 & _ & Hout1 & _).
  pose proof (destroy_loop_frame _ _ _ _ _ Hrun1) as (_ & _ & Hs1 & _).
  change (size_ (set_cache c0 b0 v)) with (size_ v) in Hs1.
  change (slot (set_cache c0 b0 v)) with (slot v) in Hout1.
  rewrite Hrun1 in HR. rewrite run_bind in HR.
  assert (Hif := shift_left_if last (last - first) v1).
  rewrite Hs1 in Hif. rewrite Hif in HR by lia. clear Hif.
  destruct (shift_left_outcome (last - first) (size_ v - last) last v1)
    as (v2 & t2 & [Hrun2|[Hrun2 Hthrow]]).
  { intros i p o Hi Hocc. rewrite Hout1 in Hocc by lia.
    destruct (Hfactory i p o Hocc) as [T ->].
    right. unfold get_type_ops, create. cbn [move_construct].
    assert (can_move_ v = true) as Hmv.
    { destruct (can_move_ v); [done|]. exfalso. apply Hok. split; [lia|done]. }
    pose proof (Hsound Hmv i ltac:(lia) p _ Hocc) as Hm.
    unfold get_type_ops, create in Hm. cbn [is_move_constructible] in Hm.
    apply bool_decide_eq_true in Hm. by apply fmap_is_Some. }
  - left. rewrite Hrun2 in HR.
    pose proof (for_each_preserves vec_frame
                  (λ i, relocate i (i - (last - first)))
                  (seq last (size_ v - last))
                  vec_frame_refl vec_frame_trans
                  (λ i s s' t r, relocate_frame i (i - (last - first)) s s' t r)
                  _ _ _ _ Hrun2) as (_ & _ & Hs2 & _).
    destruct (erase_tail_run Capacity (last - first) first v2)
      as (w' & Htail & Hs).
    rewrite Htail in HR. rewrite HR.
    eexists _, _. split; [reflexivity|]. lia.
  - right. rewrite Hrun2 in HR. rewrite HR.
    eexists _, _. split; [reflexivity|].
    destruct Hthrow as (i & p & o & f & a & b & Hi & Hocc & Hf & Hnone).
    rewrite Hout1 in Hocc by lia.
    exists i, p, o, f, a, b. split; [lia|done].
Qed.

End vector_erase_guarantee.

Lemma sample_vec_factory_built :
  vec_factory_built (vec_of [(Label, 1); (Canvas, 2)]).
Proof.
  intros [|[|[|i]]] p o; simpl; intros [= <- <-]; by eexists.
Qed.

Lemma sample_vec_move_sound :
  vec_move_sound (vec_of [(Label, 1); (Canvas, 2)]).
Proof.
  intros _ [|[|[|i]]] _ p o; simpl; intros [= <- <-]; reflexivity.
Qed.

Lemma throwing_vec_factory_built :
  vec_factory_built (vec_of [(Label, 1); (ThrowingMove, 2)]).
Proof.
  intros [|[|[|i]]] p o; simpl; intros [= <- <-]; by eexists.
Qed.

Lemma throwing_vec_move_sound :
  vec_move_sound (vec_of [(Label, 1); (ThrowingMove, 2)]).
Proof.
  intros _ [|[|[|i]]] _ p o; simpl; intros [= <- <-]; reflexivity.
Qed.

Lemma erase_all_or_nothing_witness :
  (∃ v' t, PolyVector.erase 3 0 1 (vec_of [(Label, 1); (Canvas, 2)])
     = (v', t, inr 0)
     ∧ PolyVector.size_ v' = 1)
  ∧ PolyVector.is_movable (vec_of [(Label, 1); (ThrowingMove, 2)]) = true
  ∧ ∃ v' t, PolyVector.erase 3 0 1 (vec_of [(Label, 1); (ThrowingMove, 2)])
     = (v', t, inl std_terminate).
Proof.
  split; [|split; [reflexivity|]].
  - destruct (erase_all_or_nothing 3 0 1 (vec_of [(Label, 1); (Canvas, 2)])
                sample_vec_factory_built sample_vec_move_sound)
      as [(c & b & e & H)|[(v' & t & H & Hs)|(v' & t & H & _)]].
    + exfalso. vm_compute in H. discriminate H.
    + exists v', t. split; [exact H|exact Hs].
    + exfalso. vm_compute in H. discriminate H.
  - destruct (erase_all_or_nothing 3 0 1
                (vec_of [(Label, 1); (ThrowingMove, 2)])
                throwing_vec_factory_built throwing_vec_move_sound)
      as [(c & b & e & H)|[(v' & t & H & Hs)|(v' & t & H & _)]].
    + exfalso. vm_compute in H. discriminate H.
    + exfalso. vm_compute in H. discriminate H.
    + exists v', t. exact H.
Defined.

(** ** The move flag *)

Section move_flag.
Variables Capacity N : nat.

Lemma vec_move_exact_tail {A} (v v' : PolyVector.poly_vector)
    (t : list event) (x r : A) :
  (PolyVector.update_capabilities;;
   PolyVector.update_ptr_cache Capacity;; ret x) v = (v', t, inr r) →
  vec_move_exact v'.
Proof.
  intros H. peel H. peel H. destruct a.
  apply vec_move_exact_update in Hstep.
  unfold ret in H. injection H as <- _ _.
  unfold PolyVector.update_ptr_cache, modify in Hstep0.
  injection Hstep0 as <- _. by destruct (PolyVector.cache_valid_ s).
Qed.

Lemma emplace_back_move_exact derived ctor (v v' : PolyVector.poly_vector) t r :
  PolyVector.emplace_back Capacity derived ctor v = (v', t, inr r) →
  vec_move_exact v'.
Proof.
  unfold PolyVector.emplace_back. intros H. peel H.
  destruct (Capacity <=? PolyVector.size_ a); [done|].
  do 5 peel H. unfold ret in H. injection H as <- _ _.
  destruct a4. by apply vec_move_exact_update in Hstep4.
Qed.

Lemma emplace_move_exact pos derived ctor (v v' : PolyVector.poly_vector) t r :
  PolyVector.emplace Capacity pos derived ctor v = (v', t, inr r) →
  vec_move_exact v'.
Proof.
  unfold PolyVector.emplace. intros H. do 2 peel H.
  destruct (PolyVector.size_ a0 <? pos); [done|].
  destruct (Capacity <=? PolyVector.size_ a0); [done|].
  do 5 peel H. by apply vec_move_exact_tail in H.
Qed.

Lemma erase_move_exact first last (v v' : PolyVector.poly_vector) t r :
  first < last →
  PolyVector.erase Capacity first last v = (v', t, inr r) → vec_move_exact v'.
Proof.
  unfold PolyVector.erase. intros Hlt H. do 2 peel H.
  destruct (_ || _); [done|].
  destruct (Nat.eqb_spec (last - first) 0); [lia|].
  destruct (_ && _); [done|].
  do 4 peel H. by apply vec_move_exact_tail in H.
Qed.

Lemma arr_move_exact_update (a a' : PolyArray.poly_array) (t : list event) :
  PolyArray.update_capabilities a = (a', t, inr tt) → arr_move_exact a'.
Proof.
  rewrite arr_update_capabilities_run. intros [= <- _].
  unfold arr_move_exact, PolyArray.is_movable. simpl.
  rewrite (proj2 (capabilities_spec _)), Forall_lookup.
  change (PolyArray.slot (PolyArray.set_flags ?c ?m ?w))
    with (PolyArray.slot w).
  split.
  - intros H i. unfold PolyArray.slot.
    destruct (PolyArray.slots_ a !! i) as [s|] eqn:Hs.
    + by apply (H i).
    + intros p o Ho. done.
  - intros H i s Hs. specialize (H i). unfold PolyArray.slot in H.
    by rewrite Hs in H.
Qed.

Lemma arr_emplace_move_exact index derived ctor
    (a a' : PolyArray.poly_array) t r :
  PolyArray.emplace N index derived ctor a = (a', t, inr r) →
  arr_move_exact a'.
Proof.
  unfold PolyArray.emplace. intros H.
  destruct (N <=? index); [done|].
  do 3 peel H.
  destruct (placement_new _ _); [done|].
  do 4 peel H. unfold ret in H. injection H as <- _ _.
  destruct a5. apply arr_move_exact_update in Hstep4.
  unfold PolyArray.invalidate_cache, modify in Hstep5.
  by injection Hstep5 as <- _.
Qed.

(** X16. [is_movable()] is exact after each of the following calls: it is
    true in a freshly default-constructed container and after [clear()],
    where no slot of the range is occupied, and after every completed
    [emplace_back], [emplace], [pop_back], [erase] of a non-empty range
    and array [emplace] it is true if and only if every occupied slot of
    the range holds a move-constructible variant.  The whole-container
    copy and move, which take over the flag of their source or set it to
    false, are not among these calls. *)
Theorem is_movable_tracks_occupants (SlotSize : nat) :
  vec_move_exact (PolyVector.default_constructed Capacity SlotSize)
  ∧ PolyVector.is_movable (PolyVector.default_constructed Capacity SlotSize)
    = true
  ∧ arr_move_exact (PolyArray.default_constructed N SlotSize)
  ∧ PolyArray.is_movable (PolyArray.default_constructed N SlotSize) = true
  ∧ (∀ v, vec_move_exact (final (PolyVector.clear v))
          ∧ PolyVector.is_movable (final (PolyVector.clear v)) = true)
  ∧ (∀ a, length (PolyArray.slots_ a) = N →
          arr_move_exact (final (PolyArray.clear N a))
          ∧ PolyArray.is_movable (final (PolyArray.clear N a)) = true)
  ∧ (∀ v v' t r derived ctor,
       PolyVector.emplace_back Capacity derived ctor v = (v', t, inr r) →
       vec_move_exact v')
  ∧ (∀ v v' t r pos derived ctor,
       PolyVector.emplace Capacity pos derived ctor v = (v', t, inr r) →
       vec_move_exact v')
  ∧ (∀ v v' t r,
       PolyVector.pop_back v = (v', t, inr r) → vec_move_exact v')
  ∧ (∀ v v' t r first last,
       first < last →
       PolyVector.erase Capacity first last v = (v', t, inr r) →
       vec_move_exact v')
  ∧ (∀ a a' t r index derived ctor,
       PolyArray.emplace N index derived ctor a = (a', t, inr r) →
       arr_move_exact a').
Proof.
  split.
  { split; [|done]. intros _ i Hi. simpl in Hi. lia. }
  split; [done|].
  split.
  { split; [|done]. intros _ i p o.
    destruct (arr_default_constructed_empty N SlotSize) as (_ & _ & He).
    by rewrite He. }
  split; [done|].
  split.
  { intros v. destruct (clear_run v) as (w & t & _ & ->).
    split; [|done]. split; [|done]. intros _ i Hi. simpl in Hi. lia. }
  split.
  { intros a Hlen.
    destruct (arr_clear_run N a) as (w & t & Hloop & ->).
    split; [|done]. split; [|done]. intros _ i p o.
    change (occupied (PolyArray.slot w i) = Some (p, o)
            → is_move_constructible o = true).
    destruct (arr_clear_range_any 0 N a) as (w' & t' & Hrun & Hin & Hout & _).
    rewrite Hrun in Hloop. injection Hloop as <- _.
    destruct (decide (i < N)) as [Hlt|Hge].
    - rewrite Hin by lia. done.
    - rewrite Hout by lia. rewrite arr_slot_ge by lia. done. }
  split. { intros v v' t r derived ctor. apply emplace_back_move_exact. }
  split. { intros v v' t r pos derived ctor. apply emplace_move_exact. }
  split. { intros v v' t r. apply pop_back_move_exact. }
  split. { intros v v' t r first last. apply erase_move_exact. }
  intros a a' t r index derived ctor. apply arr_emplace_move_exact.
Qed.

End move_flag.

Lemma is_movable_tracks_occupants_witness :
  vec_move_exact
    (final (PolyVector.erase 3 0 1 (vec_of [(Label, 1); (Canvas, 2)])))
  ∧ arr_move_exact (final (PolyArray.clear 3 (arr_of [(0, Canvas, 1)]))).
Proof.
  destruct (is_movable_tracks_occupants 3 3 2)
    as (_ & _ & _ & _ & _ & Hclear & _ & _ & _ & Herase & _).
  split.
  - apply (Herase (vec_of [(Label, 1); (Canvas, 2)]) _
             (trace (PolyVector.erase 3 0 1 (vec_of [(Label, 1); (Canvas, 2)])))
             0 0 1); [lia|].
    vm_compute. reflexivity.
  - apply Hclear. reflexivity.
Defined.

(** ** Whole-container copy *)

Section vector_copy.
Import PolyVector.
Variables Capacity SlotSize : nat.

Lemma copy_from_step_run (i : nat) (this other : poly_vector) :
  copy_from_step i (this, other) =
    match occupied (slot other i) with
    | None => ((this, other), [], inr tt)
    | Some (_, o) =>
        match safe_copy_construct (load this i) (load other i) o with
        | inl e => ((this, other), [], inl e)
        | inr c =>
            ((set_slot i {| ptr := Some i; ops := ops (slot other i) |}
                (store i c this), other), [], inr tt)
        end
    end.
Proof.
  unfold copy_from_step, get_storage_slot. munfold.
  destruct (occupied (slot other i)) as [[p o]|]; [|done].
  by destruct (safe_copy_construct _ _ o) as [e|c].
Qed.

Lemma copy_from_loop (from k : nat) (this other : poly_vector) :
  (∀ i, vec_slot_ok other i) →
  (∀ i p o, from ≤ i < from + k → occupied (slot other i) = Some (p, o) →
     faithful_copy o) →
  from + k ≤ length (slots_ this) → from + k ≤ length (storage_ this) →
  (∀ i, from ≤ i < from + k → slot this i = empty_slot) →
  ∃ this',
    for_each (seq from k) copy_from_step (this, other)
      = ((this', other), [], inr tt)
    ∧ vec_frame this this'
    ∧ (∀ i, from ≤ i < from + k → vec_moved other i this' i)
    ∧ (∀ i, ¬ (from ≤ i < from + k) →
         slot this' i = slot this i ∧ load this' i = load this i).
Proof.
  revert from this.
  induction k as [|k IH]; intros from this Hok Hfaith Hlt Hlt' Hempty.
  - exists this. simpl. split; [done|].
    split; [apply vec_frame_refl|]. split; [intros; lia|done].
  - cbn [seq for_each]. rewrite run_bind, copy_from_step_run.
    assert (∃ this1,
      match occupied (slot other from) with
      | None => ((this, other), [], inr tt)
      | Some (_, o) =>
          match safe_copy_construct (load this from) (load other from) o with
          | inl e => ((this, other), [], inl e)
          | inr c =>
              ((set_slot from {| ptr := Some from;
                                 ops := ops (slot other from) |}
                  (store from c this), other), [], inr tt)
          end
      end = ((this1, other), [], inr tt)
      ∧ vec_frame this this1
      ∧ vec_moved other from this1 from
      ∧ (∀ i, i ≠ from →
           slot this1 i = slot this i ∧ load this1 i = load this i))
      as (this1 & -> & Hft & Hmv & Hun).
    { unfold vec_moved. destruct (Hok from) as [He|(o & Ho & Hfit)].
      - rewrite He. simpl. exists this.
        split; [done|]. split; [apply vec_frame_refl|].
        split; [apply Hempty; lia|done].
      - assert (occupied (slot other from) = Some (from, o)) as Hocc
          by (by rewrite Ho).
        rewrite Hocc.
        destruct (Hfaith from from o ltac:(lia) Hocc
                    (load this from) (load other from) Hfit)
          as (c & -> & Hfd & Hrepr).
        rewrite Ho. simpl ops.
        eexists. split; [reflexivity|].
        split; [|split].
        + unfold vec_frame; simpl. by rewrite !length_insert.
        + split; [|split].
          * vec_simpl. case_decide; [done|lia].
          * vec_simpl. case_decide; [done|lia].
          * vec_simpl. case_decide; [done|lia].
        + intros i Hi. vec_simpl. repeat (case_decide; [lia|]). done. }
    pose proof Hft as (Ht1 & Ht1' & _).
    destruct (IH (S from) this1)
      as (this' & -> & Hft' & Hin & Hout); [done| |lia|lia| |].
    { intros i p o Hi. apply Hfaith. lia. }
    { intros i Hi. destruct (Hun i) as (-> & _); [lia|]. apply Hempty. lia. }
    exists this'. split; [reflexivity|].
    split; [by apply (vec_frame_trans this this1 this')|].
    split.
    + intros i Hi. destruct (decide (i = from)) as [->|Hn].
      * destruct (Hout from) as (Hs & Hl); [lia|].
        by apply (vec_moved_ext other other from this1 this' from).
      * apply Hin. lia.
    + intros i Hi. destruct (Hout i) as (-> & ->); [lia|].
      apply Hun. lia.
Qed.

Lemma copy_from_run (this other : poly_vector) :
  vec_inv Capacity other → vec_copy_faithful other →
  length (slots_ this) = Capacity → length (storage_ this) = Capacity →
  (∀ i, slot this i = empty_slot) →
  ∃ this',
    copy_from (this, other) = ((this', other), [], inr tt)
    ∧ size_ this' = size_ other
    ∧ vec_occupants this' = vec_occupants other
    ∧ can_copy_ this' = can_copy_ other
    ∧ can_move_ this' = can_move_ other
    ∧ cache_valid_ this' = false
    ∧ vec_inv Capacity this'.
Proof.
  intros (Hls & Hlc & Hsz & Hok & Hbeyond) Hfaith Hlt Hlt' Hempty.
  destruct (copy_from_loop 0 (size_ other) (set_size (size_ other) this) other)
    as (this' & Hrun & Hft & Hin & Hout); try done.
  { intros i p o Hi. by apply (Hfaith i p). }
  { simpl. lia. } { simpl. lia. }
  { intros i _. apply Hempty. }
  unfold copy_from. munfold. simpl. rewrite Hrun. simpl.
  eexists. split; [reflexivity|].
  destruct Hft as (Hl1 & Hl1' & Hst & _). simpl in Hl1, Hl1', Hst.
  split; [done|]. split; [|split; [done|split; [done|split; [done|]]]].
  - unfold vec_occupants. simpl. rewrite Hst.
    apply fmap_seq_ext. intros i Hi.
    change (vec_occupant this' i = vec_occupant other i).
    apply vec_occupant_moved; [apply Hok|]. apply Hin. lia.
  - unfold vec_inv. simpl.
    split; [lia|]. split; [lia|]. split; [lia|]. split.
    + intros i. change (vec_slot_ok this' i).
      destruct (decide (i < size_ other)) as [Hi|Hi].
      * specialize (Hin i ltac:(lia)). unfold vec_moved in Hin.
        destruct (occupied (slot other i)) as [[p o]|].
        -- destruct Hin as (Hs & Hfit & _). right. by exists o.
        -- by left.
      * left. destruct (Hout i) as [-> _]; [lia|]. apply Hempty.
    + intros i Hi. change (slot this' i = empty_slot).
      rewrite Hst in Hi.
      destruct (Hout i) as [-> _]; [lia|]. apply Hempty.
Qed.

(** X17. Copying a vector whose copy flag is set and whose occupants copy
    faithfully returns, runs no destructor of the source and leaves the
    source exactly as it was; the destination then has the size, the
    sequence of occupants (operation tables and object representations)
    and the capability flags of the source and satisfies the structural
    invariant.  That holds for the copy constructor, and for copy
    assignment to another vector, which first destroys each previous
    occupant of the destination exactly once. *)
Theorem vec_copy_round_trip (other : poly_vector) :
  vec_inv Capacity other → vec_copy_faithful other →
  can_copy_ other = true →
  (∃ this',
     copy_constructor (default_constructed Capacity SlotSize, other)
       = ((this', other), [], inr tt)
     ∧ size_ this' = size_ other
     ∧ vec_occupants this' = vec_occupants other
     ∧ can_copy_ this' = true ∧ can_move_ this' = can_move_ other
     ∧ vec_inv Capacity this')
  ∧ (∀ this, vec_inv Capacity this →
     ∃ this',
       copy_assignment (this, other)
         = ((this', other),
            destroy_calls (slot this <$> seq 0 (size_ this)), inr tt)
       ∧ size_ this' = size_ other
       ∧ vec_occupants this' = vec_occupants other
       ∧ can_copy_ this' = true ∧ can_move_ this' = can_move_ other
       ∧ vec_inv Capacity this').
Proof.
  intros Hinv Hfaith Hcopy. split.
  - destruct (default_constructed_empty Capacity SlotSize) as (Hl & Hl' & He).
    destruct (copy_from_run (default_constructed Capacity SlotSize) other)
      as (this' & Hrun & Hs & Hocc & Hc & Hm & _ & Hinv'); try done.
    exists this'. unfold copy_constructor. rewrite run_bind.
    unfold get at 1. cbv beta iota. rewrite Hcopy. cbn [negb].
    rewrite Hrun. split; [done|]. split; [done|]. split; [done|].
    split; [congruence|]. done.
  - intros this Hthis.
    destruct (clear_spec Capacity this Hthis)
      as (this0 & Hclear & _ & Hl & Hl' & He & _).
    destruct (copy_from_run this0 other)
      as (this' & Hrun & Hs & Hocc & Hc & Hm & _ & Hinv'); try done.
    exists this'. unfold copy_assignment. rewrite run_bind.
    unfold get at 1. cbv beta iota. rewrite Hcopy. cbn [negb].
    rewrite run_bind. unfold on_this at 1. rewrite Hclear, Hrun.
    rewrite app_nil_r.
    split; [done|]. split; [done|]. split; [done|].
    split; [congruence|]. done.
Qed.

End vector_copy.

Lemma faithful_bitwise_copy (o : type_operations) :
  copy_construct o = Some (bitwise_copy (size o)) → faithful_copy o.
Proof.
  intros Hc dst src Hfit. unfold safe_copy_construct. rewrite Hc.
  eexists. split; [reflexivity|].
  unfold repr, memcpy. split.
  - rewrite length_app, length_take. lia.
  - rewrite take_app_le by (rewrite length_take; lia).
    rewrite take_take. f_equal. lia.
Qed.

Lemma sample_copyable_vec_inv : vec_inv 3 (vec_of [(Label, 1); (CopyOnly, 2)]).
Proof.
  split; [done|]. split; [done|]. split; [vm_compute; lia|]. split.
  - intros [|[|[|i]]].
    + right. eexists. split; [reflexivity|]. vm_compute. lia.
    + right. eexists. split; [reflexivity|]. vm_compute. lia.
    + by left.
    + by left.
  - intros [|[|[|i]]] Hi; try done; vm_compute in Hi; lia.
Qed.

Lemma sample_copyable_vec_faithful :
  vec_copy_faithful (vec_of [(Label, 1); (CopyOnly, 2)]).
Proof.
  intros [|[|[|i]]] p o; simpl; intros [= <- <-];
    by apply faithful_bitwise_copy.
Qed.

Lemma vec_copy_round_trip_witness :
  vec_occupants
    (final (PolyVector.copy_constructor
              (PolyVector.default_constructed 3 2,
               vec_of [(Label, 1); (CopyOnly, 2)]))).1
  = [Some (get_type_ops Label, obj 1); Some (get_type_ops CopyOnly, obj 2)].
Proof.
  destruct (vec_copy_round_trip 3 2 (vec_of [(Label, 1); (CopyOnly, 2)]))
    as [(this' & Hrun & _ & Hocc & _) _].
  - exact sample_copyable_vec_inv.
  - exact sample_copyable_vec_faithful.
  - reflexivity.
  - rewrite Hrun. unfold final. cbn [fst]. rewrite Hocc. reflexivity.
Defined.

(** ** [poly_array]: replacing the occupant of a position *)

Section array_emplace.
Import PolyArray.
Variable N : nat.

Lemma arr_emplace_vacate (index : nat) (a : poly_array) :
  arr_inv N a → index < N →
  ∃ a1,
    (match ptr (slot a index) with
     | Some _ => destroy_at index
     | None => ret tt
     end) a = (a1, destroy_calls [slot a index], inr tt)
    ∧ slot a1 index = empty_slot
    ∧ (∀ j, j ≠ index → slot a1 j = slot a j ∧ load a1 j = load a j)
    ∧ length (slots_ a1) = N ∧ length (storage_ a1) = N
    ∧ can_copy_ a1 = can_copy_ a ∧ can_move_ a1 = can_move_ a
    ∧ ptr_cache_ a1 = ptr_cache_ a ∧ cache_valid_ a1 = cache_valid_ a.
Proof.
  intros (Hls & Hlc & Hok) Hi.
  unfold destroy_calls. cbn [mbind list_bind]. rewrite app_nil_r.
  destruct (Hok index) as [He|(o & Ho & Hfit)].
  - rewrite He. cbn [ptr occupied ops empty_slot]. exists a.
    split; [done|]. split; [done|]. split; [done|]. done.
  - rewrite Ho. cbn [ptr]. rewrite arr_destroy_at_run, Ho.
    cbn [occupied ptr ops]. eexists. split; [reflexivity|].
    split; [arr_simpl; case_decide; [done|lia]|].
    split; [intros j Hj; arr_simpl; repeat (case_decide; [lia|]); done|].
    simpl. rewrite !length_insert. done.
Qed.

Lemma arr_emplace_spec (index : nat) (derived : type_operations)
    (obj : list byte) (a : poly_array) :
  arr_inv N a → index < N → length obj = size derived →
  ∃ a', emplace N index derived (inr obj) a
          = (a', destroy_calls [slot a index], inr index)
    ∧ slot a' index = {| ptr := Some index; ops := Some derived |}
    ∧ arr_occupant a' index = Some (derived, obj)
    ∧ (∀ j, j ≠ index → slot a' j = slot a j ∧ load a' j = load a j)
    ∧ cache_valid_ a' = false
    ∧ arr_inv N a'.
Proof.
  intros Hinv Hi Hobj.
  destruct (arr_emplace_vacate index a Hinv Hi)
    as (a1 & Hrun1 & He1 & Hun1 & Hl1 & Hl1' & _).
  destruct Hinv as (Hls & Hlc & Hok).
  unfold emplace.
  destruct (Nat.leb_spec N index) as [|_]; [lia|].
  rewrite run_bind. unfold get at 1. cbv beta iota.
  rewrite run_bind, Hrun1.
  rewrite run_bind. unfold get at 1. cbv beta iota.
  unfold get_storage_slot. cbn [placement_new].
  munfold. rewrite arr_update_capabilities_run.
  unfold invalidate_cache, modify. cbn [fst snd].
  rewrite !app_nil_r.
  set (cell' := obj ++ drop (length obj) (load a1 index)).
  set (a2 := set_slot index {| ptr := Some index; ops := Some derived |}
               (store index cell' a1)).
  eexists. split; [reflexivity|].
  assert (∀ j, slot a2 j = if decide (j = index) then
                 {| ptr := Some index; ops := Some derived |} else slot a1 j)
    as Hslot2.
  { intros j. unfold a2. arr_simpl.
    destruct (decide (j = index)) as [->|]; case_decide; try done; lia. }
  assert (∀ j, load a2 j = if decide (j = index) then cell' else load a1 j)
    as Hload2.
  { intros j. unfold a2. arr_simpl.
    destruct (decide (j = index)) as [->|]; case_decide; try done; lia. }
  assert (size derived ≤ length cell') as Hfit.
  { unfold cell'. rewrite length_app. lia. }
  split; [|split; [|split; [|split; [done|]]]].
  - change (slot a2 index = {| ptr := Some index; ops := Some derived |}).
    rewrite Hslot2. by case_decide.
  - unfold arr_occupant.
    change (slot (set_cache ?c ?b (set_flags ?x ?y a2))) with (slot a2).
    change (load (set_cache ?c ?b (set_flags ?x ?y a2))) with (load a2).
    rewrite Hslot2. case_decide; [|done]. cbn [occupied ptr ops].
    rewrite Hload2. case_decide; [|done].
    unfold repr, cell'. rewrite <- Hobj. by rewrite take_app_length.
  - intros j Hj.
    change (slot a2 j = slot a j ∧ load a2 j = load a j).
    rewrite Hslot2, Hload2. case_decide; [done|]. by apply Hun1.
  - split; [|split].
    + simpl. by rewrite !length_insert.
    + simpl. by rewrite !length_insert.
    + intros j. unfold arr_slot_ok.
      change (slot (set_cache ?c ?b (set_flags ?x ?y a2))) with (slot a2).
      change (load (set_cache ?c ?b (set_flags ?x ?y a2))) with (load a2).
      rewrite Hslot2, Hload2. destruct (decide (j = index)) as [->|Hn].
      * right. by exists derived.
      * destruct (Hun1 j Hn) as [-> ->]. apply Hok.
Qed.

Lemma arr_emplace_throw_spec (index : nat) (derived : type_operations)
    (e : std_exception) (a : poly_array) :
  arr_inv N a → index < N →
  ∃ a', emplace N index derived (inl e) a
          = (a', destroy_calls [slot a index], inl (propagated e))
    ∧ slot a' index = empty_slot
    ∧ (∀ j, j ≠ index → slot a' j = slot a j ∧ load a' j = load a j)
    ∧ can_copy_ a' = can_copy_ a ∧ can_move_ a' = can_move_ a
    ∧ ptr_cache_ a' = ptr_cache_ a ∧ cache_valid_ a' = cache_valid_ a
    ∧ arr_inv N a'.
Proof.
  intros Hinv Hi.
  destruct (arr_emplace_vacate index a Hinv Hi)
    as (a1 & Hrun1 & He1 & Hun1 & Hl1 & Hl1' & Hc & Hm & Hpc & Hcv).
  destruct Hinv as (Hls & Hlc & Hok).
  exists a1. split.
  - unfold emplace.
    destruct (Nat.leb_spec N index) as [|_]; [lia|].
    rewrite run_bind. unfold get at 1. cbv beta iota.
    rewrite run_bind, Hrun1.
    rewrite run_bind. unfold get at 1. cbv beta iota.
    cbn [placement_new]. unfold throw. by rewrite app_nil_r.
  - do 6 (split; [done|]).
    split; [done|]. split; [done|].
    intros j. destruct (decide (j = index)) as [->|Hn]; [by left|].
    destruct (Hun1 j Hn) as [Hs Hl]. by apply (arr_slot_ok_ext a).
Qed.

(** X18. [poly_array::emplace(index, ...)] with [index < N] and a
    constructor that completes returns the new object's address, which is
    slot [index] itself; the previous occupant of the position, if any, is
    destroyed exactly once, before the construction; afterwards the
    position holds the new object, every other position keeps its slot
    record, its bytes and its occupant (positions are stable),
    [at(index)] returns the new object's pointer, the pointer cache is
    invalidated and the structural invariant is kept. *)
Theorem arr_emplace_replaces (index : nat) (derived : type_operations)
    (obj : list byte) (a : poly_array) :
  arr_inv N a → index < N → length obj = size derived →
  ∃ a', emplace N index derived (inr obj) a
          = (a', destroy_calls [slot a index], inr index)
    ∧ arr_occupant a' index = Some (derived, obj)
    ∧ (∀ j, j ≠ index →
         slot a' j = slot a j ∧ load a' j = load a j
         ∧ arr_occupant a' j = arr_occupant a j)
    ∧ at_ N index a' = (a', [], inr (Some index))
    ∧ cache_valid_ a' = false
    ∧ arr_inv N a'.
Proof.
  intros Hinv Hi Hobj.
  destruct (arr_emplace_spec index derived obj a Hinv Hi Hobj)
    as (a' & Hrun & Hnew & Hocc & Hun & Hcv & Hinv').
  exists a'. split; [done|]. split; [done|].
  split; [|split; [|done]].
  - intros j Hj. destruct (Hun j Hj) as [Hs Hl].
    split; [done|]. split; [done|].
    unfold arr_occupant. rewrite Hs.
    destruct Hinv as (_ & _ & Hok).
    destruct (Hok j) as [He|(o & Ho & _)].
    + by rewrite He.
    + rewrite Ho. cbn [occupied ptr ops]. by rewrite Hl.
  - unfold at_. destruct (Nat.leb_spec N index) as [|_]; [lia|].
    rewrite run_bind. unfold get at 1. cbv beta iota. by rewrite Hnew.
Qed.

(** X19. A call of [poly_array::emplace] that fails: with [index >= N] it
    throws [std::out_of_range] (the message names the index) and changes
    nothing; with [index < N] and a throwing constructor the exception is
    passed on after the previous occupant of the position, if any, has
    been destroyed exactly once, the position is left empty (null pointer
    and null operation table), every other position is untouched and the
    structural invariant holds; the capability flags and the pointer
    cache are left as they were, not refreshed. *)
Theorem arr_emplace_failure (index : nat) (derived : type_operations)
    (a : poly_array) :
  (N ≤ index → ∀ ctor,
     emplace N index derived ctor a
     = (a, [], inl (raised (out_of_range
          ("poly_array::emplace(" +:+ pretty index +:+ ") out of bounds")%string))))
  ∧ (arr_inv N a → index < N → ∀ e,
     ∃ a', emplace N index derived (inl e) a
             = (a', destroy_calls [slot a index], inl (propagated e))
       ∧ slot a' index = empty_slot
       ∧ (∀ j, j ≠ index → slot a' j = slot a j ∧ load a' j = load a j)
       ∧ can_copy_ a' = can_copy_ a ∧ can_move_ a' = can_move_ a
       ∧ ptr_cache_ a' = ptr_cache_ a ∧ cache_valid_ a' = cache_valid_ a
       ∧ arr_inv N a').
Proof.
  split.
  - intros Hge ctor. unfold emplace.
    destruct (Nat.leb_spec N index) as [_|]; [done|lia].
  - intros Hinv Hi e. by apply arr_emplace_throw_spec.
Qed.

End array_emplace.

Lemma arr_emplace_replaces_witness :
  arr_occupant
    (final (PolyArray.emplace 3 0 (get_type_ops Label) (inr (obj 7))
              (arr_of [(0, Canvas, 1); (2, Label, 2)]))) 0
  = Some (get_type_ops Label, obj 7)
  ∧ trace (PolyArray.emplace 3 0 (get_type_ops Label) (inr (obj 7))
             (arr_of [(0, Canvas, 1); (2, Label, 2)]))
    = [ev_destroy self 0].
Proof.
  destruct (arr_emplace_replaces 3 0 (get_type_ops Label) (obj 7)
              (arr_of [(0, Canvas, 1); (2, Label, 2)]))
    as (a' & Hrun & Hocc & _).
  - exact sample_arr_inv.
  - lia.
  - reflexivity.
  - rewrite Hrun. unfold final, trace. cbn [fst snd].
    split; [exact Hocc|]. vm_compute. reflexivity.
Defined.

Lemma arr_emplace_failure_witness :
  outcome (PolyArray.emplace 3 5 (get_type_ops Label) (inr (obj 7))
             (arr_of [(0, Canvas, 1); (2, Label, 2)]))
  = inl (raised (out_of_range "poly_array::emplace(5) out of bounds"%string))
  ∧ arr_occupant
      (final (PolyArray.emplace 3 0 (get_type_ops Label)
                (inl (runtime_error "Construction failed"%string))
                (arr_of [(0, Canvas, 1); (2, Label, 2)]))) 0 = None.
Proof.
  destruct (arr_emplace_failure 3 5 (get_type_ops Label)
              (arr_of [(0, Canvas, 1); (2, Label, 2)])) as [H1 _].
  destruct (arr_emplace_failure 3 0 (get_type_ops Label)
              (arr_of [(0, Canvas, 1); (2, Label, 2)])) as [_ H2].
  split.
  - rewrite H1 by lia. vm_compute. reflexivity.
  - destruct (H2 sample_arr_inv ltac:(lia)
                (runtime_error "Construction failed"%string))
      as (a' & Hrun & He & _).
    rewrite Hrun. unfold final, arr_occupant. cbn [fst]. by rewrite He.
Defined.

(** ** [poly_array]: whole-container copy *)

Section array_copy.
Import PolyArray.
Variables N SlotSize : nat.

Lemma arr_copy_from_step_run (i : nat) (this other : poly_array) :
  copy_from_step i (this, other) =
    match occupied (slot other i) with
    | None => ((this, other), [], inr tt)
    | Some (_, o) =>
        match safe_copy_construct (load this i) (load other i) o with
        | inl e => ((this, other), [], inl e)
        | inr c =>
            ((set_slot i {| ptr := Some i; ops := ops (slot other i) |}
                (store i c this), other), [], inr tt)
        end
    end.
Proof.
  unfold copy_from_step, get_storage_slot. munfold.
  destruct (occupied (slot other i)) as [[p o]|]; [|done].
  by destruct (safe_copy_construct _ _ o) as [e|c].
Qed.

Lemma arr_copy_from_loop (from k : nat) (this other : poly_array) :
  (∀ i, arr_slot_ok other i) →
  (∀ i p o, from ≤ i < from + k → occupied (slot other i) = Some (p, o) →
     faithful_copy o) →
  from + k ≤ length (slots_ this) → from + k ≤ length (storage_ this) →
  (∀ i, from ≤ i < from + k → slot this i = empty_slot) →
  ∃ this',
    for_each (seq from k) copy_from_step (this, other)
      = ((this', other), [], inr tt)
    ∧ arr_frame this this'
    ∧ ptr_cache_ this' = ptr_cache_ this
    ∧ cache_valid_ this' = cache_valid_ this
    ∧ (∀ i, from ≤ i < from + k → arr_moved other i this' i)
    ∧ (∀ i, ¬ (from ≤ i < from + k) →
         slot this' i = slot this i ∧ load this' i = load this i).
Proof.
  revert from this.
  induction k as [|k IH]; intros from this Hok Hfaith Hlt Hlt' Hempty.
  - exists this. simpl. split; [done|].
    split; [apply arr_frame_refl|]. split; [done|]. split; [done|].
    split; [intros; lia|done].
  - cbn [seq for_each]. rewrite run_bind, arr_copy_from_step_run.
    assert (∃ this1,
      match occupied (slot other from) with
      | None => ((this, other), [], inr tt)
      | Some (_, o) =>
          match safe_copy_construct (load this from) (load other from) o with
          | inl e => ((this, other), [], inl e)
          | inr c =>
              ((set_slot from {| ptr := Some from;
                                 ops := ops (slot other from) |}
                  (store from c this), other), [], inr tt)
          end
      end = ((this1, other), [], inr tt)
      ∧ arr_frame this this1
      ∧ ptr_cache_ this1 = ptr_cache_ this
      ∧ cache_valid_ this1 = cache_valid_ this
      ∧ arr_moved other from this1 from
      ∧ (∀ i, i ≠ from →
           slot this1 i = slot this i ∧ load this1 i = load this i))
      as (this1 & -> & Hft & Hpc & Hcv & Hmv & Hun).
    { unfold arr_moved. destruct (Hok from) as [He|(o & Ho & Hfit)].
      - rewrite He. simpl. exists this.
        split; [done|]. split; [apply arr_frame_refl|].
        split; [done|]. split; [done|].
        split; [apply Hempty; lia|done].
      - assert (occupied (slot other from) = Some (from, o)) as Hocc
          by (by rewrite Ho).
        rewrite Hocc.
        destruct (Hfaith from from o ltac:(lia) Hocc
                    (load this from) (load other from) Hfit)
          as (c & -> & Hfd & Hrepr).
        rewrite Ho. simpl ops.
        eexists. split; [reflexivity|].
        split; [|split; [done|split; [done|split]]].
        + unfold arr_frame; simpl. by rewrite !length_insert.
        + split; [|split].
          * arr_simpl. case_decide; [done|lia].
          * arr_simpl. case_decide; [done|lia].
          * arr_simpl. case_decide; [done|lia].
        + intros i Hi. arr_simpl. repeat (case_decide; [lia|]). done. }
    pose proof Hft as (Ht1 & Ht1' & _).
    destruct (IH (S from) this1)
      as (this' & -> & Hft' & Hpc' & Hcv' & Hin & Hout); [done| |lia|lia| |].
    { intros i p o Hi. apply Hfaith. lia. }
    { intros i Hi. destruct (Hun i) as (-> & _); [lia|]. apply Hempty. lia. }
    exists this'. split; [reflexivity|].
    split; [by apply (arr_frame_trans this this1 this')|].
    split; [congruence|]. split; [congruence|].
    split.
    + intros i Hi. destruct (decide (i = from)) as [->|Hn].
      * destruct (Hout from) as (Hs & Hl); [lia|].
        by apply (arr_moved_ext other other from this1 this' from).
      * apply Hin. lia.
    + intros i Hi. destruct (Hout i) as (-> & ->); [lia|].
      apply Hun. lia.
Qed.

Lemma arr_copy_from_run (this other : poly_array) :
  arr_inv N other → arr_copy_faithful other →
  length (slots_ this) = N → length (storage_ this) = N →
  (∀ i, slot this i = empty_slot) →
  ∃ this',
    copy_from N (this, other) = ((this', other), [], inr tt)
    ∧ (∀ i, arr_occupant this' i = arr_occupant other i)
    ∧ can_copy_ this' = can_copy_ other
    ∧ can_move_ this' = can_move_ other
    ∧ cache_valid_ this' = cache_valid_ this
    ∧ arr_inv N this'.
Proof.
  intros (Hls & Hlc & Hok) Hfaith Hlt Hlt' Hempty.
  destruct (arr_copy_from_loop 0 N this other)
    as (this' & Hrun & Hft & Hpc & Hcv & Hin & Hout); try done;
    try (simpl; lia).
  { intros i p o Hi. by apply (Hfaith i p). }
  unfold copy_from. munfold. simpl. rewrite Hrun. simpl.
  eexists. split; [reflexivity|].
  destruct Hft as (Hl1 & Hl1' & _).
  split; [|split; [done|split; [done|split; [done|]]]].
  - intros i. change (arr_occupant this' i = arr_occupant other i).
    destruct (decide (i < N)) as [Hlt2|Hge].
    + apply arr_occupant_moved; [apply Hok|]. apply Hin. lia.
    + unfold arr_occupant. destruct (Hout i) as (-> & _); [lia|].
      rewrite Hempty. rewrite (arr_slot_ge other) by lia. done.
  - split; [simpl; lia|]. split; [simpl; lia|].
    intros i. change (arr_slot_ok this' i).
    destruct (decide (i < N)) as [Hi|Hi].
    + specialize (Hin i ltac:(lia)). unfold arr_moved in Hin.
      destruct (occupied (slot other i)) as [[p o]|].
      * destruct Hin as (Hs & Hfit & _). right. by exists o.
      * by left.
    + left. destruct (Hout i) as [-> _]; [lia|]. apply Hempty.
Qed.

Lemma arr_clear_spec (a : poly_array) :
  arr_inv N a →
  ∃ a', clear N a = (a', destroy_calls (slots_ a), inr tt)
    ∧ length (slots_ a') = N ∧ length (storage_ a') = N
    ∧ (∀ i, slot a' i = empty_slot)
    ∧ can_copy_ a' = false ∧ can_move_ a' = true
    ∧ cache_valid_ a' = false.
Proof.
  intros (Hls & Hlc & Hok).
  destruct (arr_clear_run N a) as (w & t & Hloop & ->).
  destruct (arr_clear_range 0 N a Hok)
    as (w' & t' & Hrun & Hl & Hl' & _ & Hin & Hout & Ht).
  rewrite Hrun in Hloop. injection Hloop as <- <-.
  eexists. split.
  { rewrite Ht, <- Hls. by rewrite arr_slots_as_seq. }
  simpl. split; [lia|]. split; [lia|]. split; [|done].
  intros i. change (slot w' i = empty_slot).
  destruct (decide (i < N)) as [Hlt|Hge].
  - apply Hin. lia.
  - apply arr_slot_ge. lia.
Qed.

(** X20. Copying an array whose copy flag is set and whose occupants copy
    faithfully returns, runs no destructor of the source and leaves the
    source exactly as it was; the destination then holds at every position
    the occupant of the same position of the source (same operation table
    and object representation, empty where the source is empty), has the
    capability flags of the source and satisfies the structural
    invariant.  That holds for the copy constructor, and for copy
    assignment to another array, which first destroys each previous
    occupant of the destination exactly once, in position order. *)
Theorem arr_copy_round_trip (other : poly_array) :
  arr_inv N other → arr_copy_faithful other →
  can_copy_ other = true →
  (∃ this',
     copy_constructor N (default_constructed N SlotSize, other)
       = ((this', other), [], inr tt)
     ∧ arr_occupants N this' = arr_occupants N other
     ∧ can_copy_ this' = true ∧ can_move_ this' = can_move_ other
     ∧ arr_inv N this')
  ∧ (∀ this, arr_inv N this →
     ∃ this',
       copy_assignment N (this, other)
         = ((this', other), destroy_calls (slots_ this), inr tt)
       ∧ arr_occupants N this' = arr_occupants N other
       ∧ can_copy_ this' = true ∧ can_move_ this' = can_move_ other
       ∧ arr_inv N this').
Proof.
  intros Hinv Hfaith Hcopy. split.
  - destruct (arr_default_constructed_empty N SlotSize) as (Hl & Hl' & He).
    destruct (arr_copy_from_run (default_constructed N SlotSize) other)
      as (this' & Hrun & Hocc & Hc & Hm & _ & Hinv'); try done.
    exists this'. unfold copy_constructor. rewrite run_bind.
    unfold get at 1. cbv beta iota. rewrite Hcopy. cbn [negb].
    rewrite Hrun. split; [done|].
    split; [unfold arr_occupants; apply fmap_seq_ext; intros; apply Hocc|].
    split; [congruence|]. done.
  - intros this Hthis.
    destruct (arr_clear_spec this Hthis)
      as (this0 & Hclear & Hl & Hl' & He & _).
    destruct (arr_copy_from_run this0 other)
      as (this' & Hrun & Hocc & Hc & Hm & _ & Hinv'); try done.
    exists this'. unfold copy_assignment. rewrite run_bind.
    unfold get at 1. cbv beta iota. rewrite Hcopy. cbn [negb].
    rewrite run_bind. unfold on_this at 1. rewrite Hclear, Hrun.
    rewrite app_nil_r.
    split; [done|].
    split; [unfold arr_occupants; apply fmap_seq_ext; intros; apply Hocc|].
    split; [congruence|]. done.
Qed.

End array_copy.

Lemma sample_copyable_arr_inv : arr_inv 3 (arr_of [(0, CopyOnly, 1); (2, Label, 2)]).
Proof.
  split; [done|]. split; [done|].
  intros [|[|[|i]]].
  - right. eexists. split; [reflexivity|]. vm_compute. lia.
  - by left.
  - right. eexists. split; [reflexivity|]. vm_compute. lia.
  - by left.
Qed.

Lemma sample_copyable_arr_faithful :
  arr_copy_faithful (arr_of [(0, CopyOnly, 1); (2, Label, 2)]).
Proof.
  intros [|[|[|i]]] p o; simpl; intros [= <- <-];
    by apply faithful_bitwise_copy.
Qed.

Lemma arr_copy_round_trip_witness :
  arr_occupants 3
    (final (PolyArray.copy_constructor 3
              (PolyArray.default_constructed 3 2,
               arr_of [(0, CopyOnly, 1); (2, Label, 2)]))).1
  = [Some (get_type_ops CopyOnly, obj 1); None;
     Some (get_type_ops Label, obj 2)].
Proof.
  destruct (arr_copy_round_trip 3 2 (arr_of [(0, CopyOnly, 1); (2, Label, 2)]))
    as [(this' & Hrun & Hocc & _) _].
  - exact sample_copyable_arr_inv.
  - exact sample_copyable_arr_faithful.
  - reflexivity.
  - rewrite Hrun. unfold final. cbn [fst]. rewrite Hocc. reflexivity.
Defined.

(** ** The iterator pointer cache of [poly_array] *)

Section array_cache.
Import PolyArray.
Variables N SlotSize : nat.

Lemma arr_fresh_cache_spec (a : poly_array) :
  arr_cache_fresh N a ((λ i, ptr (slot a i)) <$> seq 0 N).
Proof.
  split; [by rewrite length_fmap, length_seq|].
  intros i Hi. by rewrite list_lookup_fmap, lookup_seq_lt by done.
Qed.

Lemma arr_set_cache_id (a : poly_array) :
  set_cache (ptr_cache_ a) (cache_valid_ a) a = a.
Proof. by destruct a. Qed.

Lemma arr_data_valid (a : poly_array) :
  cache_valid_ a = true → data N a = (a, [], inr (ptr_cache_ a)).
Proof.
  intros Hc. unfold data. rewrite run_bind.
  unfold update_ptr_cache, modify. rewrite Hc.
  rewrite run_bind. done.
Qed.

Lemma arr_data_run (a : poly_array) :
  arr_cache_ok N a →
  ∃ l, data N a = (set_cache l true a, [], inr l) ∧ arr_cache_fresh N a l.
Proof.
  intros Hok. destruct (cache_valid_ a) eqn:Hc.
  - exists (ptr_cache_ a). split; [|by apply Hok].
    rewrite arr_data_valid by done. rewrite <- Hc.
    by rewrite arr_set_cache_id.
  - eexists. split; [|apply arr_fresh_cache_spec].
    unfold data. rewrite run_bind. unfold update_ptr_cache, modify.
    rewrite Hc. rewrite run_bind. done.
Qed.

(** X21. After every mutating call of [poly_array] that completes
    ([emplace] with a completing constructor, [clear]) and on a freshly
    default-constructed array, whatever the state of the pointer cache
    before the call, [data()] (hence [begin()], which returns it) sees the
    current contents: the pointer array has [N] entries and entry [i] is
    the pointer stored in slot [i], null for an empty position; the call
    runs no destructor and changes nothing but the cache. *)
Theorem arr_data_after_mutation (a a' : poly_array) (t : list event) :
  a' = default_constructed N SlotSize
  ∨ (∃ index derived ctor r,
       emplace N index derived ctor a = (a', t, inr r))
  ∨ clear N a = (a', t, inr tt) →
  ∃ l, data N a' = (set_cache l true a', [], inr l)
       ∧ arr_cache_fresh N a' l.
Proof.
  intros Hop. apply arr_data_run. intros Hv. exfalso.
  destruct Hop as [->|[(index & derived & ctor & r & H)|H]].
  - done.
  - unfold emplace in H. destruct (N <=? index); [done|].
    do 3 peel H. destruct (placement_new _ _); [done|].
    do 4 peel H. unfold ret in H. injection H as <- _ _.
    unfold invalidate_cache, modify in Hstep5. injection Hstep5 as <- _.
    done.
  - destruct (arr_clear_run N a) as (w & t' & _ & Hc). rewrite Hc in H.
    injection H as <- _. done.
Qed.

Lemma arr_move_from_step_keeps_cache (i : nat)
    (s s' : poly_array * poly_array) t r :
  move_from_step i s = (s', t, r) →
  ptr_cache_ s'.2 = ptr_cache_ s.2 ∧ cache_valid_ s'.2 = cache_valid_ s.2.
Proof.
  destruct s as [this other]. rewrite arr_move_from_step_run.
  destruct (occupied (slot other i)) as [[p o]|]; [|by intros [= <- _ _]].
  destruct (safe_move_construct _ _ o) as [e|[d s0]];
    [by intros [= <- _ _]|].
  cbv zeta. rewrite arr_destroy_at_run.
  destruct (occupied (slot (store i s0 other) i)) as [[p' o']|];
    by intros [= <- _ _].
Qed.

Lemma arr_move_from_keeps_cache (this other this' other' : poly_array) t r :
  move_from N (this, other) = ((this', other'), t, r) →
  ptr_cache_ other' = ptr_cache_ other
  ∧ cache_valid_ other' = cache_valid_ other.
Proof.
  destruct (for_each (seq 0 N) move_from_step (this, other))
    as [[[this1 other1] t1] r1] eqn:Hloop.
  pose proof (for_each_preserves
    (λ s s' : poly_array * poly_array,
       ptr_cache_ s'.2 = ptr_cache_ s.2
       ∧ cache_valid_ s'.2 = cache_valid_ s.2)
    move_from_step (seq 0 N)) as Hpres.
  specialize (Hpres ltac:(done)).
  specialize (Hpres ltac:(intros ? ? ? [? ?] [? ?]; split; congruence)).
  specialize (Hpres arr_move_from_step_keeps_cache _ _ _ _ Hloop).
  cbn [snd] in Hpres.
  unfold move_from, noexcept. rewrite run_bind, Hloop.
  destruct r1 as [e|[]].
  - by intros [= _ <- _ _].
  - munfold. simpl. by intros [= _ <- _ _].
Qed.

(** X22. Two paths of [poly_array] destroy objects without invalidating
    the pointer cache of the array they destroy them in: [emplace] whose
    constructor throws (the previous occupant of the position is already
    destroyed), and the move constructor, which empties every slot of its
    source.  In both cases, if the cache was valid before the call,
    [data()] on that array afterwards returns the pointer array of before
    the call, unchanged; where the cache was fresh, its entry for a
    position that was occupied is still the address of that slot although
    the slot's pointer is now null. *)
Theorem arr_cache_survives_destruction :
  (∀ index derived e a,
     arr_inv N a → index < N → cache_valid_ a = true →
     ∃ a', emplace N index derived (inl e) a
             = (a', destroy_calls [slot a index], inl (propagated e))
       ∧ data N a' = (a', [], inr (ptr_cache_ a))
       ∧ ptr (slot a' index) = None
       ∧ (arr_cache_fresh N a (ptr_cache_ a) →
          is_Some (arr_occupant a index) →
          ptr_cache_ a !! index = Some (Some index)))
  ∧ (∀ other,
     arr_inv N other → arr_faithful other → cache_valid_ other = true →
     ∃ this' other' t,
       move_constructor N (default_constructed N SlotSize, other)
         = ((this', other'), t, inr tt)
       ∧ data N other' = (other', [], inr (ptr_cache_ other))
       ∧ (∀ i, ptr (slot other' i) = None)
       ∧ (arr_cache_fresh N other (ptr_cache_ other) →
          ∀ i, i < N → is_Some (arr_occupant other i) →
          ptr_cache_ other !! i = Some (Some i))).
Proof.
  assert (∀ a i, arr_inv N a → i < N →
            arr_cache_fresh N a (ptr_cache_ a) →
            is_Some (arr_occupant a i) →
            ptr_cache_ a !! i = Some (Some i)) as Hstale.
  { intros a i (_ & _ & Hok) Hi [_ Hfresh] [x Hx].
    rewrite Hfresh by done. unfold arr_occupant in Hx.
    destruct (Hok i) as [He|(o & Ho & _)].
    - by rewrite He in Hx.
    - by rewrite Ho. }
  split.
  - intros index derived e a Hinv Hi Hv.
    destruct (arr_emplace_throw_spec N index derived e a Hinv Hi)
      as (a' & Hrun & He & _ & _ & _ & Hpc & Hcv & _).
    exists a'. split; [done|]. split; [|split].
    + rewrite arr_data_valid by congruence. by rewrite Hpc.
    + by rewrite He.
    + by apply Hstale.
  - intros other Hinv Hfaith Hv.
    destruct (arr_default_constructed_empty N SlotSize) as (Hl & Hl' & Hempty).
    destruct (arr_move_from_run N (default_constructed N SlotSize) other)
      as (this' & other' & t & Hrun & _ & He & _); try done.
    destruct (arr_move_from_keeps_cache _ _ _ _ _ _ Hrun) as [Hpc Hcv].
    exists this', other', t. split; [|split; [|split]].
    + unfold move_constructor, noexcept. by rewrite Hrun.
    + rewrite arr_data_valid by congruence. by rewrite Hpc.
    + intros i. by rewrite He.
    + intros Hfresh i Hi Hocc. by apply Hstale.
Qed.

End array_cache.

Lemma arr_data_after_mutation_witness :
  outcome (PolyArray.data 3 (arr_of [(0, Canvas, 1); (2, Label, 2)]))
  = inr [Some 0; None; Some 2].
Proof.
  destruct (arr_data_after_mutation 3 2 (arr_of [(0, Canvas, 1)])
              (arr_of [(0, Canvas, 1); (2, Label, 2)]) [])
    as (l & Hrun & Hlen & Hl).
  - right. left. exists 2, (get_type_ops Label), (inr (obj 2)), 2.
    vm_compute. reflexivity.
  - rewrite Hrun. unfold outcome. cbn [snd]. f_equal.
    apply list_eq. intros [|[|[|i]]].
    + rewrite (Hl 0) by lia. vm_compute. reflexivity.
    + rewrite (Hl 1) by lia. vm_compute. reflexivity.
    + rewrite (Hl 2) by lia. vm_compute. reflexivity.
    + rewrite lookup_ge_None_2 by (rewrite Hlen; lia). reflexivity.
Defined.

Lemma arr_cache_survives_destruction_witness :
  ∃ a', final (PolyArray.emplace 3 0 (get_type_ops Label)
                 (inl (runtime_error "Construction failed"%string))
                 (final (PolyArray.data 3
                           (arr_of [(0, Canvas, 1); (2, Label, 2)])))) = a'
    ∧ outcome (PolyArray.data 3 a') = inr [Some 0; None; Some 2]
    ∧ ptr (PolyArray.slot a' 0) = None.
Proof.
  destruct (arr_cache_survives_destruction 3 2) as [H _].
  destruct (H 0 (get_type_ops Label)
              (runtime_error "Construction failed"%string)
              (final (PolyArray.data 3
                        (arr_of [(0, Canvas, 1); (2, Label, 2)]))))
    as (a' & Hrun & Hdata & Hptr & _).
  - split; [done|]. split; [done|].
    intros [|[|[|i]]].
    + right. eexists. split; [reflexivity|]. vm_compute. lia.
    + by left.
    + right. eexists. split; [reflexivity|]. vm_compute. lia.
    + by left.
  - lia.
  - reflexivity.
  - exists a'. rewrite Hrun. split; [done|]. split; [|done].
    rewrite Hdata. reflexivity.
Defined.

(** ** Destructor accounting of the shifts *)

Section vector_shift_trace.
Import PolyVector.
Variable Capacity : nat.

Lemma relocate_success (src dst : nat) (v v' : poly_vector) (t : list event) :
  relocate src dst v = (v', t, inr tt) →
  t = match occupied (slot v src) with
      | Some (_, o) =>
          match destroy o with
          | Some _ => [ev_destroy self src]
          | None => []
          end
      | None => []
      end
  ∧ ∀ j, j ≠ src → j ≠ dst → slot v' j = slot v j.
Proof.
  rewrite relocate_run.
  destruct (occupied (slot v src)) as [[p o]|]; [|by intros [= <- <-]].
  destruct (safe_move_construct _ _ o) as [e|[d s]]; [done|].
  cbv zeta. intros [= <- <-]. split; [done|].
  intros j Hj1 Hj2. vec_simpl. repeat (case_decide; [lia|]). done.
Qed.

Lemma destroy_calls_own_slot (v : poly_vector) (i : nat) :
  (∀ p o, occupied (slot v i) = Some (p, o) → p = i) →
  destroy_calls [slot v i]
  = match occupied (slot v i) with
    | Some (_, o) =>
        match destroy o with
        | Some _ => [ev_destroy self i]
        | None => []
        end
    | None => []
    end.
Proof.
  intros Hp. unfold destroy_calls. cbn [mbind list_bind]. rewrite app_nil_r.
  destruct (occupied (slot v i)) as [[p o]|] eqn:Hocc; [|done].
  by rewrite (Hp p o eq_refl).
Qed.

Lemma shift_left_trace (c k s : nat) (v v' : poly_vector) (t : list event) :
  for_each (seq s k) (λ i, relocate i (i - c)) v = (v', t, inr tt) →
  (∀ i p o, s ≤ i < s + k → occupied (slot v i) = Some (p, o) → p = i) →
  t = destroy_calls (slot v <$> seq s k).
Proof.
  revert s v t. induction k as [|k IH]; intros s v t H Hown.
  - simpl in H. unfold ret in H. by injection H as _ <-.
  - cbn [seq for_each] in H. peel H. destruct a.
    apply relocate_success in Hstep as [-> Hun].
    apply IH in H.
    + cbn [seq]. rewrite fmap_cons.
      rewrite (destroy_calls_cons (slot v s) (slot v <$> seq (S s) k)).
      rewrite destroy_calls_own_slot by (intros p o; apply Hown; lia).
      f_equal. rewrite H. f_equal. apply fmap_seq_ext.
      intros i Hi. apply Hun; lia.
    + intros i p o Hi. rewrite Hun by lia. apply Hown. lia.
Qed.

Lemma shift_right_trace (a k : nat) (v v' : poly_vector) (t : list event) :
  for_each (rev (seq a k)) (λ src, relocate src (src + 1)) v
    = (v', t, inr tt) →
  (∀ i p o, a ≤ i < a + k → occupied (slot v i) = Some (p, o) → p = i) →
  t = destroy_calls (slot v <$> rev (seq a k)).
Proof.
  revert v t. induction k as [|k IH]; intros v t H Hown.
  - simpl in H. unfold ret in H. by injection H as _ <-.
  - rewrite seq_S, rev_unit in H |- *. cbn [for_each] in H. peel H.
    destruct a0.
    apply relocate_success in Hstep as [-> Hun].
    apply IH in H.
    + rewrite fmap_cons.
      rewrite (destroy_calls_cons (slot v (a + k))
                 (slot v <$> rev (seq a k))).
      rewrite destroy_calls_own_slot by (intros p o; apply Hown; lia).
      f_equal. rewrite H. f_equal.
      apply list_fmap_ext. intros j i Hj.
      apply list_elem_of_lookup_2, list_elem_of_In, in_rev,
        list_elem_of_In, elem_of_seq in Hj.
      apply Hun; lia.
    + intros i p o Hi. rewrite Hun by lia. apply Hown. lia.
Qed.

Lemma vec_inv_own_slot (v : poly_vector) :
  vec_inv Capacity v →
  ∀ i p o, occupied (slot v i) = Some (p, o) → p = i.
Proof.
  intros (_ & _ & _ & Hok & _) i p o Hocc.
  destruct (Hok i) as [He|(o' & Ho & _)].
  - by rewrite He in Hocc.
  - rewrite Ho in Hocc. cbn in Hocc. congruence.
Qed.

(** X23. Every relocation destroys the moved-from object exactly once and
    nothing else: on a vector satisfying its invariant, a completed
    [erase(first, last)] of a non-empty range calls the destructors of the
    erased elements in order and then, for each element after the range in
    order, the destructor of the object it was moved out of; a completed
    [emplace(pos, ...)] calls, for each element from the last down to
    [pos], the destructor of the object it was moved out of, and no
    destructor of the new element. *)
Theorem relocation_destroys_sources (v : poly_vector) :
  vec_inv Capacity v →
  (∀ first last v' t r,
     first < last →
     erase Capacity first last v = (v', t, inr r) →
     t = destroy_calls (slot v <$> seq first (last - first))
         ++ destroy_calls (slot v <$> seq last (size_ v - last)))
  ∧ (∀ pos derived ctor v' t r,
     emplace Capacity pos derived ctor v = (v', t, inr r) →
     t = destroy_calls (slot v <$> rev (seq pos (size_ v - pos)))).
Proof.
  intros Hinv.
  pose proof (vec_inv_own_slot v Hinv) as Hown.
  destruct Hinv as (Hls & Hlc & Hsz & Hok & Hbeyond).
  split.
  - intros first last v' t r Hfl H.
    unfold erase in H. peel H.
    destruct (update_ptr_cache_run Capacity v) as (c0 & b0 & Hupc).
    rewrite Hupc in Hstep. injection Hstep as <- <-.
    peel H. unfold get in Hstep. injection Hstep as <- <- <-.
    change (size_ (set_cache c0 b0 v)) with (size_ v) in H.
    change (can_move_ (set_cache c0 b0 v)) with (can_move_ v) in H.
    destruct (Nat.ltb_spec last first) as [|_]; [lia|].
    destruct (Nat.ltb_spec (size_ v) last) as [|Hlast]; [done|].
    cbn [orb] in H.
    destruct (Nat.eqb_spec (last - first) 0) as [|_]; [lia|].
    destruct (_ && _); [done|].
    peel H.
    destruct (destroy_range first (last - first) (set_cache c0 b0 v))
      as (w1 & tr1 & Hrun1 & Hfr1 & _ & _ & Hout1 & Htr1); [exact Hok|].
    rewrite Hrun1 in Hstep. injection Hstep as <- <-.
    destruct Hfr1 as (_ & _ & Hs1 & _).
    change (size_ (set_cache c0 b0 v)) with (size_ v) in Hs1.
    change (slot (set_cache c0 b0 v)) with (slot v) in Hout1, Htr1.
    peel H.
    match type of H with
    | _ ?w = _ =>
        destruct (erase_tail_run Capacity (last - first) first w)
          as (w' & Htail & _)
    end.
    rewrite Htail in H. injection H as _ <- _.
    rewrite !app_nil_l, app_nil_r. rewrite Htr1. f_equal.
    assert (Hif := shift_left_if last (last - first) w1).
    rewrite Hs1 in Hif. rewrite Hif in Hstep by done.
    match type of Hstep with _ = (_, _, inr ?u) => destruct u end.
    apply shift_left_trace in Hstep.
    + rewrite Hstep. f_equal. apply fmap_seq_ext.
      intros i Hi. apply Hout1. lia.
    + intros i p o Hi. destruct (Hout1 i) as [-> _]; [lia|]. apply Hown.
  - intros pos derived ctor v' t r H.
    unfold emplace in H. peel H.
    destruct (update_ptr_cache_run Capacity v) as (c0 & b0 & Hupc).
    rewrite Hupc in Hstep. injection Hstep as <- <-.
    peel H. unfold get in Hstep. injection Hstep as <- <- <-.
    change (size_ (set_cache c0 b0 v)) with (size_ v) in H.
    destruct (Nat.ltb_spec (size_ v) pos) as [|Hpos]; [done|].
    destruct (Capacity <=? size_ v); [done|].
    peel H.
    assert (Hif := shift_right_if pos (set_cache c0 b0 v) Hpos).
    change (size_ (set_cache c0 b0 v)) with (size_ v) in Hif.
    rewrite Hif in Hstep.
    match type of Hstep with _ = (_, _, inr ?u) => destruct u end.
    apply shift_right_trace in Hstep;
      [|intros i p o Hi; apply Hown].
    change (slot (set_cache c0 b0 v)) with (slot v) in Hstep.
    peel H. unfold construct_at in Hstep0. peel Hstep0.
    unfold get in Hstep1. injection Hstep1 as <- <- <-.
    destruct (placement_new _ ctor) as [e|c]; [done|].
    peel Hstep0. unfold modify, ret in Hstep1, Hstep0.
    injection Hstep1 as <- <-. injection Hstep0 as _ <- _.
    peel H. unfold modify in Hstep0. injection Hstep0 as <- <-.
    peel H. unfold modify in Hstep0. injection Hstep0 as <- <-.
    peel H. unfold modify in Hstep0. injection Hstep0 as <- <-.
    peel H. rewrite update_capabilities_run in Hstep0.
    injection Hstep0 as <- <-.
    peel H.
    match type of Hstep0 with
    | update_ptr_cache Capacity ?w = _ =>
        destruct (update_ptr_cache_run Capacity w) as (c1 & b1 & Hupc1)
    end.
    rewrite Hupc1 in Hstep0. injection Hstep0 as <- <-.
    unfold ret in H. injection H as _ <- _.
    rewrite !app_nil_l, !app_nil_r. exact Hstep.
Qed.

End vector_shift_trace.

Lemma relocation_destroys_sources_witness :
  trace (PolyVector.erase 3 0 1 (vec_of [(Label, 1); (Canvas, 2)]))
  = [ev_destroy self 0; ev_destroy self 1]
  ∧ trace (PolyVector.emplace 3 0 (get_type_ops Label) (inr (obj 3))
             (vec_of [(Label, 1); (Canvas, 2)]))
    = [ev_destroy self 1; ev_destroy self 0].
Proof.
  destruct (relocation_destroys_sources 3 (vec_of [(Label, 1); (Canvas, 2)])
              sample_vec_inv) as [Herase Hemplace].
  split.
  - rewrite (Herase 0 1
               (final (PolyVector.erase 3 0 1 (vec_of [(Label, 1); (Canvas, 2)])))
               (trace (PolyVector.erase 3 0 1 (vec_of [(Label, 1); (Canvas, 2)])))
               0); [vm_compute; reflexivity|lia|vm_compute; reflexivity].
  - rewrite (Hemplace 0 (get_type_ops Label) (inr (obj 3))
               (final (PolyVector.emplace 3 0 (get_type_ops Label) (inr (obj 3))
                         (vec_of [(Label, 1); (Canvas, 2)])))
               (trace (PolyVector.emplace 3 0 (get_type_ops Label) (inr (obj 3))
                         (vec_of [(Label, 1); (Canvas, 2)])))
               0); vm_compute; reflexivity.
Defined.

(** ** A copy that throws midway *)

Section vector_copy_failure.
Import PolyVector.
Variable Capacity : nat.

(** X24. Copy assignment has no rollback: when the copy of the source's
    element [j] throws (the elements before it copying faithfully), the
    exception leaves [operator=] after the destination's previous
    occupants have all been destroyed; the destination then has the size
    of the source, holds copies of the first [j] elements only and null
    elements from [j] on (so its logical range is not fully occupied),
    its flags are those [clear()] set, and the structural invariant holds;
    the source is unchanged. *)
Theorem copy_assignment_failure (this other : poly_vector) (j : nat)
    (o : type_operations) (e : exn) :
  vec_inv Capacity this → vec_inv Capacity other →
  can_copy_ other = true → j < size_ other →
  (∀ i p o', i < j → occupied (slot other i) = Some (p, o') →
     faithful_copy o') →
  occupied (slot other j) = Some (j, o) →
  (∀ dst, safe_copy_construct dst (load other j) o = inl e) →
  ∃ this',
    copy_assignment (this, other)
      = ((this', other),
         destroy_calls (slot this <$> seq 0 (size_ this)), inl e)
    ∧ size_ this' = size_ other
    ∧ (∀ i, i < j → vec_occupant this' i = vec_occupant other i)
    ∧ (∀ i, j ≤ i → slot this' i = empty_slot)
    ∧ can_copy_ this' = false ∧ can_move_ this' = true
    ∧ ¬ vec_dense this'
    ∧ vec_inv Capacity this'.
Proof.
  intros Hthis Hother Hcopy Hj Hfaith Hocc Hthrow.
  destruct (clear_spec Capacity this Hthis)
    as (this0 & Hclear & _ & Hl & Hl' & He & Hc0 & Hm0 & _).
  destruct Hother as (Hls & Hlc & Hsz & Hok & Hbeyond).
  destruct (copy_from_loop 0 j (set_size (size_ other) this0) other)
    as (this1 & Hloop & Hfr & Hin & Hout); try done.
  { intros i p o' Hi. apply (Hfaith i p). lia. }
  { simpl. lia. } { simpl. lia. }
  { intros i _. apply He. }
  destruct Hfr as (Hl1 & Hl1' & Hs1 & Hc1 & Hm1 & _).
  simpl in Hl1, Hl1', Hs1, Hc1, Hm1.
  exists this1. split.
  - unfold copy_assignment. rewrite run_bind. unfold get at 1.
    cbv beta iota. rewrite Hcopy. cbn [negb].
    rewrite run_bind. unfold on_this at 1. rewrite Hclear.
    unfold copy_from. rewrite run_bind. unfold get at 1. cbv beta iota.
    rewrite run_bind. unfold on_this at 1, modify at 1. cbv beta iota.
    rewrite run_bind. unfold get at 1. cbv beta iota.
    rewrite run_bind.
    change (size_ (set_size (size_ other) this0)) with (size_ other).
    replace (seq 0 (size_ other))
      with (seq 0 (j + S (size_ other - j - 1))) by (f_equal; lia).
    rewrite seq_app, for_each_app, run_bind, Hloop.
    cbn [seq for_each]. rewrite run_bind, copy_from_step_run.
    change (0 + j) with j. rewrite Hocc, Hthrow.
    by rewrite !app_nil_r.
  - split; [done|]. split; [|split; [|split; [congruence|split;
      [congruence|split]]]].
    + intros i Hi. apply vec_occupant_moved; [apply Hok|]. apply Hin. lia.
    + intros i Hi. destruct (Hout i) as [-> _]; [lia|]. apply He.
    + intros Hdense. destruct (Hdense j) as (o' & Ho'); [lia|].
      destruct (Hout j) as [Hs _]; [lia|].
      rewrite Hs in Ho'. change (slot (set_size ?n this0)) with (slot this0) in Ho'.
      by rewrite He in Ho'.
    + split; [lia|]. split; [lia|]. split; [lia|]. split.
      * intros i. destruct (decide (i < j)) as [Hi|Hi].
        -- specialize (Hin i ltac:(lia)). unfold vec_moved in Hin.
           destruct (occupied (slot other i)) as [[p o']|].
           ++ destruct Hin as (Hs & Hfit & _). right. by exists o'.
           ++ by left.
        -- left. destruct (Hout i) as [-> _]; [lia|]. apply He.
      * intros i Hi. destruct (Hout i) as [-> _]; [lia|]. apply He.
Qed.

End vector_copy_failure.

Lemma copy_assignment_failure_witness :
  ∃ this',
    PolyVector.copy_assignment
      (vec_of [(Canvas, 7)], vec_of [(Label, 1); (ThrowingCopy, 2)])
    = ((this', vec_of [(Label, 1); (ThrowingCopy, 2)]),
       [ev_destroy self 0],
       inl (propagated (runtime_error "Copy failed"%string)))
    ∧ PolyVector.size_ this' = 2
    ∧ vec_occupants this' = [Some (get_type_ops Label, obj 1); None].
Proof.
  destruct (copy_assignment_failure 3
              (vec_of [(Canvas, 7)]) (vec_of [(Label, 1); (ThrowingCopy, 2)])
              1 (get_type_ops ThrowingCopy)
              (propagated (runtime_error "Copy failed"%string)))
    as (this' & Hrun & Hs & Hlow & Hhigh & _).
  - split; [done|]. split; [done|]. split; [vm_compute; lia|]. split.
    + intros [|[|[|i]]]; [|by left..].
      right. eexists. split; [reflexivity|]. vm_compute. lia.
    + intros [|[|[|i]]] Hi; try done; vm_compute in Hi; lia.
  - split; [done|]. split; [done|]. split; [vm_compute; lia|]. split.
    + intros [|[|[|i]]]; [| |by left..].
      * right. eexists. split; [reflexivity|]. vm_compute. lia.
      * right. eexists. split; [reflexivity|]. vm_compute. lia.
    + intros [|[|[|i]]] Hi; try done; vm_compute in Hi; lia.
  - reflexivity.
  - vm_compute; lia.
  - intros [|i] p o' Hi; [|lia]. simpl. intros [= <- <-].
    by apply faithful_bitwise_copy.
  - reflexivity.
  - intros dst. reflexivity.
  - exists this'. split; [rewrite Hrun; vm_compute; reflexivity|].
    split; [rewrite Hs; reflexivity|].
    unfold vec_occupants. rewrite Hs.
    change (PolyVector.size_ (vec_of [(Label, 1); (ThrowingCopy, 2)])) with 2.
    cbn [seq fmap list_fmap]. rewrite (Hlow 0) by lia.
    unfold vec_occupant at 2. rewrite (Hhigh 1) by lia. reflexivity.
Defined.

(** ** Destructor accounting of a whole-container move *)

Lemma noexcept_inr {S A} (m : M S A) (s s' : S) (t : list event) (a : A) :
  noexcept m s = (s', t, inr a) → m s = (s', t, inr a).
Proof. unfold noexcept. by destruct (m s) as [[s1 t1] [e|a1]]. Qed.

Section vector_move_trace.
Import PolyVector.
Variables Capacity SlotSize : nat.

Lemma move_from_loop_trace (from k : nat) (this other : poly_vector)
    (s' : poly_vector * poly_vector) (t : list event) :
  for_each (seq from k) move_from_step (this, other) = (s', t, inr tt) →
  (∀ i p o, from ≤ i < from + k → occupied (slot other i) = Some (p, o) →
     p = i) →
  t = retag <$> destroy_calls (slot other <$> seq from k).
Proof.
  revert from this other t. induction k as [|k IH];
    intros from this other t H Hown.
  - simpl in H. unfold ret in H. by injection H as _ <-.
  - cbn [seq for_each] in H. peel H.
    match type of Hstep with _ = (_, _, inr ?u) => destruct u end.
    rewrite move_from_step_run in Hstep.
    cbn [seq]. rewrite fmap_cons.
    rewrite (destroy_calls_cons (slot other from)
               (slot other <$> seq (S from) k)).
    rewrite destroy_calls_own_slot by (intros p o; apply Hown; lia).
    rewrite fmap_app.
    destruct (occupied (slot other from)) as [[q oq]|] eqn:Hocc.
    + destruct (safe_move_construct _ _ oq) as [e|[d c]]; [done|].
      cbv zeta in Hstep. rewrite destroy_at_run in Hstep.
      change (slot (store from c other) from) with (slot other from) in Hstep.
      rewrite Hocc in Hstep. injection Hstep as <- <-.
      rewrite (Hown from q oq ltac:(lia) Hocc). f_equal.
      apply IH in H.
      * rewrite H. f_equal. f_equal. apply fmap_seq_ext.
        intros i Hi. vec_simpl. case_decide; [lia|done].
      * intros i p' o' Hi. vec_simpl. case_decide; [lia|].
        apply Hown. lia.
    + injection Hstep as <- <-. cbn [fmap list_fmap app].
      apply IH in H; [done|]. intros i p' o' Hi. apply Hown. lia.
Qed.

Lemma move_from_trace (this other : poly_vector)
    (s' : poly_vector * poly_vector) (t : list event) :
  move_from (this, other) = (s', t, inr tt) →
  (∀ i p o, occupied (slot other i) = Some (p, o) → p = i) →
  t = retag <$> destroy_calls (slot other <$> seq 0 (size_ other)).
Proof.
  intros H Hown. unfold move_from in H. apply noexcept_inr in H.
  peel H. unfold get in Hstep. injection Hstep as <- <- <-.
  cbv beta iota in H. peel H.
  unfold on_this, modify in Hstep. injection Hstep as <- <-.
  peel H. unfold get in Hstep. injection Hstep as <- <- <-.
  cbv beta iota in H. peel H.
  match type of Hstep with _ = (?u, _, inr ?x) => destruct u, x end.
  apply move_from_loop_trace in Hstep; [|intros i q oq _; apply Hown].
  munfold. simpl in H. injection H as _ <-.
  rewrite !app_nil_l, !app_nil_r. exact Hstep.
Qed.

(** X25. A whole-vector move that completes destroys each object of the
    source exactly once, in slot order, after it has been moved out, and
    nothing of the destination's new contents; a move assignment first
    destroys each previous occupant of the destination exactly once. *)
Theorem vec_move_destroys_sources (this other : poly_vector)
    (s' : poly_vector * poly_vector) (t : list event) :
  vec_inv Capacity other →
  (move_constructor (default_constructed Capacity SlotSize, other)
     = (s', t, inr tt) →
   t = retag <$> destroy_calls (slot other <$> seq 0 (size_ other)))
  ∧ (vec_inv Capacity this →
     move_assignment (this, other) = (s', t, inr tt) →
     t = destroy_calls (slot this <$> seq 0 (size_ this))
         ++ (retag <$> destroy_calls (slot other <$> seq 0 (size_ other)))).
Proof.
  intros Hother.
  pose proof (vec_inv_own_slot Capacity other Hother) as Hown.
  split.
  - intros H. unfold move_constructor in H. apply noexcept_inr in H.
    by apply move_from_trace in H.
  - intros Hthis H. unfold move_assignment in H. apply noexcept_inr in H.
    peel H.
    destruct (clear_spec Capacity this Hthis) as (this0 & Hclear & _).
    unfold on_this in Hstep. rewrite Hclear in Hstep.
    injection Hstep as <- <-.
    apply move_from_trace in H; [|done]. by rewrite H.
Qed.

End vector_move_trace.

Lemma vec_move_destroys_sources_witness :
  trace (PolyVector.move_assignment
           (vec_of [(Canvas, 7)], vec_of [(Label, 1); (Canvas, 2)]))
  = [ev_destroy self 0; ev_destroy peer 0; ev_destroy peer 1].
Proof.
  destruct (vec_move_destroys_sources 3 2
              (vec_of [(Canvas, 7)]) (vec_of [(Label, 1); (Canvas, 2)])
              (final (PolyVector.move_assignment
                 (vec_of [(Canvas, 7)], vec_of [(Label, 1); (Canvas, 2)])))
              (trace (PolyVector.move_assignment
                 (vec_of [(Canvas, 7)], vec_of [(Label, 1); (Canvas, 2)])))
              sample_vec_inv) as [_ H].
  rewrite H.
  - vm_compute. reflexivity.
  - split; [done|]. split; [done|]. split; [vm_compute; lia|]. split.
    + intros [|[|[|i]]]; [|by left..].
      right. eexists. split; [reflexivity|]. vm_compute. lia.
    + intros [|[|[|i]]] Hi; try done; vm_compute in Hi; lia.
  - vm_compute. reflexivity.
Defined.

(** ** The capacity is fixed *)

Section vector_reserve.
Import PolyVector.
Variable Capacity : nat.

(** X26. The capacity of a [poly_vector] never changes: [reserve(n)]
    throws [std::length_error] exactly for [n > Capacity] and otherwise
    does nothing, and [shrink_to_fit()] does nothing, so any operation
    behaves the same with or without such a call before it; in
    particular a successful [reserve] makes no room on a full vector,
    where [emplace_back] still throws "capacity exceeded". *)
Theorem reserve_is_noop (n : nat) (v : poly_vector) :
  (Capacity < n →
     reserve Capacity n v
     = (v, [], inl (raised (length_error
          "poly_vector::reserve() - exceeds fixed capacity"%string))))
  ∧ (n ≤ Capacity → ∀ A (m : M poly_vector A),
       (reserve Capacity n;; m) v = m v)
  ∧ (∀ A (m : M poly_vector A), (shrink_to_fit;; m) v = m v)
  ∧ (n ≤ Capacity → Capacity ≤ size_ v → ∀ derived ctor,
       (reserve Capacity n;; emplace_back Capacity derived ctor) v
       = (v, [], inl (raised (out_of_range
            "poly_vector::emplace_back() - capacity exceeded"%string)))).
Proof.
  assert (n ≤ Capacity → ∀ A (m : M poly_vector A),
            (reserve Capacity n;; m) v = m v) as Hnoop.
  { intros Hn A m. rewrite run_bind. unfold reserve.
    destruct (Nat.ltb_spec Capacity n) as [|_]; [lia|].
    unfold ret. by destruct (m v) as [[? ?] ?]. }
  split; [|split; [done|split]].
  - intros Hn. unfold reserve.
    destruct (Nat.ltb_spec Capacity n) as [_|]; [done|lia].
  - intros A m. rewrite run_bind. unfold shrink_to_fit, ret.
    by destruct (m v) as [[? ?] ?].
  - intros Hn Hfull derived ctor. rewrite Hnoop by done.
    by apply emplace_back_full_run.
Qed.

End vector_reserve.

Lemma reserve_is_noop_witness :
  outcome (PolyVector.reserve 3 4 (vec_of [(Label, 1)]))
  = inl (raised (length_error
           "poly_vector::reserve() - exceeds fixed capacity"%string))
  ∧ (PolyVector.reserve 3 3;; PolyVector.pop_back) (vec_of [(Label, 1)])
    = PolyVector.pop_back (vec_of [(Label, 1)]).
Proof.
  destruct (reserve_is_noop 3 4 (vec_of [(Label, 1)])) as (H1 & _).
  destruct (reserve_is_noop 3 3 (vec_of [(Label, 1)])) as (_ & H2 & _).
  split.
  - rewrite H1; [reflexivity|lia].
  - apply H2. lia.
Defined.

(** ** Checked access to a position of [poly_array] *)

Section array_at.
Import PolyArray.
Variable N : nat.

(** X27. [poly_array::at(index)] never changes the array; it throws
    [std::out_of_range] (the message names the index) exactly for
    [index >= N]; within bounds it returns the pointer stored in the
    slot, which under the invariant is the address of slot [index] itself
    exactly when the position is occupied and null exactly when it is
    empty. *)
Theorem arr_at_checked (index : nat) (a : poly_array) :
  (N ≤ index →
     at_ N index a
     = (a, [], inl (raised (out_of_range
          ("poly_array::at(" +:+ pretty index +:+ ") out of bounds")%string))))
  ∧ (index < N → at_ N index a = (a, [], inr (ptr (slot a index))))
  ∧ (index < N → arr_inv N a →
     (is_Some (arr_occupant a index)
      ↔ at_ N index a = (a, [], inr (Some index)))
     ∧ (arr_occupant a index = None ↔ at_ N index a = (a, [], inr None))).
Proof.
  assert (index < N → at_ N index a = (a, [], inr (ptr (slot a index))))
    as Hin.
  { intros Hlt. unfold at_.
    destruct (Nat.leb_spec N index) as [|_]; [lia|].
    rewrite run_bind. done. }
  split; [|split; [done|]].
  - intros Hge. unfold at_.
    destruct (Nat.leb_spec N index) as [_|]; [done|lia].
  - intros Hlt (_ & _ & Hok). rewrite Hin by done.
    unfold arr_occupant.
    destruct (Hok index) as [He|(o & Ho & _)].
    + rewrite He. cbn. split; split; done.
    + rewrite Ho. cbn. split; split; done.
Qed.

End array_at.

Lemma arr_at_checked_witness :
  PolyArray.at_ 3 2 (arr_of [(0, Canvas, 1); (2, Label, 2)])
  = (arr_of [(0, Canvas, 1); (2, Label, 2)], [], inr (Some 2))
  ∧ outcome (PolyArray.at_ 3 3 (arr_of [(0, Canvas, 1); (2, Label, 2)]))
    = inl (raised (out_of_range "poly_array::at(3) out of bounds"%string)).
Proof.
  destruct (arr_at_checked 3 2 (arr_of [(0, Canvas, 1); (2, Label, 2)]))
    as (_ & _ & H1).
  destruct (arr_at_checked 3 3 (arr_of [(0, Canvas, 1); (2, Label, 2)]))
    as (H2 & _).
  split.
  - destruct (H1 ltac:(lia) sample_arr_inv) as [Hocc _].
    apply Hocc. exists (get_type_ops Label, obj 2). vm_compute. reflexivity.
  - rewrite H2 by lia. vm_compute. reflexivity.
Defined.
